(** * Spatial overlay of two feature collections (geopandas/tools/overlay.py)

    A shallow embedding of the overlay engine.  Frames are column-major, as
    pandas stores them: an index of row labels and an ordered list of named
    columns.  The geometry kernel (shapely), the spatial index and the
    bounding-box computation are external collaborators of the module and
    enter as the fields of a [Kernel]. *)

From Stdlib Require Import String List ZArith Bool Arith Lia.
Import ListNotations.
Local Open Scope string_scope.
Local Open Scope list_scope.
Local Open Scope nat_scope.

(** ** Geometry types and families *)

Inductive GeomType :=
| Point | MultiPoint
| LineString | LinearRing | MultiLineString
| Polygon | MultiPolygon
| GeometryCollection.

Definition GeomType_eqb (a b : GeomType) : bool :=
  match a, b with
  | Point, Point | MultiPoint, MultiPoint | LineString, LineString
  | LinearRing, LinearRing | MultiLineString, MultiLineString
  | Polygon, Polygon | MultiPolygon, MultiPolygon
  | GeometryCollection, GeometryCollection => true
  | _, _ => false
  end.

(** Modelled from the spec: the three family constants of [geopandas.array]
    imported on lines 9-15 (the docstring of [overlay] lists their members:
    (Multi)Polygons, (Multi)Points, (Multi)LineString and LinearRing). *)
Definition POLYGON_GEOM_TYPES : list GeomType := [Polygon; MultiPolygon].
Definition LINE_GEOM_TYPES : list GeomType :=
  [LineString; MultiLineString; LinearRing].
Definition POINT_GEOM_TYPES : list GeomType := [Point; MultiPoint].

(** [x in types] for a geometry type name that may be missing ([None]). *)
Definition isin (types : list GeomType) (t : option GeomType) : bool :=
  match t with
  | Some t => existsb (GeomType_eqb t) types
  | None => false
  end.

(** ** The external collaborators *)

Class Kernel := {
  geom : Type;
  coord : Type;
  crs_t : Type;
  shp_geom_type : geom -> GeomType;
  shp_is_valid : geom -> bool;
  shp_is_empty : geom -> bool;
  shp_make_valid : geom -> geom;
  shp_intersects : geom -> geom -> bool;
  shp_intersection : geom -> geom -> geom;
  shp_difference : geom -> geom -> geom;
  shp_get_parts : geom -> list geom;
  shp_union_all : list geom -> geom;
  (* [total_bounds] of a geometry column: minx, miny, maxx, maxy *)
  shp_total_bounds : list (option geom) -> coord * coord * coord * coord;
  (* [<=] on floats; false whenever an operand is NaN *)
  coord_le : coord -> coord -> bool;
  _check_crs : option crs_t -> option crs_t -> bool
}.

(** ** Exceptions, warnings and the effect monad *)

Inductive exn :=
| ValueError_how (how : string)
| ValueError_invalid_geometries (count : nat)
| ValueError_list_remove (x : string)
| ValueError_rename_geometry (col : string)
| NotImplementedError_mixed (i : nat)
| TypeError_geom_type
| IndexError
| KeyError (labels : list string)
| AttributeError (name : string)
| MergeError.

Inductive event :=
| Warn_crs_mismatch
| Warn_dropped_geometries (count : nat)
| Sindex_query.

(** A computation yields the events it emitted and a result or an exception. *)
Definition M (A : Type) : Type := list event * (exn + A).

Definition ret {A} (a : A) : M A := ([], inr a).
Definition raise {A} (e : exn) : M A := ([], inl e).
Definition emit (ev : event) : M unit := ([ev], inr tt).

Definition bind {A B} (m : M A) (f : A -> M B) : M B :=
  match m with
  | (l1, inl e) => (l1, inl e)
  | (l1, inr a) =>
      match f a with
      | (l2, r) => (l1 ++ l2, r)
      end
  end.

Declare Scope overlay_scope.
Delimit Scope overlay_scope with overlay.
Notation "x <- c1 ;; c2" := (bind c1 (fun x => c2))
  (at level 61, c1 at next level, right associativity) : overlay_scope.
Notation "c1 ;;; c2" := (bind c1 (fun _ => c2))
  (at level 61, right associativity) : overlay_scope.
Local Open Scope overlay_scope.

Definition when (b : bool) (m : M unit) : M unit := if b then m else ret tt.

(** ** Small list helpers (Python and numpy primitives) *)

Definition mem (x : string) (l : list string) : bool :=
  existsb (String.eqb x) l.

Definition range (n : nat) : list nat := seq 0 n.

Definition enumerate {A} (l : list A) : list (nat * A) :=
  combine (range (length l)) l.

(** Boolean mask selection [a[mask]]. *)
Fixpoint select {A} (mask : list bool) (l : list A) : list A :=
  match mask, l with
  | b :: mask', x :: l' => if b then x :: select mask' l' else select mask' l'
  | _, _ => []
  end.

Definition any (l : list bool) : bool := existsb (fun b => b) l.
Definition all (l : list bool) : bool := forallb (fun b => b) l.
Definition count_true (l : list bool) : nat := length (filter (fun b => b) l).

(** [list.remove(x)]: removes the first occurrence, ValueError if absent. *)
Fixpoint list_remove (x : string) (l : list string) : option (list string) :=
  match l with
  | [] => None
  | y :: l' =>
      if String.eqb x y then Some l'
      else match list_remove x l' with
           | Some r => Some (y :: r)
           | None => None
           end
  end.

(** ** Cells and frames *)

Section Model.
Context {K : Kernel}.

(** A cell holds a missing value (NaN / None), a scalar or a geometry. *)
Inductive cell :=
| NA
| Num (z : Z)
| Geo (g : geom).

Definition cell_geom (c : cell) : option geom :=
  match c with Geo g => Some g | _ => None end.

Definition isnull (c : cell) : bool :=
  match c with NA => true | _ => false end.

Definition column := (string * list cell)%type.

Record DataFrame := mkDataFrame {
  index : list Z;
  cols : list column
}.

Record GeoDataFrame := mkGeoDataFrame {
  frame : DataFrame;
  _geometry_column_name : string;
  crs : option crs_t
}.

Definition columns (d : DataFrame) : list string := map fst (cols d).
Definition nrows (d : DataFrame) : nat := length (index d).
Definition gcolumns (g : GeoDataFrame) : list string := columns (frame g).
Definition gnrows (g : GeoDataFrame) : nat := nrows (frame g).

Definition with_frame (g : GeoDataFrame) (d : DataFrame) : GeoDataFrame :=
  mkGeoDataFrame d (_geometry_column_name g) (crs g).

(** [df[name]]: the first column carrying the label. *)
Fixpoint lookup_col (name : string) (cs : list column) : option (list cell) :=
  match cs with
  | [] => None
  | (n, v) :: cs' => if String.eqb name n then Some v else lookup_col name cs'
  end.

Definition getcol (name : string) (d : DataFrame) : M (list cell) :=
  match lookup_col name (cols d) with
  | Some v => ret v
  | None => raise (KeyError [name])
  end.

(** [df.geometry]: the active geometry column. *)
Definition geometry (g : GeoDataFrame) : M (list cell) :=
  match lookup_col (_geometry_column_name g) (cols (frame g)) with
  | Some v => ret v
  | None => raise (AttributeError "geometry")
  end.

(** [series.geom_type], [series.is_empty], [series.is_valid],
    [series.make_valid()] act element-wise; a missing geometry has no type,
    is not empty and stays missing. *)
Definition cell_geom_type (c : cell) : option GeomType :=
  option_map shp_geom_type (cell_geom c).

Definition series_geom_type (s : list cell) : list (option GeomType) :=
  map cell_geom_type s.

Definition cell_is_empty (c : cell) : bool :=
  match c with Geo g => shp_is_empty g | _ => false end.

Definition cell_is_valid (c : cell) : bool :=
  match c with Geo g => shp_is_valid g | _ => false end.

Definition cell_make_valid (c : cell) : cell :=
  match c with Geo g => Geo (shp_make_valid g) | _ => c end.

(** [df.geom_type] *)
Definition geom_type (g : GeoDataFrame) : M (list (option GeomType)) :=
  s <- geometry g ;; ret (series_geom_type s).

(** *** Column operations *)

(** [df.drop(labels, axis=1)] *)
Definition drop (labels : list string) (d : DataFrame) : M DataFrame :=
  if forallb (fun l => mem l (columns d)) labels
  then ret (mkDataFrame (index d)
              (filter (fun c => negb (mem (fst c) labels)) (cols d)))
  else raise (KeyError (filter (fun l => negb (mem l (columns d))) labels)).

(** [index.drop(label)] on the column index *)
Definition columns_drop (label : string) (names : list string)
  : M (list string) :=
  if mem label names
  then ret (filter (fun n => negb (String.eqb n label)) names)
  else raise (KeyError [label]).

(** [df[[c1, ..., cn]]] *)
Fixpoint getitem_columns (names : list string) (d : DataFrame)
  : M (list column) :=
  match names with
  | [] => ret []
  | n :: names' =>
      v <- getcol n d ;;
      rest <- getitem_columns names' d ;;
      ret ((n, v) :: rest)
  end.

Definition getitem (names : list string) (d : DataFrame) : M DataFrame :=
  cs <- getitem_columns names d ;; ret (mkDataFrame (index d) cs).

(** [df[name] = values]: overwrite in place when the label exists, append as
    the last column otherwise. *)
Fixpoint set_col (name : string) (v : list cell) (cs : list column)
  : list column :=
  match cs with
  | [] => [(name, v)]
  | (n, w) :: cs' =>
      if String.eqb name n then (n, v) :: cs'
      else (n, w) :: set_col name v cs'
  end.

Definition setitem (name : string) (v : list cell) (d : DataFrame)
  : DataFrame :=
  mkDataFrame (index d) (set_col name v (cols d)).

(** [df.columns = names] *)
Definition set_columns (names : list string) (d : DataFrame) : DataFrame :=
  mkDataFrame (index d) (combine names (map snd (cols d))).

(** [df.reindex(columns=names)]: absent labels become all-missing columns. *)
Definition reindex_columns (names : list string) (d : DataFrame)
  : DataFrame :=
  mkDataFrame (index d)
    (map (fun n => match lookup_col n (cols d) with
                   | Some v => (n, v)
                   | None => (n, repeat NA (nrows d))
                   end) names).

(** *** Row operations *)

Definition map_cols (f : list cell -> list cell) (cs : list column)
  : list column :=
  map (fun c => (fst c, f (snd c))) cs.

(** [df.reset_index(drop=True)] *)
Definition reset_index (d : DataFrame) : DataFrame :=
  mkDataFrame (map Z.of_nat (range (nrows d))) (cols d).

(** [df.iloc[:0]] *)
Definition iloc_none (d : DataFrame) : DataFrame :=
  mkDataFrame [] (map_cols (fun _ => []) (cols d)).

(** [df[mask]] / [df.loc[mask]] with a boolean mask *)
Definition loc_mask (mask : list bool) (d : DataFrame) : DataFrame :=
  mkDataFrame (select mask (index d)) (map_cols (select mask) (cols d)).

(** positional [take]; a position outside the column yields a missing value *)
Definition take (idx : list nat) (s : list cell) : list cell :=
  map (fun i => nth i s NA) idx.

Definition take_opt (idx : list (option nat)) (s : list cell) : list cell :=
  map (fun i => match i with Some i => nth i s NA | None => NA end) idx.

(** *** Merging

    [DataFrame.merge] first resolves the column labels: labels present on
    both sides (join keys given by [on=] excepted) receive the suffixes, and
    a suffix that produces a duplicate label is refused. *)

Fixpoint duplicated_from (seen l : list string) : list bool :=
  match l with
  | [] => []
  | x :: l' => mem x seen :: duplicated_from (x :: seen) l'
  end.

Definition duplicated (l : list string) : list bool := duplicated_from [] l.

Definition add_suffix (to_rename : list string) (suffix n : string) : string :=
  if mem n to_rename then String.append n suffix else n.

Definition new_duplicates (labels orig : list string) : bool :=
  existsb (fun p => fst p && negb (snd p))
    (combine (duplicated labels) (duplicated orig)).

Definition items_overlap_with_suffix (left right : list string)
    (suffixes : string * string) : M (list string * list string) :=
  let to_rename := filter (fun n => mem n right) left in
  let llabels := map (add_suffix to_rename (fst suffixes)) left in
  let rlabels := map (add_suffix to_rename (snd suffixes)) right in
  if new_duplicates llabels left || new_duplicates rlabels right
  then raise MergeError
  else ret (llabels, rlabels).

(** The rows of a merge are described by two indexers into the operands. *)
Definition assemble (idx : list Z) (llabels rlabels : list string)
    (left right : DataFrame) (li ri : list (option nat)) : DataFrame :=
  mkDataFrame idx
    (combine llabels (map (fun c => take_opt li (snd c)) (cols left)) ++
     combine rlabels (map (fun c => take_opt ri (snd c)) (cols right))).

(** positions of the rows of an index that carry the label of a key cell *)
Definition positions_of_label (key : cell) (idx : list Z) : list nat :=
  match key with
  | Num z =>
      map fst (filter (fun p => Z.eqb (snd p) z) (enumerate idx))
  | _ => []
  end.

(** [left.merge(right, left_on=key, right_index=True, suffixes=...)]:
    inner join in the order of the left rows; the index of the left rows is
    passed on. *)
Definition merge_left_on_right_index (left right : DataFrame)
    (left_on : string) (suffixes : string * string) : M DataFrame :=
  keys <- getcol left_on left ;;
  labels <- items_overlap_with_suffix (columns left) (columns right) suffixes ;;
  let pairs :=
    flat_map (fun p => map (fun j => (fst p, j))
                         (positions_of_label (snd p) (index right)))
             (enumerate keys) in
  ret (assemble (map (fun p => nth (fst p) (index left) 0%Z) pairs)
         (fst labels) (snd labels) left right
         (map (fun p => Some (fst p)) pairs)
         (map (fun p => Some (snd p)) pairs)).

(** [left.merge(right, left_index=True, right_index=True, suffixes=...)] *)
Definition merge_on_index (left right : DataFrame)
    (suffixes : string * string) : M DataFrame :=
  labels <- items_overlap_with_suffix (columns left) (columns right) suffixes ;;
  let pairs :=
    flat_map (fun p => map (fun j => (fst p, j))
                         (positions_of_label (Num (snd p)) (index right)))
             (enumerate (index left)) in
  ret (assemble (map (fun p => nth (fst p) (index left) 0%Z) pairs)
         (fst labels) (snd labels) left right
         (map (fun p => Some (fst p)) pairs)
         (map (fun p => Some (snd p)) pairs)).

(** Join keys: scalars compare by value and two missing keys match. *)
Definition key_eqb (a b : cell) : bool :=
  match a, b with
  | NA, NA => true
  | Num x, Num y => Z.eqb x y
  | _, _ => false
  end.

(** lexicographic order of the keys, missing values last *)
Definition key_leb (a b : cell) : bool :=
  match a, b with
  | Num x, Num y => Z.leb x y
  | Num _, _ => true
  | _, Num _ => false
  | _, _ => true
  end.

Definition keys_eqb (a b : cell * cell) : bool :=
  key_eqb (fst a) (fst b) && key_eqb (snd a) (snd b).

Definition keys_leb (a b : cell * cell) : bool :=
  if key_eqb (fst a) (fst b) then key_leb (snd a) (snd b)
  else key_leb (fst a) (fst b).

Definition joined_row := ((cell * cell) * (option nat * option nat))%type.

Fixpoint insert_row (r : joined_row) (l : list joined_row) : list joined_row :=
  match l with
  | [] => [r]
  | r' :: l' =>
      if keys_leb (fst r') (fst r) then r' :: insert_row r l' else r :: l
  end.

Definition sort_rows (l : list joined_row) : list joined_row :=
  fold_left (fun acc r => insert_row r acc) l [].

(** [left.merge(right, on=[k1, k2], how="outer", suffixes=...)]: matched
    pairs, then the rows found on one side only, the whole sorted on the
    keys; the key columns are shared and keep their place on the left. *)
Definition merge_outer_on (left right : DataFrame) (k1 k2 : string)
    (suffixes : string * string) : M DataFrame :=
  l1 <- getcol k1 left ;;
  l2 <- getcol k2 left ;;
  r1 <- getcol k1 right ;;
  r2 <- getcol k2 right ;;
  right' <- drop [k1; k2] right ;;
  labels <- items_overlap_with_suffix (columns left) (columns right')
              suffixes ;;
  let lkeys := combine l1 l2 in
  let rkeys := combine r1 r2 in
  let matched :=
    flat_map (fun p =>
      match filter (fun q => keys_eqb (snd p) (snd q)) (enumerate rkeys) with
      | [] => [(snd p, (Some (fst p), None))]
      | qs => map (fun q => (snd p, (Some (fst p), Some (fst q)))) qs
      end) (enumerate lkeys) in
  let right_only :=
    flat_map (fun q =>
      if existsb (fun k => keys_eqb k (snd q)) lkeys then []
      else [(snd q, (None, Some (fst q)))]) (enumerate rkeys) in
  let rows := sort_rows (matched ++ right_only) in
  let li := map (fun r => fst (snd r)) rows in
  let ri := map (fun r => snd (snd r)) rows in
  let merged :=
    assemble (map Z.of_nat (range (length rows)))
      (fst labels) (snd labels) left right' li ri in
  ret (setitem k2 (map (fun r => snd (fst r)) rows)
         (setitem k1 (map (fun r => fst (fst r)) rows) merged)).

(** [pd.concat([a, b], ignore_index=True, sort=False)]: the labels of [a],
    then the labels only [b] has; a frame lacking a column contributes
    missing values. *)
Definition column_or_missing (n : string) (d : DataFrame) : list cell :=
  match lookup_col n (cols d) with
  | Some v => v
  | None => repeat NA (nrows d)
  end.

Definition concat (a b : DataFrame) : DataFrame :=
  let names :=
    columns a ++ filter (fun n => negb (mem n (columns a))) (columns b) in
  mkDataFrame (map Z.of_nat (range (nrows a + nrows b)))
    (map (fun n => (n, column_or_missing n a ++ column_or_missing n b)) names).

(** *** Collaborators of this repository outside the module *)

(** Modelled from the spec: [sindex.query(geoms, predicate="intersects",
    sort=True)] (section 4.1): the index pairs (i, j) of the query geometries
    and the indexed geometries that intersect, sorted by i, then by j; it
    returns the two index arrays.  Missing geometries match nothing. *)
Definition cell_intersects (a b : cell) : bool :=
  match a, b with
  | Geo x, Geo y => shp_intersects x y
  | _, _ => false
  end.

Definition query_pairs (query tree : list cell) : list (nat * nat) :=
  flat_map (fun q =>
    map (fun t => (fst q, fst t))
        (filter (fun t => cell_intersects (snd q) (snd t)) (enumerate tree)))
    (enumerate query).

Definition sindex_query (tree query : list cell) : M (list nat * list nat) :=
  emit Sindex_query ;;;
  ret (map fst (query_pairs query tree), map snd (query_pairs query tree)).

(** Modelled from the spec: [GeoDataFrame(data, geometry=series, crs=crs)]
    stores the series under the label "geometry" and makes it the geometry
    attribute (section 3: the geometry attribute is named uniformly). *)
Definition GeoDataFrame_of (d : DataFrame) (geometry : list cell)
    (crs : option crs_t) : GeoDataFrame :=
  mkGeoDataFrame (setitem "geometry" geometry d) "geometry" crs.

(** Modelled from the spec: [df.rename_geometry(col)] relabels the geometry
    column and refuses a label that is already in use. *)
Definition rename_geometry (col : string) (g : GeoDataFrame)
  : M GeoDataFrame :=
  _ <- geometry g ;;
  if mem col (gcolumns g) then raise (ValueError_rename_geometry col)
  else ret (mkGeoDataFrame
              (mkDataFrame (index (frame g))
                 (map (fun c =>
                         if String.eqb (fst c) (_geometry_column_name g)
                         then (col, snd c) else c) (cols (frame g))))
              col (crs g)).

Definition gdrop (labels : list string) (g : GeoDataFrame) : M GeoDataFrame :=
  d <- drop labels (frame g) ;; ret (with_frame g d).

(** ** The module: geopandas/tools/overlay.py *)

(** [geopandas._compat.PANDAS_GE_30] *)
Variable PANDAS_GE_30 : bool.

(** Lines 18-32.  Both branches compute the same frame; the second one does
    so by mutating its argument. *)
Definition _ensure_geometry_column (df : GeoDataFrame) : M GeoDataFrame :=
  if negb (String.eqb (_geometry_column_name df) "geometry") then
    if PANDAS_GE_30 then
      df <- (if mem "geometry" (gcolumns df)
             then gdrop ["geometry"] df else ret df) ;;
      rename_geometry "geometry" df
    else
      df <- (if mem "geometry" (gcolumns df)
             then gdrop ["geometry"] df else ret df) ;;
      rename_geometry "geometry" df
  else ret df.

(** [left.intersection(right)], element-wise on two aligned series *)
Definition series_intersection (l r : list cell) : list cell :=
  map (fun p => match p with
                | (Geo a, Geo b) => Geo (shp_intersection a b)
                | _ => NA
                end) (combine l r).

(** [poly_ix = s.geom_type.isin(POLYGON_GEOM_TYPES)] followed by
    [s.loc[poly_ix] = s[poly_ix].make_valid()] *)
Definition repair_polygons (s : list cell) : list cell :=
  map (fun c => if isin POLYGON_GEOM_TYPES (cell_geom_type c)
                then cell_make_valid c else c) s.

(** Lines 70-80 and 301-309: the zero-row frame carrying the merged labels
    of both inputs, the geometry column of [df1] moved last. *)
Definition empty_merge (df1 df2 : GeoDataFrame) (pair_index : bool)
  : M GeoDataFrame :=
  _ <- geometry df2 ;;
  right <- drop [_geometry_column_name df2] (iloc_none (frame df2)) ;;
  result <- merge_on_index (iloc_none (frame df1)) right ("_1", "_2") ;;
  let result :=
    if pair_index
    then setitem "__idx2" (repeat NA (nrows result))
           (setitem "__idx1" (repeat NA (nrows result)) result)
    else result in
  _ <- geometry df1 ;;
  names <- columns_drop (_geometry_column_name df1) (columns result) ;;
  r <- getitem (names ++ [_geometry_column_name df1]) result ;;
  ret (with_frame df1 r).

(** Lines 35-80. *)
Definition _overlay_intersection (df1 df2 : GeoDataFrame) : M GeoDataFrame :=
  g2 <- geometry df2 ;;
  g1 <- geometry df1 ;;
  idx <- sindex_query g2 g1 ;;
  let idx1 := fst idx in
  let idx2 := snd idx in
  if (0 <? length idx1) && (0 <? length idx2) then
    let left := take idx1 g1 in
    let right := take idx2 g2 in
    let intersections := repair_polygons (series_intersection left right) in
    let pairs_intersect :=
      mkDataFrame (map Z.of_nat (range (length idx1)))
        [("__idx1", map (fun i => Num (Z.of_nat i)) idx1);
         ("__idx2", map (fun i => Num (Z.of_nat i)) idx2)] in
    let geom_intersect := intersections in
    let df1 := with_frame df1 (reset_index (frame df1)) in
    let df2 := with_frame df2 (reset_index (frame df2)) in
    d1 <- drop [_geometry_column_name df1] (frame df1) ;;
    dfinter <- merge_left_on_right_index pairs_intersect d1 "__idx1"
                 ("_x", "_y") ;;
    d2 <- drop [_geometry_column_name df2] (frame df2) ;;
    dfinter <- merge_left_on_right_index dfinter d2 "__idx2" ("_1", "_2") ;;
    ret (GeoDataFrame_of dfinter geom_intersect (crs df1))
  else
    empty_merge df1 df2 true.

(** [np.unique(a, return_index=True)]: the sorted distinct values and, for
    each, the position of its first occurrence. *)
Fixpoint insert_unique (x : nat) (l : list nat) : list nat :=
  match l with
  | [] => [x]
  | y :: l' =>
      if x <? y then x :: l
      else if x =? y then l
      else y :: insert_unique x l'
  end.

Fixpoint first_index (x : nat) (a : list nat) : nat :=
  match a with
  | [] => 0
  | y :: a' => if x =? y then 0 else S (first_index x a')
  end.

Definition np_unique (a : list nat) : list nat * list nat :=
  let u := fold_right insert_unique [] a in
  (u, map (fun v => first_index v a) u).

(** [np.split(a, cuts)]: the slices [a[:c1]], [a[c1:c2]], ..., [a[cn:]] *)
Fixpoint np_split_from (prev : nat) (cuts : list nat) (a : list nat)
  : list (list nat) :=
  match cuts with
  | [] => [skipn prev a]
  | c :: cuts' => firstn (c - prev) (skipn prev a) :: np_split_from c cuts' a
  end.

Definition np_split (a : list nat) (cuts : list nat) : list (list nat) :=
  np_split_from 0 cuts a.

(** Lines 89-92: the comprehension pops the next group whenever the row has
    one. *)
Fixpoint sidx_comprehension (rows idx1_unique : list nat)
    (idx2_split : list (list nat)) : M (list (list nat)) :=
  match rows with
  | [] => ret []
  | idx :: rows' =>
      if existsb (Nat.eqb idx) idx1_unique then
        match idx2_split with
        | [] => raise IndexError
        | s :: idx2_split' =>
            rest <- sidx_comprehension rows' idx1_unique idx2_split' ;;
            ret (s :: rest)
        end
      else
        rest <- sidx_comprehension rows' idx1_unique idx2_split ;;
        ret ([] :: rest)
  end.

(** [x.difference(y)] on the values a geometry column holds *)
Definition difference_method (x y : cell) : M cell :=
  match x with
  | Geo a => ret (match y with Geo b => Geo (shp_difference a b) | _ => NA end)
  | _ => raise (AttributeError "difference")
  end.

(** [reduce(f, [x] + ys)] *)
Fixpoint reduce (f : cell -> cell -> M cell) (x : cell) (ys : list cell)
  : M cell :=
  match ys with
  | [] => ret x
  | y :: ys' => x' <- f x y ;; reduce f x' ys'
  end.

(** Lines 94-99. *)
Fixpoint differences_loop (rows : list (cell * list nat)) (g2 : list cell)
  : M (list cell) :=
  match rows with
  | [] => ret []
  | (geom, neighbours) :: rows' =>
      new <- reduce difference_method geom (take neighbours g2) ;;
      new_g <- differences_loop rows' g2 ;;
      ret (new :: new_g)
  end.

(** Lines 83-106. *)
Definition _overlay_difference (df1 df2 : GeoDataFrame) : M GeoDataFrame :=
  g2 <- geometry df2 ;;
  g1 <- geometry df1 ;;
  idx <- sindex_query g2 g1 ;;
  let idx1 := fst idx in
  let idx2 := snd idx in
  let idx1_unique := fst (np_unique idx1) in
  let idx1_unique_indices := snd (np_unique idx1) in
  let idx2_split := np_split idx2 (tl idx1_unique_indices) in
  sidx <- sidx_comprehension (range (length g1)) idx1_unique idx2_split ;;
  new_g <- differences_loop (combine g1 sidx) g2 ;;
  let differences := repair_polygons new_g in
  let keep := map (fun c => negb (cell_is_empty c)) differences in
  let geom_diff := select keep differences in
  let dfdiff := with_frame df1 (loc_mask keep (frame df1)) in
  ret (with_frame dfdiff
         (setitem (_geometry_column_name dfdiff) geom_diff (frame dfdiff))).

(** [columns = list(df.columns); columns.remove("geometry");
    columns.append("geometry")] *)
Definition geometry_last (names : list string) : M (list string) :=
  match list_remove "geometry" names with
  | Some r => ret (r ++ ["geometry"])
  | None => raise (ValueError_list_remove "geometry")
  end.

(** [pd.concat] of two geo frames: the attributes of the first one are
    passed on. *)
Definition gconcat (a b : GeoDataFrame) : GeoDataFrame :=
  with_frame a (concat (frame a) (frame b)).

(** Lines 109-130. *)
Definition _overlay_identity (df1 df2 : GeoDataFrame) : M GeoDataFrame :=
  dfintersection <- _overlay_intersection df1 df2 ;;
  dfdifference <- _overlay_difference df1 df2 ;;
  dfdifference <- _ensure_geometry_column dfdifference ;;
  let new_columns :=
    map (fun col => if mem col (gcolumns dfintersection) then col
                    else String.append col "_1") (gcolumns dfdifference) in
  let dfdifference :=
    with_frame dfdifference (set_columns new_columns (frame dfdifference)) in
  let result := gconcat dfintersection dfdifference in
  columns <- geometry_last (gcolumns dfintersection) ;;
  ret (with_frame result (reindex_columns columns (frame result))).

Definition gsetitem (name : string) (v : list cell) (g : GeoDataFrame)
  : GeoDataFrame :=
  with_frame g (setitem name v (frame g)).

(** [df.name], attribute access to a column *)
Definition getattr_col (name : string) (d : DataFrame) : M (list cell) :=
  match lookup_col name (cols d) with
  | Some v => ret v
  | None => raise (AttributeError name)
  end.

(** Lines 133-157. *)
Definition _overlay_symmetric_diff (df1 df2 : GeoDataFrame)
  : M GeoDataFrame :=
  dfdiff1 <- _overlay_difference df1 df2 ;;
  dfdiff2 <- _overlay_difference df2 df1 ;;
  let dfdiff1 :=
    gsetitem "__idx1" (map (fun i => Num (Z.of_nat i)) (range (gnrows dfdiff1)))
      dfdiff1 in
  let dfdiff2 :=
    gsetitem "__idx2" (map (fun i => Num (Z.of_nat i)) (range (gnrows dfdiff2)))
      dfdiff2 in
  let dfdiff1 := gsetitem "__idx2" (repeat NA (gnrows dfdiff1)) dfdiff1 in
  let dfdiff2 := gsetitem "__idx1" (repeat NA (gnrows dfdiff2)) dfdiff2 in
  dfdiff1 <- _ensure_geometry_column dfdiff1 ;;
  dfdiff2 <- _ensure_geometry_column dfdiff2 ;;
  dfsym <- merge_outer_on (frame dfdiff1) (frame dfdiff2) "__idx1" "__idx2"
             ("_1", "_2") ;;
  geometry_1 <- getattr_col "geometry_1" dfsym ;;
  geometry_2 <- getcol "geometry_2" dfsym ;;
  let geometry :=
    map (fun p => if isnull (fst p) then snd p else fst p)
        (combine geometry_1 geometry_2) in
  dfsym <- drop ["geometry_1"; "geometry_2"] dfsym ;;
  let dfsym := reset_index dfsym in
  ret (GeoDataFrame_of dfsym geometry (crs df1)).

(** Lines 160-169. *)
Definition _overlay_union (df1 df2 : GeoDataFrame) : M GeoDataFrame :=
  dfinter <- _overlay_intersection df1 df2 ;;
  dfsym <- _overlay_symmetric_diff df1 df2 ;;
  let dfunion := gconcat dfinter dfsym in
  columns <- geometry_last (gcolumns dfunion) ;;
  ret (with_frame dfunion (reindex_columns columns (frame dfunion))).

(** Modelled from the spec: [explode(index_parts=True)] followed by
    [reset_index(level=0)] (section 4.6): one row per constituent geometry,
    tagged with the position of its originating row. *)
Definition explode (s : list cell) : list (nat * cell) :=
  flat_map (fun p => match snd p with
                     | Geo g => map (fun q => (fst p, Geo q)) (shp_get_parts g)
                     | c => [(fst p, c)]
                     end) (enumerate s).

(** Modelled from the spec: [dissolve(by="level_0")] (section 4.6): one
    geometry per originating row, the union of its parts that are not
    missing. *)
Definition dissolve (n : nat) (exploded : list (nat * cell)) : list cell :=
  map (fun i =>
         Geo (shp_union_all
                (flat_map (fun p => if fst p =? i
                                    then match snd p with
                                         | Geo g => [g]
                                         | _ => []
                                         end
                                    else []) exploded)))
      (range n).

(** [s.loc[mask] = values] with an array of values *)
Fixpoint loc_assign (mask : list bool) (values s : list cell) : list cell :=
  match mask, s with
  | b :: mask', c :: s' =>
      if b then
        match values with
        | v :: values' => v :: loc_assign mask' values' s'
        | [] => c :: loc_assign mask' [] s'
        end
      else c :: loc_assign mask' values s'
  | _, _ => s
  end.

(** Lines 364-423. *)
Definition _collection_extract (df : GeoDataFrame)
    (geom_type_ : option GeomType) (keep_geom_type_warning : bool)
  : M GeoDataFrame :=
  geom_types <-
    (if isin POLYGON_GEOM_TYPES geom_type_ then ret POLYGON_GEOM_TYPES
     else if isin LINE_GEOM_TYPES geom_type_ then ret LINE_GEOM_TYPES
     else if isin POINT_GEOM_TYPES geom_type_ then ret POINT_GEOM_TYPES
     else raise TypeError_geom_type) ;;
  let result := df in
  types <- geom_type result ;;
  let is_collection := map (isin [GeometryCollection]) types in
  step <-
    (if any is_collection then
       let geom_col := _geometry_column_name result in
       g <- geometry result ;;
       let collections := select is_collection g in
       let exploded := explode collections in
       let orig_num_geoms_exploded := length exploded in
       let exploded :=
         map (fun p => if isin geom_types (cell_geom_type (snd p))
                       then p else (fst p, NA)) exploded in
       let num_dropped_collection :=
         orig_num_geoms_exploded
         - count_true (map (fun p => isnull (snd p)) exploded) in
       let dissolved := dissolve (length collections) exploded in
       ret (gsetitem geom_col (loc_assign is_collection dissolved g) result,
            num_dropped_collection)
     else ret (result, 0)) ;;
  let result := fst step in
  let num_dropped_collection := snd step in
  let orig_num_geoms := gnrows result in
  types <- geom_type result ;;
  let result :=
    with_frame result (loc_mask (map (isin geom_types) types) (frame result)) in
  let num_dropped := orig_num_geoms - gnrows result in
  when (((0 <? num_dropped) || (0 <? num_dropped_collection))
        && keep_geom_type_warning)
       (emit (Warn_dropped_geometries (num_dropped + num_dropped_collection))) ;;;
  ret result.

Definition allowed_hows : list string :=
  ["intersection"; "union"; "identity"; "symmetric_difference"; "difference"].

(** Lines 286-291, one turn of the loop. *)
Definition check_uniform (i : nat) (df : GeoDataFrame) : M unit :=
  types <- geom_type df ;;
  let poly_check := any (map (isin POLYGON_GEOM_TYPES) types) in
  let lines_check := any (map (isin LINE_GEOM_TYPES) types) in
  let points_check := any (map (isin POINT_GEOM_TYPES) types) in
  if 1 <? Nat.b2n poly_check + Nat.b2n lines_check + Nat.b2n points_check
  then raise (NotImplementedError_mixed (i + 1))
  else ret tt.

(** [df.total_bounds] *)
Definition total_bounds (df : GeoDataFrame)
  : M (coord * coord * coord * coord) :=
  g <- geometry df ;; ret (shp_total_bounds (map cell_geom g)).

(** Lines 297-300, the test under the [not]. *)
Definition boxes_overlap (box_gdf1 box_gdf2 : coord * coord * coord * coord)
  : bool :=
  match box_gdf1, box_gdf2 with
  | (a0, a1, a2, a3), (b0, b1, b2, b3) =>
      (coord_le a0 b2 && coord_le b0 a2) && (coord_le a1 b3 && coord_le b1 a3)
  end.

(** Lines 312-332; the flag [make_valid] is a variable of the enclosing
    call. *)
Definition _make_valid (make_valid : bool) (df : GeoDataFrame)
  : M GeoDataFrame :=
  types <- geom_type df ;;
  if all (map (isin POLYGON_GEOM_TYPES) types) then
    g <- geometry df ;;
    let mask := map (fun c => negb (cell_is_valid c)) g in
    let col := _geometry_column_name df in
    if make_valid then
      let df :=
        gsetitem col
          (map (fun p : bool * cell =>
                  if fst p then cell_make_valid (snd p) else snd p)
               (combine mask g)) df in
      if any mask then _collection_extract df (Some Polygon) false
      else ret df
    else if any mask then
      raise (ValueError_invalid_geometries (count_true mask))
    else ret df
  else ret df.

(** Lines 280-284. *)
Definition keep_geom_type_flags (keep_geom_type : option bool) : bool * bool :=
  match keep_geom_type with
  | None => (true, true)
  | Some b => (b, false)
  end.

(** Lines 172-361.  Both inputs are typed as frames, which discharges the
    test on line 272. *)
Definition overlay (df1 df2 : GeoDataFrame) (how : string)
    (keep_geom_type : option bool) (make_valid : bool) : M GeoDataFrame :=
  if negb (mem how allowed_hows) then raise (ValueError_how how) else
  when (negb (_check_crs (crs df1) (crs df2))) (emit Warn_crs_mismatch) ;;;
  let keep_geom_type_warning := snd (keep_geom_type_flags keep_geom_type) in
  let keep_geom_type := fst (keep_geom_type_flags keep_geom_type) in
  check_uniform 0 df1 ;;;
  check_uniform 1 df2 ;;;
  early <-
    (if String.eqb how "intersection" then
       box_gdf1 <- total_bounds df1 ;;
       box_gdf2 <- total_bounds df2 ;;
       if negb (boxes_overlap box_gdf1 box_gdf2) then
         result <- empty_merge df1 df2 false ;;
         ret (Some result)
       else ret (@None GeoDataFrame)
     else ret None) ;;
  match early with
  | Some result => ret result
  | None =>
      geom_type_ <-
        (if keep_geom_type then
           types <- geom_type df1 ;;
           match types with
           | [] => raise IndexError
           | t :: _ => ret t
           end
         else ret None) ;;
      df1 <- _make_valid make_valid df1 ;;
      df2 <- _make_valid make_valid df2 ;;
      result <-
        (if String.eqb how "difference" then _overlay_difference df1 df2
         else if String.eqb how "intersection" then _overlay_intersection df1 df2
         else if String.eqb how "symmetric_difference"
              then _overlay_symmetric_diff df1 df2
         else if String.eqb how "union" then _overlay_union df1 df2
         else _overlay_identity df1 df2) ;;
      result <-
        (if mem how ["intersection"; "symmetric_difference"; "union"; "identity"]
         then gdrop ["__idx1"; "__idx2"] result
         else ret result) ;;
      result <-
        (if keep_geom_type
         then _collection_extract result geom_type_ keep_geom_type_warning
         else ret result) ;;
      ret (with_frame result (reset_index (frame result)))
  end.

End Model.

(** ** A small concrete kernel

    Named shapes in the plane with the few relations between them that the
    examples need.  [P1], [P2], [Q1], [Q2] are the four squares of the
    docstring of [overlay]; pairs of shapes that are not listed do not meet. *)

Module Toy.

Inductive atom :=
| P1            (* square (0,0)-(2,2) *)
| P2            (* square (2,2)-(4,4) *)
| Q1            (* square (1,1)-(3,3) *)
| Q2            (* square (3,3)-(5,5) *)
| P1Q1          (* square (1,1)-(2,2) *)
| P2Q1          (* square (2,2)-(3,3) *)
| P2Q2          (* square (3,3)-(4,4) *)
| P1_less_Q1    (* L-shape: P1 without P1Q1 *)
| P2_less_Q1    (* L-shape: P2 without P2Q1 *)
| P2_rest_a     (* square (2,3)-(3,4) *)
| P2_rest_b     (* square (3,2)-(4,3) *)
| Q1_less_P1    (* L-shape: Q1 without P1Q1 *)
| Q1_rest_a     (* square (1,2)-(2,3) *)
| Q1_rest_b     (* square (2,1)-(3,2) *)
| Q2_less_P2    (* L-shape: Q2 without P2Q2 *)
| Far           (* square (10,10)-(11,11) *)
| Bowtie        (* self-crossing ring (20,20) (22,22) (22,20) (20,22) *)
| Tri_left      (* triangle (20,20) (21,21) (20,22) *)
| Tri_right     (* triangle (22,20) (22,22) (21,21) *)
| BarA          (* bar (30,30)-(33,31) *)
| HookB         (* hook: (30,30)-(31,32) joined to (31,31)-(33,32) *)
| Bar_hook_area (* square (30,30)-(31,31), common to BarA and HookB *)
| Bar_hook_edge (* segment (31,31)-(33,31), where BarA and HookB touch *)
| Dot.          (* point (0,0) *)

Scheme Equality for atom.

(** A geometry is a simple shape or a collection of simple shapes. *)
Inductive shape :=
| Simple (a : atom)
| Multi (parts : list atom).

Definition atom_type (a : atom) : GeomType :=
  match a with
  | Bar_hook_edge => LineString
  | Dot => Point
  | _ => Polygon
  end.

Definition atom_valid (a : atom) : bool :=
  match a with Bowtie => false | _ => true end.

Definition atom_fix (a : atom) : list atom :=
  match a with Bowtie => [Tri_left; Tri_right] | _ => [a] end.

Definition atom_box (a : atom) : Z * Z * Z * Z :=
  (match a with
   | P1 => (0, 0, 2, 2) | P2 => (2, 2, 4, 4)
   | Q1 => (1, 1, 3, 3) | Q2 => (3, 3, 5, 5)
   | P1Q1 => (1, 1, 2, 2) | P2Q1 => (2, 2, 3, 3) | P2Q2 => (3, 3, 4, 4)
   | P1_less_Q1 => (0, 0, 2, 2) | P2_less_Q1 => (2, 2, 4, 4)
   | P2_rest_a => (2, 3, 3, 4) | P2_rest_b => (3, 2, 4, 3)
   | Q1_less_P1 => (1, 1, 3, 3)
   | Q1_rest_a => (1, 2, 2, 3) | Q1_rest_b => (2, 1, 3, 2)
   | Q2_less_P2 => (3, 3, 5, 5)
   | Far => (10, 10, 11, 11)
   | Bowtie => (20, 20, 22, 22)
   | Tri_left => (20, 20, 21, 22) | Tri_right => (21, 20, 22, 22)
   | BarA => (30, 30, 33, 31) | HookB => (30, 30, 33, 32)
   | Bar_hook_area => (30, 30, 31, 31) | Bar_hook_edge => (31, 31, 33, 31)
   | Dot => (0, 0, 0, 0)
   end)%Z.

(** the parts two simple shapes have in common *)
Definition atom_inter (a b : atom) : list atom :=
  match a, b with
  | P1, Q1 | Q1, P1 => [P1Q1]
  | P2, Q1 | Q1, P2 => [P2Q1]
  | P2, Q2 | Q2, P2 => [P2Q2]
  | P2_less_Q1, Q2 | Q2, P2_less_Q1 => [P2Q2]
  | Q1_less_P1, P2 | P2, Q1_less_P1 => [P2Q1]
  | BarA, HookB | HookB, BarA => [Bar_hook_area; Bar_hook_edge]
  | _, _ => if atom_beq a b then [a] else []
  end.

(** what is left of a simple shape without another one *)
Definition atom_diff (a b : atom) : list atom :=
  match a, b with
  | P1, Q1 => [P1_less_Q1]
  | P2, Q1 => [P2_less_Q1]
  | P2_less_Q1, Q2 => [P2_rest_a; P2_rest_b]
  | Q1, P1 => [Q1_less_P1]
  | Q1_less_P1, P2 => [Q1_rest_a; Q1_rest_b]
  | Q2, P2 => [Q2_less_P2]
  | _, _ => if atom_beq a b then [] else [a]
  end.

Definition parts (s : shape) : list atom :=
  match s with Simple a => [a] | Multi l => l end.

Definition of_parts (l : list atom) : shape :=
  match l with [a] => Simple a | _ => Multi l end.

Definition shape_type (s : shape) : GeomType :=
  match s with
  | Simple a => atom_type a
  | Multi l =>
      match l with
      | [] => GeometryCollection
      | a :: _ =>
          if forallb (fun b => GeomType_eqb (atom_type b) (atom_type a)) l
          then match atom_type a with
               | Polygon => MultiPolygon
               | LineString => MultiLineString
               | _ => MultiPoint
               end
          else GeometryCollection
      end
  end.

Definition float := option Z.   (* None stands for NaN *)

Definition float_le (a b : float) : bool :=
  match a, b with
  | Some x, Some y => Z.leb x y
  | _, _ => false
  end.

Definition nanmin (l : list Z) : float :=
  match l with [] => None | x :: l' => Some (fold_left Z.min l' x) end.

Definition nanmax (l : list Z) : float :=
  match l with [] => None | x :: l' => Some (fold_left Z.max l' x) end.

(** NaN on all four sides when the column holds no geometry at all *)
Definition shapes_total_bounds (col : list (option shape))
  : float * float * float * float :=
  let boxes :=
    map atom_box
      (flat_map (fun o => match o with Some s => parts s | None => [] end)
                col) in
  (nanmin (map (fun b => fst (fst (fst b))) boxes),
   nanmin (map (fun b => snd (fst (fst b))) boxes),
   nanmax (map (fun b => snd (fst b)) boxes),
   nanmax (map (fun b => snd b) boxes)).

#[export] Instance kernel : Kernel := {|
  geom := shape;
  coord := float;
  crs_t := nat;
  shp_geom_type := shape_type;
  shp_is_valid := fun s => forallb atom_valid (parts s);
  shp_is_empty := fun s => match parts s with [] => true | _ => false end;
  shp_make_valid := fun s =>
    if forallb atom_valid (parts s) then s
    else of_parts (flat_map atom_fix (parts s));
  shp_intersects := fun s t =>
    existsb (fun a =>
      existsb (fun b => match atom_inter a b with [] => false | _ => true end)
              (parts t)) (parts s);
  shp_intersection := fun s t =>
    of_parts (flat_map (fun a => flat_map (atom_inter a) (parts t)) (parts s));
  shp_difference := fun s t =>
    of_parts (fold_left (fun acc b => flat_map (fun a => atom_diff a b) acc)
                (parts t) (parts s));
  shp_get_parts := fun s => map Simple (parts s);
  shp_union_all := fun l => of_parts (flat_map parts l);
  shp_total_bounds := shapes_total_bounds;
  coord_le := float_le;
  _check_crs := fun a b =>
    match a, b with
    | Some x, Some y => Nat.eqb x y
    | None, None => true
    | _, _ => false
    end
|}.

Definition poly (a : atom) : cell := Geo (Simple a).
Definition multi (l : list atom) : cell := Geo (Multi l).

(** The two frames of the docstring of [overlay]. *)
Definition df1 : GeoDataFrame :=
  mkGeoDataFrame
    (mkDataFrame [0; 1]%Z
       [("geometry", [poly P1; poly P2]); ("df1_data", [Num 1; Num 2])])
    "geometry" None.

Definition df2 : GeoDataFrame :=
  mkGeoDataFrame
    (mkDataFrame [0; 1]%Z
       [("geometry", [poly Q1; poly Q2]); ("df2_data", [Num 1; Num 2])])
    "geometry" None.

(** A frame with one geometry and one attribute column. *)
Definition one_row (geometry_name : string) (a : atom) (attribute : string)
  : GeoDataFrame :=
  mkGeoDataFrame
    (mkDataFrame [0%Z] [(geometry_name, [poly a]); (attribute, [Num 7])])
    geometry_name None.

(** A frame without rows. *)
Definition no_rows : GeoDataFrame :=
  mkGeoDataFrame (mkDataFrame [] [("geometry", []); ("a", [])])
    "geometry" None.

(** A frame holding a polygon and a point. *)
Definition mixed_rows : GeoDataFrame :=
  mkGeoDataFrame
    (mkDataFrame [0; 1]%Z
       [("geometry", [poly P1; poly Dot]); ("a", [Num 1; Num 2])])
    "geometry" None.

(** A one-row frame holding a collection of two squares and a point. *)
Definition collection_row : GeoDataFrame :=
  mkGeoDataFrame
    (mkDataFrame [0%Z] [("geometry", [multi [P1Q1; Far; Dot]])])
    "geometry" None.


End Toy.

(** * Properties *)

(** ** The effect monad *)

Lemma bind_inr {A B} (m : M A) (f : A -> M B) l b :
  bind m f = (l, inr b) ->
  exists l1 a l2, m = (l1, inr a) /\ f a = (l2, inr b) /\ l = l1 ++ l2.
Proof.
  unfold bind. destruct m as [l1 [e | a]]; [discriminate |].
  destruct (f a) as [l2 r] eqn:E. intros H. inversion H; subst.
  exists l1, a, l2. auto.
Qed.

Lemma bind_ok {A B} (m : M A) (f : A -> M B) l1 a :
  m = (l1, inr a) -> bind m f = (l1 ++ fst (f a), snd (f a)).
Proof. intros ->. unfold bind. destruct (f a); reflexivity. Qed.

Lemma bind_ret {A B} (a : A) (f : A -> M B) : bind (ret a) f = f a.
Proof. unfold bind, ret. destruct (f a); reflexivity. Qed.

Lemma bind_nil_inr {A B} (a : A) (f : A -> M B) : bind ([], inr a) f = f a.
Proof. exact (bind_ret a f). Qed.

Lemma bind_err {A B} (m : M A) (f : A -> M B) l e :
  m = (l, inl e) -> bind m f = (l, inl e).
Proof. intros ->. reflexivity. Qed.

Lemma bind_raise {A B} e (f : A -> M B) : bind (raise e) f = raise e.
Proof. reflexivity. Qed.

(** Whether a run returns, and what it returns. *)
Definition returns {A} (m : M A) : bool :=
  match snd m with inr _ => true | inl _ => false end.

Definition value {A} (d : A) (m : M A) : A :=
  match snd m with inr a => a | inl _ => d end.

Lemma run_eq {A} (m : M A) (d : A) l :
  returns m = true -> fst m = l -> m = (l, inr (value d m)).
Proof.
  destruct m as [l' [e | a]]; unfold returns, value; simpl.
  - discriminate.
  - intros _ ->. reflexivity.
Qed.

(** ** Lists, masks and positions *)

Lemma select_length_le {A} (mask : list bool) (l : list A) :
  length (select mask l) <= length l.
Proof.
  revert l. induction mask as [| b mask IH]; intros [| x l]; simpl; try lia.
  destruct b; simpl; specialize (IH l); lia.
Qed.

Lemma select_app {A} (m1 m2 : list bool) (l1 l2 : list A) :
  length m1 = length l1 ->
  select (m1 ++ m2) (l1 ++ l2) = select m1 l1 ++ select m2 l2.
Proof.
  revert l1. induction m1 as [| b m1 IH]; intros [| x l1] H;
    simpl in *; try discriminate; auto.
  destruct b; simpl; rewrite IH by lia; reflexivity.
Qed.

Lemma select_map {A B} (f : A -> B) (mask : list bool) (l : list A) :
  select mask (map f l) = map f (select mask l).
Proof.
  revert l. induction mask as [| b mask IH]; intros [| x l]; simpl; auto.
  destruct b; simpl; rewrite IH; reflexivity.
Qed.

Lemma select_length_count (mask : list bool) {A} (l : list A) :
  length mask = length l -> length (select mask l) = count_true mask.
Proof.
  unfold count_true. revert l.
  induction mask as [| b mask IH]; intros [| x l] H; simpl in *;
    try discriminate; auto.
  destruct b; simpl; rewrite IH by lia; reflexivity.
Qed.

Section Positions.
Context {A : Type} (P : A -> bool) (d : A).

(** The values found at the positions of the elements that satisfy a test
    are the elements that satisfy it. *)
Lemma nth_filter_positions (pre l : list A) :
  map (fun i => nth i (pre ++ l) d)
      (map fst (filter (fun t => P (snd t))
                  (combine (seq (length pre) (length l)) l)))
  = filter P l.
Proof.
  revert pre. induction l as [| x l IH]; intros pre; simpl; auto.
  specialize (IH (pre ++ [x])).
  rewrite <- app_assoc, length_app in IH. simpl in IH.
  replace (length pre + 1) with (S (length pre)) in IH by lia.
  destruct (P x); simpl.
  - rewrite IH. f_equal. rewrite app_nth2 by lia.
    rewrite Nat.sub_diag. reflexivity.
  - exact IH.
Qed.

End Positions.

(** ** Grouping the index pairs by row (lines 87-92)

    The index pairs arrive as blocks, one block per row of the first frame, a
    block being empty for a row that meets nothing.  [np.unique] recovers the
    rows with a block and where each block starts, [np.split] cuts the second
    array there, and the comprehension hands each row its block. *)

Definition nonempty {A} (l : list A) : bool :=
  match l with [] => false | _ => true end.

Definition blocks (k : nat) (nss : list (list nat)) : list nat :=
  flat_map (fun p => repeat (fst p) (length (snd p)))
           (combine (seq k (length nss)) nss).

Definition block_keys (k : nat) (nss : list (list nat)) : list nat :=
  map fst (filter (fun p => nonempty (snd p)) (combine (seq k (length nss)) nss)).

Fixpoint offsets_from (p : nat) (nss : list (list nat)) : list nat :=
  match nss with
  | [] => []
  | [] :: r => offsets_from p r
  | ns :: r => p :: offsets_from (p + length ns) r
  end.

Lemma blocks_cons k ns nss :
  blocks k (ns :: nss) = repeat k (length ns) ++ blocks (S k) nss.
Proof. reflexivity. Qed.

Lemma block_keys_cons k ns nss :
  block_keys k (ns :: nss) =
  if nonempty ns then k :: block_keys (S k) nss else block_keys (S k) nss.
Proof. unfold block_keys. simpl. destruct (nonempty ns); reflexivity. Qed.

Lemma blocks_ge k nss : Forall (fun x => k <= x) (blocks k nss).
Proof.
  revert k. induction nss as [| ns nss IH]; intros k.
  - constructor.
  - rewrite blocks_cons. apply Forall_app. split.
    + apply Forall_forall. intros x Hx. apply repeat_spec in Hx. lia.
    + eapply Forall_impl; [| apply (IH (S k))]. simpl. intros; lia.
Qed.

Lemma insert_unique_In x y l : In y (insert_unique x l) -> y = x \/ In y l.
Proof.
  induction l as [| z l IH]; simpl.
  - intros [H | []]; auto.
  - destruct (x <? z); [simpl; intuition |].
    destruct (x =? z); [simpl; intuition |].
    simpl. intros [H | H]; auto. destruct (IH H); auto.
Qed.

Lemma unique_In y l : In y (fold_right insert_unique [] l) -> In y l.
Proof.
  induction l as [| x l IH]; simpl; auto.
  intros H. apply insert_unique_In in H. destruct H; auto.
Qed.

Lemma unique_block k m rest :
  Forall (fun x => k < x) rest ->
  fold_right insert_unique [] (repeat k (S m) ++ rest) =
  k :: fold_right insert_unique [] rest.
Proof.
  intros Hrest. induction m as [| m IH].
  - simpl. destruct (fold_right insert_unique [] rest) as [| y u] eqn:E; auto.
    assert (Hy : k < y).
    { rewrite Forall_forall in Hrest. apply Hrest, unique_In.
      rewrite E. left; reflexivity. }
    simpl. apply Nat.ltb_lt in Hy. rewrite Hy. reflexivity.
  - change (repeat k (S (S m)) ++ rest) with (k :: (repeat k (S m) ++ rest)).
    cbn [fold_right]. rewrite IH. simpl.
    rewrite Nat.ltb_irrefl, Nat.eqb_refl. reflexivity.
Qed.

Lemma first_index_skip v k n rest :
  v <> k -> first_index v (repeat k n ++ rest) = n + first_index v rest.
Proof.
  intros H. induction n as [| n IH]; simpl; auto.
  destruct (Nat.eqb_spec v k); [contradiction | rewrite IH; reflexivity].
Qed.

Lemma offsets_shift p q nss :
  offsets_from (p + q) nss = map (Nat.add p) (offsets_from q nss).
Proof.
  revert q. induction nss as [| [| n ns] r IH]; intros q; simpl; auto.
  f_equal. rewrite <- IH. f_equal. lia.
Qed.

Lemma np_unique_blocks k nss :
  np_unique (blocks k nss) = (block_keys k nss, offsets_from 0 nss).
Proof.
  revert k. induction nss as [| ns nss IH]; intros k; [reflexivity |].
  rewrite blocks_cons, block_keys_cons. destruct ns as [| n ns].
  - simpl. apply IH.
  - specialize (IH (S k)). unfold np_unique in *.
    assert (Hrest : Forall (fun x => k < x) (blocks (S k) nss)).
    { eapply Forall_impl; [| apply blocks_ge]. simpl. intros; lia. }
    change (length (n :: ns)) with (S (length ns)).
    rewrite unique_block by exact Hrest.
    injection IH as IH1 IH2. rewrite IH1. simpl nonempty. cbv iota.
    f_equal. cbn [map offsets_from]. f_equal.
    + simpl. rewrite Nat.eqb_refl. reflexivity.
    + replace (0 + length (n :: ns)) with (S (length ns) + 0) by (simpl; lia).
      rewrite offsets_shift, <- IH2, IH1, map_map.
      apply map_ext_in. intros v Hv.
      apply first_index_skip.
      rewrite <- IH1 in Hv.
      apply unique_In in Hv. rewrite Forall_forall in Hrest.
      specialize (Hrest v Hv). lia.
Qed.

Lemma split_groups nss pre g :
  np_split_from (length pre) (offsets_from (length (pre ++ g)) nss)
                (pre ++ g ++ List.concat nss)
  = g :: filter nonempty nss.
Proof.
  revert pre g. induction nss as [| [| n ns] r IH]; intros pre g.
  - simpl. rewrite skipn_app, skipn_all, Nat.sub_diag, app_nil_r. reflexivity.
  - simpl. apply IH.
  - cbn [offsets_from List.concat filter nonempty np_split_from].
    rewrite skipn_app, skipn_all, Nat.sub_diag. simpl skipn.
    rewrite length_app.
    replace (length pre + length g - length pre) with (length g) by lia.
    f_equal.
    + simpl app at 1. rewrite firstn_app, firstn_all, Nat.sub_diag.
      simpl. apply app_nil_r.
    + specialize (IH (pre ++ g) (n :: ns)).
      rewrite !length_app in IH. rewrite <- app_assoc in IH. exact IH.
Qed.

Lemma np_split_blocks nss :
  exists junk,
    np_split (List.concat nss) (tl (offsets_from 0 nss)) =
    filter nonempty nss ++ junk.
Proof.
  induction nss as [| [| n ns] r IH].
  - exists [[]]. reflexivity.
  - exact IH.
  - exists []. rewrite app_nil_r.
    cbn [offsets_from tl List.concat]. unfold np_split.
    exact (split_groups r [] (n :: ns)).
Qed.

Lemma block_keys_ge k nss : Forall (fun x => k <= x) (block_keys k nss).
Proof.
  revert k. induction nss as [| ns nss IH]; intros k; [constructor |].
  rewrite block_keys_cons.
  assert (H : Forall (fun x => k <= x) (block_keys (S k) nss)).
  { eapply Forall_impl; [| apply (IH (S k))]. simpl. intros; lia. }
  destruct (nonempty ns); auto.
Qed.

Lemma sidx_comprehension_blocks nss : forall k uniq junk,
  (forall j, j < length nss ->
     existsb (Nat.eqb (k + j)) uniq = nonempty (nth j nss [])) ->
  sidx_comprehension (seq k (length nss)) uniq (filter nonempty nss ++ junk)
  = ret nss.
Proof.
  induction nss as [| ns nss IH]; intros k uniq junk H; [reflexivity |].
  pose proof (H 0 ltac:(simpl; lia)) as H0.
  rewrite Nat.add_0_r in H0. simpl in H0.
  assert (H' : forall j, j < length nss ->
            existsb (Nat.eqb (S k + j)) uniq = nonempty (nth j nss [])).
  { intros j Hj. specialize (H (S j) ltac:(simpl; lia)).
    simpl in H. rewrite <- H. f_equal. f_equal. lia. }
  cbn [length seq sidx_comprehension]. rewrite H0.
  destruct ns as [| n ns]; cbn [nonempty filter app].
  - rewrite (IH _ _ _ H'). reflexivity.
  - rewrite (IH _ _ _ H'). reflexivity.
Qed.

Lemma block_keys_mem nss : forall k j,
  j < length nss ->
  existsb (Nat.eqb (k + j)) (block_keys k nss) = nonempty (nth j nss []).
Proof.
  induction nss as [| ns nss IH]; intros k j Hj; [simpl in Hj; lia |].
  rewrite block_keys_cons.
  assert (Hk : existsb (Nat.eqb k) (block_keys (S k) nss) = false).
  { apply not_true_is_false. intros Hc. apply existsb_exists in Hc.
    destruct Hc as [x [Hx Heq]]. apply Nat.eqb_eq in Heq. subst x.
    pose proof (block_keys_ge (S k) nss) as Hge.
    rewrite Forall_forall in Hge. specialize (Hge _ Hx). lia. }
  destruct j as [| j]; simpl nth.
  - rewrite Nat.add_0_r. destruct (nonempty ns); simpl; auto.
    rewrite Nat.eqb_refl. reflexivity.
  - simpl in Hj. specialize (IH (S k) j ltac:(lia)).
    replace (k + S j) with (S k + j) by lia.
    destruct (nonempty ns); cbn [existsb]; auto.
    destruct (Nat.eqb_spec (S k + j) k); [lia | exact IH].
Qed.

(** The pipeline of lines 87-92 returns the blocks it was built from. *)
Lemma sidx_of_blocks nss :
  sidx_comprehension (range (length nss))
    (fst (np_unique (blocks 0 nss)))
    (np_split (List.concat nss) (tl (snd (np_unique (blocks 0 nss)))))
  = ret nss.
Proof.
  rewrite np_unique_blocks. simpl fst. simpl snd.
  destruct (np_split_blocks nss) as [junk ->].
  apply sidx_comprehension_blocks.
  intros j Hj. apply (block_keys_mem nss 0 j Hj).
Qed.

(** ** The pairwise difference builder (section 4.2) *)

Section Difference.
Context {K : Kernel}.

(** The positions, in ascending order, of the geometries of [g2] that
    intersect a geometry of the first frame. *)
Definition neighbour_positions (a : cell) (g2 : list cell) : list nat :=
  map fst (filter (fun t => cell_intersects a (snd t)) (enumerate g2)).

(** The claim in the spec's words: the geometries of B that intersect the
    row, in B's row order, are subtracted one after the other from the
    row's geometry. *)
Definition cell_difference (x y : cell) : cell :=
  match x, y with
  | Geo a, Geo b => Geo (shp_difference a b)
  | _, _ => x
  end.

Definition folded_difference (a : cell) (g2 : list cell) : cell :=
  fold_left cell_difference (filter (cell_intersects a) g2) a.

(** Validity repair of a polygon-family result (lines 101-102). *)
Definition repair (c : cell) : cell :=
  if isin POLYGON_GEOM_TYPES (cell_geom_type c) then cell_make_valid c else c.

Lemma query_pairs_fst_from (g2 : list cell) (g1 : list cell) k :
  map fst
    (flat_map (fun q =>
       map (fun t => (fst q, fst t))
           (filter (fun t => cell_intersects (snd q) (snd t)) (enumerate g2)))
       (combine (seq k (length g1)) g1))
  = blocks k (map (fun a => neighbour_positions a g2) g1).
Proof.
  revert k. induction g1 as [| a g1 IH]; intros k; [reflexivity |].
  cbn [length seq combine flat_map map]. rewrite map_app, blocks_cons.
  rewrite <- IH. f_equal.
  unfold neighbour_positions. simpl fst. simpl snd.
  rewrite length_map.
  induction (filter (fun t => cell_intersects a (snd t)) (enumerate g2))
    as [| t l IHl]; simpl; [reflexivity | rewrite IHl; reflexivity].
Qed.

Lemma query_pairs_snd_from (g2 : list cell) (g1 : list cell) k :
  map snd
    (flat_map (fun q =>
       map (fun t => (fst q, fst t))
           (filter (fun t => cell_intersects (snd q) (snd t)) (enumerate g2)))
       (combine (seq k (length g1)) g1))
  = List.concat (map (fun a => neighbour_positions a g2) g1).
Proof.
  revert k. induction g1 as [| a g1 IH]; intros k; [reflexivity |].
  cbn [length seq combine flat_map map List.concat]. rewrite map_app, IH.
  f_equal. unfold neighbour_positions. rewrite map_map. reflexivity.
Qed.

Lemma take_neighbours a g2 :
  take (neighbour_positions a g2) g2 = filter (cell_intersects a) g2.
Proof.
  unfold take, neighbour_positions, enumerate, range.
  exact (nth_filter_positions (cell_intersects a) NA [] g2).
Qed.

Lemma reduce_geo x ys :
  Forall (fun y => exists b, y = Geo b) ys ->
  reduce difference_method (Geo x) ys =
  ret (fold_left cell_difference ys (Geo x)).
Proof.
  revert x. induction ys as [| y ys IH]; intros x H; [reflexivity |].
  inversion H as [| ? ? [b ->] Hys]; subst.
  cbn [reduce difference_method fold_left cell_difference].
  rewrite bind_ret. apply IH, Hys.
Qed.

Lemma reduce_neighbours a g2 :
  reduce difference_method a (take (neighbour_positions a g2) g2) =
  ret (folded_difference a g2).
Proof.
  rewrite take_neighbours. unfold folded_difference.
  destruct (filter (cell_intersects a) g2) as [| y ys] eqn:E; [reflexivity |].
  assert (Hall : Forall (fun y => cell_intersects a y = true) (y :: ys)).
  { rewrite <- E. apply Forall_forall. intros z Hz.
    apply filter_In in Hz. tauto. }
  destruct a as [| z | x];
    try (inversion Hall as [| ? ? Hy _]; simpl in Hy; discriminate).
  apply reduce_geo. eapply Forall_impl; [| exact Hall].
  intros [| z | b] Hb; simpl in Hb; try discriminate. eauto.
Qed.

Lemma differences_loop_spec g1 g2 :
  differences_loop
    (combine g1 (map (fun a => neighbour_positions a g2) g1)) g2
  = ret (map (fun a => folded_difference a g2) g1).
Proof.
  induction g1 as [| a g1 IH]; [reflexivity |].
  cbn [map combine differences_loop].
  rewrite reduce_neighbours, bind_ret, IH, bind_ret. reflexivity.
Qed.

(** What the builder returns, in closed form. *)
Definition difference_result (df1 : GeoDataFrame) (g1 g2 : list cell)
  : GeoDataFrame :=
  let final := map (fun a => repair (folded_difference a g2)) g1 in
  let keep := map (fun c => negb (cell_is_empty c)) final in
  with_frame df1
    (setitem (_geometry_column_name df1) (select keep final)
       (loc_mask keep (frame df1))).

Lemma _overlay_difference_eq df1 df2 g1 g2 :
  geometry df1 = ret g1 ->
  geometry df2 = ret g2 ->
  _overlay_difference df1 df2 =
  ([Sindex_query], inr (difference_result df1 g1 g2)).
Proof.
  intros H1 H2. unfold _overlay_difference.
  rewrite H2, bind_ret, H1, bind_ret.
  unfold sindex_query, query_pairs.
  set (nss := map (fun a => neighbour_positions a g2) g1).
  assert (Hf : map fst
                 (flat_map (fun q =>
                    map (fun t => (fst q, fst t))
                      (filter (fun t => cell_intersects (snd q) (snd t))
                         (enumerate g2))) (enumerate g1)) = blocks 0 nss)
    by apply query_pairs_fst_from.
  assert (Hs : map snd
                 (flat_map (fun q =>
                    map (fun t => (fst q, fst t))
                      (filter (fun t => cell_intersects (snd q) (snd t))
                         (enumerate g2))) (enumerate g1)) = List.concat nss)
    by apply query_pairs_snd_from.
  rewrite Hf, Hs. unfold emit. cbn [bind ret fst snd app].
  replace (length g1) with (length nss) by (unfold nss; apply length_map).
  rewrite sidx_of_blocks. cbn [ret bind].
  unfold nss. rewrite differences_loop_spec. cbn [ret bind app].
  unfold difference_result, repair_polygons, repair.
  rewrite !map_map. reflexivity.
Qed.

End Difference.

(** ** Columns of a frame *)

Section Frames.
Context {K : Kernel}.

Lemma mem_In x l : mem x l = true <-> In x l.
Proof.
  unfold mem. rewrite existsb_exists. split.
  - intros [y [Hy He]]. apply String.eqb_eq in He. subst. exact Hy.
  - intros H. exists x. split; [exact H | apply String.eqb_refl].
Qed.

Lemma mem_false x l : mem x l = false <-> ~ In x l.
Proof.
  rewrite <- mem_In. destruct (mem x l); split; intros; congruence.
Qed.

Lemma mem_app x l1 l2 : mem x (l1 ++ l2) = mem x l1 || mem x l2.
Proof. unfold mem. apply existsb_app. Qed.

Lemma lookup_col_mem n (cs : list column) :
  mem n (map fst cs) = match lookup_col n cs with Some _ => true | None => false end.
Proof.
  induction cs as [| [m v] cs IH]; simpl; auto.
  destruct (String.eqb n m); simpl; auto.
Qed.

Lemma lookup_col_Some_mem n (cs : list column) v :
  lookup_col n cs = Some v -> mem n (map fst cs) = true.
Proof. intros H. rewrite lookup_col_mem, H. reflexivity. Qed.

Lemma set_col_names n v (cs : list column) :
  map fst (set_col n v cs) =
  if mem n (map fst cs) then map fst cs else map fst cs ++ [n].
Proof.
  induction cs as [| [m w] cs IH]; simpl; auto.
  destruct (String.eqb n m); simpl; auto.
  rewrite IH. destruct (mem n (map fst cs)); reflexivity.
Qed.

Lemma lookup_set_col_same n v (cs : list column) :
  lookup_col n (set_col n v cs) = Some v.
Proof.
  induction cs as [| [m w] cs IH]; simpl.
  - rewrite String.eqb_refl. reflexivity.
  - destruct (String.eqb n m) eqn:E; simpl; rewrite E; auto.
Qed.

Lemma lookup_set_col_other n m v (cs : list column) :
  n <> m -> lookup_col m (set_col n v cs) = lookup_col m cs.
Proof.
  intros Hne. induction cs as [| [k w] cs IH]; simpl.
  - destruct (String.eqb_spec m n); [congruence | reflexivity].
  - destruct (String.eqb_spec n k); simpl.
    + subst k. destruct (String.eqb_spec m n); [congruence | reflexivity].
    + rewrite IH. reflexivity.
Qed.

Lemma lookup_map_cols f n (cs : list column) :
  lookup_col n (map_cols f cs) = option_map f (lookup_col n cs).
Proof.
  induction cs as [| [m w] cs IH]; simpl; auto.
  destruct (String.eqb n m); simpl; auto.
Qed.

Lemma names_map_cols f (cs : list column) :
  map fst (map_cols f cs) = map fst cs.
Proof. unfold map_cols. rewrite map_map. reflexivity. Qed.

Lemma names_filter (f : string -> bool) (cs : list column) :
  map fst (filter (fun c => f (fst c)) cs) = filter f (map fst cs).
Proof.
  induction cs as [| [m w] cs IH]; simpl; auto.
  destruct (f m); simpl; rewrite IH; reflexivity.
Qed.

(** Accessors emit nothing. *)
Lemma geometry_inv g l r :
  geometry g = (l, r) ->
  l = [] /\
  match r with
  | inr v => lookup_col (_geometry_column_name g) (cols (frame g)) = Some v
  | inl e => e = AttributeError "geometry" /\
             lookup_col (_geometry_column_name g) (cols (frame g)) = None
  end.
Proof.
  unfold geometry.
  destruct (lookup_col _ _); intros H; inversion H; auto.
Qed.

Lemma geometry_ok g l v :
  geometry g = (l, inr v) -> geometry g = ret v.
Proof. intros H. destruct (geometry_inv _ _ _ H) as [-> _]. exact H. Qed.

Lemma geometry_ret_lookup g v :
  geometry g = ret v <->
  lookup_col (_geometry_column_name g) (cols (frame g)) = Some v.
Proof.
  unfold geometry, ret.
  destruct (lookup_col _ _); split; intros H; inversion H; auto; discriminate.
Qed.

Lemma geometry_ret_mem g v :
  geometry g = ret v -> mem (_geometry_column_name g) (gcolumns g) = true.
Proof.
  intros H. apply geometry_ret_lookup in H.
  exact (lookup_col_Some_mem _ _ _ H).
Qed.

Lemma geom_type_ret g v :
  geometry g = ret v -> geom_type g = ret (series_geom_type v).
Proof. intros H. unfold geom_type. rewrite H. reflexivity. Qed.

(** Replacing the values of the geometry column *)
Lemma geometry_gsetitem g v :
  geometry (gsetitem (_geometry_column_name g) v g) = ret v.
Proof. apply geometry_ret_lookup. simpl. apply lookup_set_col_same. Qed.

Lemma gcolumns_gsetitem_geometry g v w :
  geometry g = ret w ->
  gcolumns (gsetitem (_geometry_column_name g) v g) = gcolumns g.
Proof.
  intros H. apply geometry_ret_mem in H.
  unfold gcolumns, gsetitem, columns in *. simpl.
  rewrite set_col_names, H. reflexivity.
Qed.

Lemma geometry_loc_mask g mask v :
  geometry g = ret v ->
  geometry (with_frame g (loc_mask mask (frame g))) = ret (select mask v).
Proof.
  intros H. apply geometry_ret_lookup in H. apply geometry_ret_lookup.
  simpl. rewrite lookup_map_cols, H. reflexivity.
Qed.

Lemma columns_loc_mask mask d : columns (loc_mask mask d) = columns d.
Proof. unfold columns. simpl. apply names_map_cols. Qed.

Lemma drop_inv labels d l r :
  drop labels d = (l, r) ->
  l = [] /\
  match r with
  | inr d' =>
      index d' = index d /\
      cols d' = filter (fun c => negb (mem (fst c) labels)) (cols d) /\
      forallb (fun x => mem x (columns d)) labels = true
  | inl e => forallb (fun x => mem x (columns d)) labels = false
  end.
Proof.
  unfold drop. destruct (forallb _ labels); intros H; inversion H; auto.
Qed.

Lemma drop_columns labels d l d' :
  drop labels d = (l, inr d') ->
  columns d' = filter (fun n => negb (mem n labels)) (columns d).
Proof.
  intros H. apply drop_inv in H. destruct H as [_ [_ [Hc _]]].
  unfold columns. rewrite Hc.
  apply (names_filter (fun n => negb (mem n labels))).
Qed.

End Frames.

(** ** The geometry-type filter (section 4.6) *)

Section Extract.
Context {K : Kernel}.

(** The family a geometry type name selects (lines 366-373). *)
Definition family_of (t : option GeomType) : option (list GeomType) :=
  if isin POLYGON_GEOM_TYPES t then Some POLYGON_GEOM_TYPES
  else if isin LINE_GEOM_TYPES t then Some LINE_GEOM_TYPES
  else if isin POINT_GEOM_TYPES t then Some POINT_GEOM_TYPES
  else None.

Definition is_collection_mask (g : list cell) : list bool :=
  map (isin [GeometryCollection]) (series_geom_type g).

(** the exploded parts, those outside the family set to missing *)
Definition filtered_parts (fam : list GeomType) (g : list cell)
  : list (nat * cell) :=
  map (fun p => if isin fam (cell_geom_type (snd p)) then p else (fst p, NA))
      (explode (select (is_collection_mask g) g)).

(** the geometry column after the collection step *)
Definition extracted_geometry (fam : list GeomType) (g : list cell)
  : list cell :=
  if any (is_collection_mask g)
  then loc_assign (is_collection_mask g)
         (dissolve (length (select (is_collection_mask g) g))
            (filtered_parts fam g)) g
  else g.

(** the value the code computes under the name [num_dropped_collection] *)
Definition num_dropped_collection (fam : list GeomType) (g : list cell)
  : nat :=
  if any (is_collection_mask g)
  then length (explode (select (is_collection_mask g) g))
       - count_true (map (fun p => isnull (snd p)) (filtered_parts fam g))
  else 0.

(** the mask of the plain family-membership filter *)
Definition family_mask (fam : list GeomType) (g : list cell) : list bool :=
  map (isin fam) (series_geom_type (extracted_geometry fam g)).

Definition extract_frame (df : GeoDataFrame) (fam : list GeomType)
    (g : list cell) : GeoDataFrame :=
  let result :=
    if any (is_collection_mask g)
    then gsetitem (_geometry_column_name df) (extracted_geometry fam g) df
    else df in
  with_frame result (loc_mask (family_mask fam g) (frame result)).

(** the value the code computes under the name [num_dropped] *)
Definition num_dropped (df : GeoDataFrame) (fam : list GeomType)
    (g : list cell) : nat :=
  gnrows df - gnrows (extract_frame df fam g).

Definition extract_log (df : GeoDataFrame) (fam : list GeomType)
    (g : list cell) (keep_geom_type_warning : bool) : list event :=
  if ((0 <? num_dropped df fam g) || (0 <? num_dropped_collection fam g))
     && keep_geom_type_warning
  then [Warn_dropped_geometries
          (num_dropped df fam g + num_dropped_collection fam g)]
  else [].

Lemma _collection_extract_eq df t w fam g :
  geometry df = ret g ->
  family_of t = Some fam ->
  _collection_extract df t w =
  (extract_log df fam g w, inr (extract_frame df fam g)).
Proof.
  intros Hg Hf. unfold _collection_extract.
  assert (Hchain :
    (if isin POLYGON_GEOM_TYPES t then ret POLYGON_GEOM_TYPES
     else if isin LINE_GEOM_TYPES t then ret LINE_GEOM_TYPES
     else if isin POINT_GEOM_TYPES t then ret POINT_GEOM_TYPES
     else raise TypeError_geom_type) = ret fam).
  { unfold family_of in Hf.
    destruct (isin POLYGON_GEOM_TYPES t); [congruence |].
    destruct (isin LINE_GEOM_TYPES t); [congruence |].
    destruct (isin POINT_GEOM_TYPES t); [congruence | discriminate]. }
  rewrite Hchain, bind_ret, (geom_type_ret _ _ Hg), bind_ret.
  unfold extract_log, num_dropped, extract_frame, num_dropped_collection,
    family_mask, extracted_geometry, filtered_parts.
  fold (is_collection_mask g).
  destruct (any (is_collection_mask g)) eqn:Hany.
  - rewrite Hg, !bind_ret. cbn [fst snd].
    rewrite (geom_type_ret _ _ (geometry_gsetitem df _)), bind_ret.
    unfold gnrows, gsetitem, with_frame, nrows, setitem, when, emit. simpl.
    match goal with |- context [if ?c then _ else _] => destruct c end;
      reflexivity.
  - rewrite !bind_ret. cbn [fst snd].
    rewrite (geom_type_ret _ _ Hg), bind_ret.
    unfold gnrows, with_frame, nrows, when, emit. simpl.
    match goal with |- context [if ?c then _ else _] => destruct c end;
      reflexivity.
Qed.

Lemma _collection_extract_type_error df t w :
  family_of t = None ->
  _collection_extract df t w = raise TypeError_geom_type.
Proof.
  intros Hf. unfold _collection_extract, family_of in *.
  destruct (isin POLYGON_GEOM_TYPES t); [discriminate |].
  destruct (isin LINE_GEOM_TYPES t); [discriminate |].
  destruct (isin POINT_GEOM_TYPES t); [discriminate | reflexivity].
Qed.

(** A successful call has found the family and the geometry column. *)
Lemma _collection_extract_inr df t w l r :
  _collection_extract df t w = (l, inr r) ->
  exists fam g,
    geometry df = ret g /\ family_of t = Some fam /\
    l = extract_log df fam g w /\ r = extract_frame df fam g.
Proof.
  intros H.
  destruct (family_of t) as [fam |] eqn:Hf.
  - destruct (geometry df) as [lg [e | g]] eqn:Hg.
    + exfalso. revert H. unfold _collection_extract, family_of in *.
      destruct (isin POLYGON_GEOM_TYPES t);
        [| destruct (isin LINE_GEOM_TYPES t);
           [| destruct (isin POINT_GEOM_TYPES t); [| discriminate]]];
        rewrite bind_ret; unfold geom_type; rewrite Hg;
        simpl; discriminate.
    + destruct (geometry_inv _ _ _ Hg) as [-> _].
      rewrite (_collection_extract_eq _ _ w _ _ Hg Hf) in H.
      inversion H; subst. exists fam, g. repeat split; auto.
  - rewrite _collection_extract_type_error in H by exact Hf. discriminate.
Qed.

Lemma extract_frame_columns df fam g :
  geometry df = ret g ->
  gcolumns (extract_frame df fam g) = gcolumns df /\
  _geometry_column_name (extract_frame df fam g) = _geometry_column_name df /\
  crs (extract_frame df fam g) = crs df.
Proof.
  intros Hg. unfold extract_frame.
  destruct (any (is_collection_mask g)); simpl; repeat split.
  - unfold gcolumns. simpl. rewrite columns_loc_mask.
    exact (gcolumns_gsetitem_geometry df _ _ Hg).
  - unfold gcolumns. simpl. apply columns_loc_mask.
Qed.

Lemma extract_frame_geometry df fam g :
  geometry df = ret g ->
  geometry (extract_frame df fam g) =
  ret (select (family_mask fam g) (extracted_geometry fam g)).
Proof.
  intros Hg. unfold extract_frame.
  destruct (any (is_collection_mask g)) eqn:Hany.
  - apply (geometry_loc_mask (gsetitem (_geometry_column_name df) _ df)).
    apply geometry_gsetitem.
  - replace (extracted_geometry fam g) with g
      by (unfold extracted_geometry; rewrite Hany; reflexivity).
    apply geometry_loc_mask, Hg.
Qed.

End Extract.

(** ** Labels after a merge *)

Ltac bind_inv H :=
  let l1 := fresh "l" in
  let a := fresh "a" in
  let l2 := fresh "l" in
  let H1 := fresh H in
  let E := fresh "E" in
  apply bind_inr in H; destruct H as (l1 & a & l2 & H1 & H & E).

Tactic Notation "mstep" hyp(H) "as" ident(l1) ident(a) ident(Ha) :=
  let l2 := fresh "rest" in
  let E := fresh "Elog" in
  apply bind_inr in H; destruct H as (l1 & a & l2 & Ha & H & E).

Lemma append_1_not_geometry n : String.append n "_1" <> "geometry".
Proof.
  intros H.
  repeat (destruct n as [| ? n]; simpl in H; try discriminate;
          injection H as _ H).
Qed.

Lemma append_2_not_geometry n : String.append n "_2" <> "geometry".
Proof.
  intros H.
  repeat (destruct n as [| ? n]; simpl in H; try discriminate;
          injection H as _ H).
Qed.

Lemma append_x_not_geometry n : String.append n "_x" <> "geometry".
Proof.
  intros H.
  repeat (destruct n as [| ? n]; simpl in H; try discriminate;
          injection H as _ H).
Qed.

Lemma append_y_not_geometry n : String.append n "_y" <> "geometry".
Proof.
  intros H.
  repeat (destruct n as [| ? n]; simpl in H; try discriminate;
          injection H as _ H).
Qed.

(** The suffixes the module uses never produce the label "geometry". *)
Definition harmless (suffix : string) : Prop :=
  forall n, String.append n suffix <> "geometry".

Lemma add_suffix_geometry tr suffix n :
  harmless suffix ->
  add_suffix tr suffix n = "geometry" -> n = "geometry" /\ mem n tr = false.
Proof.
  unfold add_suffix. intros Hs H. destruct (mem n tr); auto.
  exfalso. exact (Hs n H).
Qed.

Definition suffixed_labels (left right : list string)
    (suffixes : string * string) : list string * list string :=
  let to_rename := filter (fun n => mem n right) left in
  (map (add_suffix to_rename (fst suffixes)) left,
   map (add_suffix to_rename (snd suffixes)) right).

Lemma items_overlap_inv left right sfx l r :
  items_overlap_with_suffix left right sfx = (l, r) ->
  l = [] /\
  match r with
  | inr labels =>
      labels = suffixed_labels left right sfx /\
      new_duplicates (fst labels) left = false /\
      new_duplicates (snd labels) right = false
  | inl e => e = MergeError
  end.
Proof.
  unfold items_overlap_with_suffix, suffixed_labels.
  match goal with |- context [if ?c then _ else _] => destruct c eqn:E end;
    intros H; inversion H; subst; split; auto.
  apply orb_false_iff in E. simpl. tauto.
Qed.

(** A label "geometry" after the merge was a label "geometry" on one side
    only. *)
Lemma suffixed_labels_geometry left right sfx :
  harmless (fst sfx) -> harmless (snd sfx) ->
  In "geometry" (fst (suffixed_labels left right sfx) ++
                 snd (suffixed_labels left right sfx)) ->
  (In "geometry" left /\ ~ In "geometry" right) \/
  (In "geometry" right /\ ~ In "geometry" left).
Proof.
  intros H1 H2 H. unfold suffixed_labels in H. simpl in H.
  apply in_app_or in H. destruct H as [H | H];
    apply in_map_iff in H; destruct H as [n [Hn Hin]];
    apply add_suffix_geometry in Hn; auto; destruct Hn as [-> Hm];
    apply mem_false in Hm; rewrite filter_In in Hm.
  - left. split; auto. intros Hr. apply Hm. split; auto.
    apply mem_In, Hr.
  - right. split; auto. intros Hl. apply Hm. split; auto.
    apply mem_In, Hin.
Qed.

Lemma combine_names {B} (ls : list string) (vs : list B) :
  length ls = length vs -> map fst (combine ls vs) = ls.
Proof.
  revert vs. induction ls as [| n ls IH]; intros [| v vs] H;
    simpl in *; try discriminate; auto.
  rewrite IH by lia. reflexivity.
Qed.

Section Merges.
Context {K : Kernel}.

Lemma assemble_columns_gen idx ll rl left right li ri :
  length ll = length (cols left) ->
  length rl = length (cols right) ->
  columns (assemble idx ll rl left right li ri) = ll ++ rl.
Proof.
  intros Hl Hr. unfold assemble, columns. simpl.
  rewrite map_app, !combine_names; auto; rewrite length_map; auto.
Qed.

Lemma assemble_columns idx left right sfx li ri :
  columns (assemble idx (fst (suffixed_labels (columns left) (columns right) sfx))
             (snd (suffixed_labels (columns left) (columns right) sfx))
             left right li ri)
  = fst (suffixed_labels (columns left) (columns right) sfx) ++
    snd (suffixed_labels (columns left) (columns right) sfx).
Proof.
  apply assemble_columns_gen; unfold suffixed_labels, columns; simpl;
    rewrite !length_map; reflexivity.
Qed.

Lemma getcol_inv n d l r :
  getcol n d = (l, r) ->
  l = [] /\
  match r with
  | inr v => lookup_col n (cols d) = Some v
  | inl e => lookup_col n (cols d) = None
  end.
Proof.
  unfold getcol. destruct (lookup_col n (cols d)); intros H;
    inversion H; auto.
Qed.

Lemma merge_left_on_right_index_columns left right key sfx l d :
  merge_left_on_right_index left right key sfx = (l, inr d) ->
  l = [] /\
  columns d = fst (suffixed_labels (columns left) (columns right) sfx) ++
              snd (suffixed_labels (columns left) (columns right) sfx).
Proof.
  unfold merge_left_on_right_index. intros H.
  bind_inv H. apply getcol_inv in H0. destruct H0 as [-> _].
  bind_inv H. apply items_overlap_inv in H0. destruct H0 as [-> [-> _]].
  inversion H; subst. split; [reflexivity |]. apply assemble_columns.
Qed.

Lemma merge_on_index_columns left right sfx l d :
  merge_on_index left right sfx = (l, inr d) ->
  l = [] /\
  columns d = fst (suffixed_labels (columns left) (columns right) sfx) ++
              snd (suffixed_labels (columns left) (columns right) sfx).
Proof.
  unfold merge_on_index. intros H.
  bind_inv H. apply items_overlap_inv in H0. destruct H0 as [-> [-> _]].
  inversion H; subst. split; [reflexivity |]. apply assemble_columns.
Qed.

Lemma merge_on_index_rows left right sfx l d :
  merge_on_index left right sfx = (l, inr d) ->
  index left = [] -> nrows d = 0.
Proof.
  unfold merge_on_index. intros H Hi.
  bind_inv H. inversion H; subst. unfold nrows, enumerate. simpl.
  rewrite Hi. reflexivity.
Qed.

Lemma setitem_columns_incl n v d x :
  In x (columns (setitem n v d)) -> x = n \/ In x (columns d).
Proof.
  unfold columns, setitem. simpl. rewrite set_col_names.
  destruct (mem n (map fst (cols d))); auto.
  intros H. apply in_app_or in H. destruct H as [H | [H | []]]; auto.
Qed.

Lemma merge_outer_on_columns left right k1 k2 sfx l d x :
  merge_outer_on left right k1 k2 sfx = (l, inr d) ->
  In x (columns d) ->
  x = k1 \/ x = k2 \/
  exists right',
    columns right' = filter (fun n => negb (mem n [k1; k2])) (columns right) /\
    In x (fst (suffixed_labels (columns left) (columns right') sfx) ++
          snd (suffixed_labels (columns left) (columns right') sfx)).
Proof.
  unfold merge_outer_on. intros H Hx.
  do 4 (bind_inv H; match goal with
                    | H' : getcol _ _ = _ |- _ => clear H'
                    end).
  bind_inv H. apply drop_columns in H0.
  bind_inv H. apply items_overlap_inv in H1. destruct H1 as [_ [-> _]].
  cbv zeta in H. inversion H; subst; clear H.
  apply setitem_columns_incl in Hx. destruct Hx as [Hx | Hx]; auto.
  apply setitem_columns_incl in Hx. destruct Hx as [Hx | Hx]; auto.
  right; right. exists a3. split; [exact H0 |].
  rewrite assemble_columns_gen in Hx
    by (unfold columns; rewrite !length_map; reflexivity).
  exact Hx.
Qed.

End Merges.

(** ** Labels of the frames the builders return *)

Definition ends_with_geometry (names : list string) : Prop :=
  exists pre, names = pre ++ ["geometry"].


Section Builders.
Context {K : Kernel}.
Variable PANDAS_GE_30 : bool.

Lemma has_geometry_iff g :
  (exists v, geometry g = ret v) <->
  mem (_geometry_column_name g) (gcolumns g) = true.
Proof.
  unfold gcolumns, columns. rewrite lookup_col_mem. split.
  - intros [v Hv]. apply geometry_ret_lookup in Hv. rewrite Hv. reflexivity.
  - destruct (lookup_col _ _) eqn:E; [| discriminate].
    intros _. exists l. apply geometry_ret_lookup, E.
Qed.

Lemma GeoDataFrame_of_columns d g c :
  gcolumns (GeoDataFrame_of d g c) =
  if mem "geometry" (columns d) then columns d else columns d ++ ["geometry"].
Proof. unfold gcolumns, GeoDataFrame_of, columns. simpl. apply set_col_names. Qed.

Lemma GeoDataFrame_of_ends d g c :
  ~ In "geometry" (columns d) ->
  ends_with_geometry (gcolumns (GeoDataFrame_of d g c)).
Proof.
  intros H. rewrite GeoDataFrame_of_columns.
  apply mem_false in H. rewrite H. exists (columns d). reflexivity.
Qed.

Lemma getitem_columns_inv names d l cs :
  getitem_columns names d = (l, inr cs) -> l = [] /\ map fst cs = names.
Proof.
  revert l cs. induction names as [| n names IH]; intros l cs H; simpl in H.
  - inversion H. auto.
  - bind_inv H. apply getcol_inv in H0. destruct H0 as [-> _].
    bind_inv H. apply IH in H0. destruct H0 as [-> Hn].
    inversion H; subst. simpl. auto.
Qed.

Lemma getitem_inv names d l d' :
  getitem names d = (l, inr d') ->
  l = [] /\ columns d' = names /\ index d' = index d.
Proof.
  unfold getitem. intros H. bind_inv H.
  apply getitem_columns_inv in H0. destruct H0 as [-> Hn].
  inversion H; subst. auto.
Qed.

Lemma columns_drop_inv label names l r :
  columns_drop label names = (l, inr r) ->
  l = [] /\ r = filter (fun n => negb (String.eqb n label)) names /\
  mem label names = true.
Proof.
  unfold columns_drop. destruct (mem label names); intros H;
    inversion H; auto.
Qed.

Lemma columns_iloc_none d : columns (iloc_none d) = columns d.
Proof. unfold columns, iloc_none. simpl. apply names_map_cols. Qed.

(** The labels of the zero-row frame of lines 70-80 and 301-309. *)
Definition merged_labels (df1 df2 : GeoDataFrame) : list string :=
  let sl :=
    suffixed_labels (gcolumns df1)
      (filter (fun n => negb (mem n [_geometry_column_name df2]))
              (gcolumns df2))
      ("_1", "_2") in
  fst sl ++ snd sl.

Definition with_pair_index (pair_index : bool) (names : list string)
  : list string :=
  if pair_index then
    let names1 := if mem "__idx1" names then names else names ++ ["__idx1"] in
    if mem "__idx2" names1 then names1 else names1 ++ ["__idx2"]
  else names.

Definition empty_merge_labels (df1 df2 : GeoDataFrame) (pair_index : bool)
  : list string :=
  filter (fun n => negb (String.eqb n (_geometry_column_name df1)))
         (with_pair_index pair_index (merged_labels df1 df2))
  ++ [_geometry_column_name df1].

Lemma empty_merge_inv df1 df2 pair_index l r :
  empty_merge df1 df2 pair_index = (l, inr r) ->
  l = [] /\
  _geometry_column_name r = _geometry_column_name df1 /\
  crs r = crs df1 /\
  gnrows r = 0 /\
  gcolumns r = empty_merge_labels df1 df2 pair_index.
Proof.
  unfold empty_merge. intros H.
  bind_inv H. apply geometry_inv in H0. destruct H0 as [-> _].
  bind_inv H. pose proof (drop_columns _ _ _ _ H0) as Hc.
  apply drop_inv in H0. destruct H0 as [-> _].
  bind_inv H. pose proof (merge_on_index_rows _ _ _ _ _ H0 eq_refl) as Hr.
  apply merge_on_index_columns in H0. destruct H0 as [-> Hm].
  bind_inv H. apply geometry_inv in H0. destruct H0 as [-> _].
  bind_inv H. apply columns_drop_inv in H0. destruct H0 as [-> [-> _]].
  bind_inv H. apply getitem_inv in H0. destruct H0 as [-> [Hn Hi]].
  inversion H; subst; clear H. simpl.
  repeat split; auto.
  - unfold gnrows, nrows in *. simpl. rewrite Hi.
    destruct pair_index; simpl; exact Hr.
  - unfold gcolumns. simpl. rewrite Hn.
    unfold empty_merge_labels, merged_labels, with_pair_index.
    rewrite columns_iloc_none, Hc, columns_iloc_none in Hm.
    unfold gcolumns. f_equal. f_equal.
    destruct pair_index; [| exact Hm].
    unfold columns, setitem in *. simpl.
    rewrite !set_col_names, Hm. reflexivity.
Qed.

Lemma empty_merge_ends df1 df2 pair_index l r :
  empty_merge df1 df2 pair_index = (l, inr r) ->
  _geometry_column_name df1 = "geometry" ->
  _geometry_column_name r = "geometry" /\ ends_with_geometry (gcolumns r).
Proof.
  intros H Hn. apply empty_merge_inv in H.
  destruct H as (_ & Hname & _ & _ & Hc). split; [congruence |].
  rewrite Hc. unfold empty_merge_labels. rewrite Hn. eexists. reflexivity.
Qed.

End Builders.

Section Composers.
Context {K : Kernel}.
Variable PANDAS_GE_30 : bool.

Lemma harmless_1 : harmless "_1".
Proof. exact append_1_not_geometry. Qed.
Lemma harmless_2 : harmless "_2".
Proof. exact append_2_not_geometry. Qed.
Lemma harmless_x : harmless "_x".
Proof. exact append_x_not_geometry. Qed.
Lemma harmless_y : harmless "_y".
Proof. exact append_y_not_geometry. Qed.

(** the labels of a frame other than its geometry column *)
Definition attribute_labels (df : GeoDataFrame) : list string :=
  filter (fun n => negb (mem n [_geometry_column_name df])) (gcolumns df).

Lemma sindex_query_inv tree query l r :
  sindex_query tree query = (l, r) ->
  l = [Sindex_query] /\
  r = inr (map fst (query_pairs query tree), map snd (query_pairs query tree)).
Proof. unfold sindex_query. simpl. intros H. inversion H. auto. Qed.

(** Lines 35-80: either the frame built around the intersections, whose
    geometry column is "geometry", or the zero-row frame. *)
Lemma _overlay_intersection_inv df1 df2 l r :
  _overlay_intersection df1 df2 = (l, inr r) ->
  l = [Sindex_query] /\
  ((exists d geoms,
      r = GeoDataFrame_of d geoms (crs df1) /\
      (In "geometry" (columns d) ->
       In "geometry" (attribute_labels df1) \/
       In "geometry" (attribute_labels df2))) \/
   empty_merge df1 df2 true = ([], inr r)).
Proof.
  unfold _overlay_intersection. intros H.
  bind_inv H. apply geometry_inv in H0. destruct H0 as [-> _].
  bind_inv H. apply geometry_inv in H0. destruct H0 as [-> _].
  bind_inv H. apply sindex_query_inv in H0. destruct H0 as [-> Ha].
  inversion Ha; subst a1; clear Ha. cbn [fst snd] in H. simpl app.
  match type of H with (if ?c then _ else _) = _ => destruct c end.
  - cbv zeta in H.
    bind_inv H. pose proof (drop_columns _ _ _ _ H0) as Hc1.
    apply drop_inv in H0. destruct H0 as [-> _].
    bind_inv H. apply merge_left_on_right_index_columns in H0.
    destruct H0 as [-> Hm1].
    bind_inv H. pose proof (drop_columns _ _ _ _ H0) as Hc2.
    apply drop_inv in H0. destruct H0 as [-> _].
    bind_inv H. apply merge_left_on_right_index_columns in H0.
    destruct H0 as [-> Hm2].
    inversion H; subst; clear H. split; [reflexivity |]. left.
    eexists; eexists; split; [reflexivity |].
    intros Hin. rewrite Hm2 in Hin.
    apply suffixed_labels_geometry in Hin;
      [| exact harmless_1 | exact harmless_2].
    destruct Hin as [[Hin _] | [Hin _]].
    + rewrite Hm1 in Hin.
      apply suffixed_labels_geometry in Hin;
        [| exact harmless_x | exact harmless_y].
      destruct Hin as [[Hin _] | [Hin _]].
      * simpl in Hin. destruct Hin as [Hin | [Hin | []]]; discriminate.
      * left. rewrite Hc1 in Hin. exact Hin.
    + right. rewrite Hc2 in Hin. exact Hin.
  - destruct (empty_merge df1 df2 true) as [l' r'] eqn:Hem.
    inversion H; subst.
    apply empty_merge_inv in Hem. destruct Hem as [-> _]. auto.
Qed.

Lemma _overlay_difference_inv df1 df2 l r :
  _overlay_difference df1 df2 = (l, inr r) ->
  exists g1 g2,
    geometry df1 = ret g1 /\ geometry df2 = ret g2 /\
    l = [Sindex_query] /\ r = difference_result df1 g1 g2.
Proof.
  intros H.
  destruct (geometry df2) as [l2 [e | g2]] eqn:E2.
  { unfold _overlay_difference in H. rewrite E2 in H. discriminate. }
  destruct (geometry_inv _ _ _ E2) as [-> _].
  destruct (geometry df1) as [l1 [e | g1]] eqn:E1.
  { unfold _overlay_difference in H. rewrite E2, bind_nil_inr, E1 in H.
    discriminate. }
  destruct (geometry_inv _ _ _ E1) as [-> _].
  rewrite (_overlay_difference_eq df1 df2 g1 g2 E1 E2) in H.
  inversion H; subst. exists g1, g2. auto.
Qed.

Lemma difference_result_labels df1 g1 g2 :
  geometry df1 = ret g1 ->
  gcolumns (difference_result df1 g1 g2) = gcolumns df1 /\
  _geometry_column_name (difference_result df1 g1 g2) =
    _geometry_column_name df1 /\
  crs (difference_result df1 g1 g2) = crs df1.
Proof.
  intros H. apply geometry_ret_mem in H.
  unfold difference_result, gcolumns, columns in *. simpl.
  rewrite set_col_names, names_map_cols, H. auto.
Qed.

Lemma difference_result_geometry df1 g1 g2 :
  exists v, geometry (difference_result df1 g1 g2) = ret v.
Proof.
  eexists. apply geometry_ret_lookup. unfold difference_result. simpl.
  apply lookup_set_col_same.
Qed.

Lemma gsetitem_has_geometry n w g :
  (exists v, geometry g = ret v) ->
  exists v, geometry (gsetitem n w g) = ret v.
Proof.
  rewrite !has_geometry_iff. unfold gcolumns, gsetitem, columns. simpl.
  intros H. rewrite set_col_names.
  destruct (mem n (map fst (cols (frame g)))); auto.
  rewrite mem_app, H. reflexivity.
Qed.

(** Lines 18-32: the frame that comes back has its geometry column under
    the label "geometry". *)
Lemma _ensure_geometry_column_inv df l r :
  _ensure_geometry_column PANDAS_GE_30 df = (l, inr r) ->
  (exists v, geometry df = ret v) ->
  l = [] /\ _geometry_column_name r = "geometry" /\
  In "geometry" (gcolumns r) /\ crs r = crs df.
Proof.
  unfold _ensure_geometry_column. intros H Hg.
  destruct (String.eqb_spec (_geometry_column_name df) "geometry")
    as [Hname | Hname]; simpl in H.
  - inversion H; subst. repeat split; auto.
    apply has_geometry_iff in Hg. rewrite Hname in Hg. apply mem_In, Hg.
  - assert (Hboth :
      exists l',
        (df' <- (if mem "geometry" (gcolumns df)
                 then gdrop ["geometry"] df else ret df) ;;
         rename_geometry "geometry" df') = (l', inr r) /\ l = l').
    { destruct PANDAS_GE_30; eauto. }
    clear H. destruct Hboth as [l' [H ->]].
    mstep H as l1 a Ha.
    assert (Ha' : l1 = [] /\ crs a = crs df).
    { destruct (mem "geometry" (gcolumns df)).
      - unfold gdrop in Ha. mstep Ha as l3 d Hd.
        apply drop_inv in Hd. destruct Hd as [-> _].
        inversion Ha; subst. auto.
      - inversion Ha; subst. auto. }
    destruct Ha' as [-> Hcrs].
    unfold rename_geometry in H. mstep H as l3 v Hv.
    apply geometry_inv in Hv. destruct Hv as [-> Hl].
    destruct (mem "geometry" (gcolumns a)); [discriminate |].
    inversion H; subst; clear H. simpl. repeat split; auto.
    unfold gcolumns, columns. simpl. rewrite map_map.
    apply lookup_col_Some_mem, mem_In, in_map_iff in Hl.
    destruct Hl as [c [Hc Hin]].
    apply in_map_iff. exists c. split; auto.
    rewrite Hc, String.eqb_refl. reflexivity.
Qed.

End Composers.

Section Composed.
Context {K : Kernel}.
Variable PANDAS_GE_30 : bool.

Lemma geometry_last_inv names l c :
  geometry_last names = (l, inr c) ->
  l = [] /\ ends_with_geometry c.
Proof.
  unfold geometry_last. destruct (list_remove "geometry" names);
    intros H; inversion H; subst. split; auto. eexists; reflexivity.
Qed.


(** Lines 133-157: the geometry column of the symmetric difference is
    called "geometry" and comes last. *)
Lemma _overlay_symmetric_diff_labels df1 df2 l r :
  _overlay_symmetric_diff PANDAS_GE_30 df1 df2 = (l, inr r) ->
  _geometry_column_name r = "geometry" /\ ends_with_geometry (gcolumns r).
Proof.
  unfold _overlay_symmetric_diff. intros H.
  mstep H as l1 dfdiff1 H1. apply _overlay_difference_inv in H1.
  destruct H1 as (g1 & g2 & Hg1 & Hg2 & -> & ->).
  mstep H as l2 dfdiff2 H2. apply _overlay_difference_inv in H2.
  destruct H2 as (g2' & g1' & _ & _ & -> & ->).
  cbv zeta in H.
  mstep H as l3 e1 H3. apply _ensure_geometry_column_inv in H3;
    [| do 2 apply gsetitem_has_geometry; apply difference_result_geometry].
  destruct H3 as (-> & _ & Hin1 & _).
  mstep H as l4 e2 H4. apply _ensure_geometry_column_inv in H4;
    [| do 2 apply gsetitem_has_geometry; apply difference_result_geometry].
  destruct H4 as (-> & _ & Hin2 & _).
  mstep H as l5 dfsym H5.
  mstep H as l6 geometry_1 H6. clear H6.
  mstep H as l7 geometry_2 H7. clear H7.
  mstep H as l8 dfsym' H8. apply drop_columns in H8.
  inversion H; subst; clear H. split; [reflexivity |].
  apply GeoDataFrame_of_ends. unfold reset_index, columns at 1. simpl.
  fold (columns dfsym'). rewrite H8. intros Hin.
  apply filter_In in Hin. destruct Hin as [Hin _].
  destruct (merge_outer_on_columns _ _ _ _ _ _ _ _ H5 Hin)
    as [Hk | [Hk | (right' & Hr & Hx)]]; try discriminate.
  assert (Hin2' : In "geometry" (columns right')).
  { rewrite Hr. apply filter_In. split; [exact Hin2 | reflexivity]. }
  apply suffixed_labels_geometry in Hx;
    [| exact harmless_1 | exact harmless_2].
  destruct Hx as [[_ Hx] | [_ Hx]]; contradiction.
Qed.



(** The geometry column of an intersection frame, given that of [df1]. *)
Lemma _overlay_intersection_name df1 df2 l r :
  _overlay_intersection df1 df2 = (l, inr r) ->
  _geometry_column_name df1 = "geometry" ->
  _geometry_column_name r = "geometry".
Proof.
  intros H Hn. apply _overlay_intersection_inv in H.
  destruct H as [_ [(d & geoms & -> & _) | H]]; [reflexivity |].
  apply (empty_merge_ends _ _ _ _ _ H Hn).
Qed.

Lemma _overlay_intersection_ends df1 df2 l r :
  _overlay_intersection df1 df2 = (l, inr r) ->
  _geometry_column_name df1 = "geometry" ->
  ~ In "geometry" (attribute_labels df2) ->
  ends_with_geometry (gcolumns r).
Proof.
  intros H Hn Hattr. apply _overlay_intersection_inv in H.
  destruct H as [_ [(d & geoms & -> & Hd) | H]].
  - apply GeoDataFrame_of_ends. intros Hin.
    destruct (Hd Hin) as [H1 | H2]; [| contradiction].
    unfold attribute_labels in H1. apply filter_In in H1.
    rewrite Hn in H1. destruct H1 as [_ H1]. discriminate.
  - apply (empty_merge_ends _ _ _ _ _ H Hn).
Qed.

End Composed.

(** ** The dispatcher (section 4.7) *)

Section Dispatcher.
Context {K : Kernel}.
Variable PANDAS_GE_30 : bool.

(** the test of lines 287-290, on the geometries of one input *)
Definition uniform (g : list cell) : bool :=
  negb (1 <? Nat.b2n (any (map (isin POLYGON_GEOM_TYPES) (series_geom_type g)))
             + Nat.b2n (any (map (isin LINE_GEOM_TYPES) (series_geom_type g)))
             + Nat.b2n (any (map (isin POINT_GEOM_TYPES) (series_geom_type g)))).

Lemma check_uniform_eq i df g :
  geometry df = ret g ->
  check_uniform i df =
  if uniform g then ret tt else raise (NotImplementedError_mixed (i + 1)).
Proof.
  intros H. unfold check_uniform, uniform.
  rewrite (geom_type_ret _ _ H), bind_ret.
  match goal with |- context [1 <? ?n] => destruct (1 <? n) end; reflexivity.
Qed.

Definition invalid_mask (g : list cell) : list bool :=
  map (fun c => negb (cell_is_valid c)) g.

Definition all_polygons (g : list cell) : bool :=
  all (map (isin POLYGON_GEOM_TYPES) (series_geom_type g)).

Definition repaired (g : list cell) : list cell :=
  map (fun p : bool * cell => if fst p then cell_make_valid (snd p) else snd p)
      (combine (invalid_mask g) g).

Lemma _make_valid_eq mv df g :
  geometry df = ret g ->
  _make_valid mv df =
  if all_polygons g then
    if mv then
      if any (invalid_mask g)
      then _collection_extract
             (gsetitem (_geometry_column_name df) (repaired g) df)
             (Some Polygon) false
      else ret (gsetitem (_geometry_column_name df) (repaired g) df)
    else if any (invalid_mask g)
         then raise (ValueError_invalid_geometries (count_true (invalid_mask g)))
         else ret df
  else ret df.
Proof.
  intros H. unfold _make_valid, all_polygons.
  rewrite (geom_type_ret _ _ H), bind_ret.
  destruct (all _); [| reflexivity].
  rewrite H, bind_ret. reflexivity.
Qed.

Lemma extract_log_quiet df fam g : extract_log df fam g false = [].
Proof. unfold extract_log. rewrite andb_false_r. reflexivity. Qed.

Lemma _make_valid_inr mv df l r :
  _make_valid mv df = (l, inr r) ->
  l = [] /\ gcolumns r = gcolumns df /\
  _geometry_column_name r = _geometry_column_name df /\ crs r = crs df /\
  (exists g, geometry df = ret g) /\ (exists g', geometry r = ret g').
Proof.
  intros H.
  destruct (geometry df) as [lg [e | g]] eqn:Hg.
  { unfold _make_valid, geom_type in H. rewrite Hg in H. discriminate. }
  destruct (geometry_inv _ _ _ Hg) as [-> _].
  rewrite (_make_valid_eq mv df g Hg) in H.
  destruct (all_polygons g).
  - destruct mv.
    + pose proof (geometry_gsetitem df (repaired g)) as Hg'.
      pose proof (gcolumns_gsetitem_geometry df (repaired g) g Hg) as Hc.
      destruct (any (invalid_mask g)).
      * apply _collection_extract_inr in H.
        destruct H as (fam & g' & Hg'' & _ & -> & ->).
        rewrite Hg' in Hg''. inversion Hg''; subst g'.
        destruct (extract_frame_columns _ fam _ Hg') as (H1 & H2 & H3).
        rewrite extract_log_quiet, H1, H2, H3, Hc.
        repeat split; auto; try (exists g; reflexivity).
        eexists. apply extract_frame_geometry, Hg'.
      * inversion H; subst. rewrite Hc.
        repeat split; auto; try (exists g; reflexivity).
        eexists. exact Hg'.
    + destruct (any (invalid_mask g)); [discriminate |].
      inversion H; subst.
      repeat split; auto; exists g; first [reflexivity | exact Hg].
  - inversion H; subst.
    repeat split; auto; exists g; first [reflexivity | exact Hg].
Qed.

Definition crs_log (df1 df2 : GeoDataFrame) : list event :=
  if _check_crs (crs df1) (crs df2) then [] else [Warn_crs_mismatch].

(** the test of lines 293-300 *)
Definition takes_fast_path (how : string) (g1 g2 : list cell) : bool :=
  String.eqb how "intersection"
  && negb (boxes_overlap (shp_total_bounds (map cell_geom g1))
                         (shp_total_bounds (map cell_geom g2))).

(** Lines 334-361, what a call does once it is past the fast path. *)
Definition overlay_main (df1 df2 : GeoDataFrame) (how : string)
    (keep_geom_type : option bool) (make_valid : bool) : M GeoDataFrame :=
  let keep_geom_type_warning := snd (keep_geom_type_flags keep_geom_type) in
  let keep_geom_type := fst (keep_geom_type_flags keep_geom_type) in
  geom_type_ <-
    (if keep_geom_type then
       types <- geom_type df1 ;;
       match types with
       | [] => raise IndexError
       | t :: _ => ret t
       end
     else ret None) ;;
  df1 <- _make_valid make_valid df1 ;;
  df2 <- _make_valid make_valid df2 ;;
  result <-
    (if String.eqb how "difference" then _overlay_difference df1 df2
     else if String.eqb how "intersection" then _overlay_intersection df1 df2
     else if String.eqb how "symmetric_difference"
          then _overlay_symmetric_diff PANDAS_GE_30 df1 df2
     else if String.eqb how "union" then _overlay_union PANDAS_GE_30 df1 df2
     else _overlay_identity PANDAS_GE_30 df1 df2) ;;
  result <-
    (if mem how ["intersection"; "symmetric_difference"; "union"; "identity"]
     then gdrop ["__idx1"; "__idx2"] result
     else ret result) ;;
  result <-
    (if keep_geom_type
     then _collection_extract result geom_type_ keep_geom_type_warning
     else ret result) ;;
  ret (with_frame result (reset_index (frame result))).

Lemma overlay_eq df1 df2 how kgt mv g1 g2 :
  mem how allowed_hows = true ->
  geometry df1 = ret g1 ->
  geometry df2 = ret g2 ->
  uniform g1 = true ->
  uniform g2 = true ->
  overlay PANDAS_GE_30 df1 df2 how kgt mv =
  (crs_log df1 df2
   ++ fst (if takes_fast_path how g1 g2 then empty_merge df1 df2 false
           else overlay_main df1 df2 how kgt mv),
   snd (if takes_fast_path how g1 g2 then empty_merge df1 df2 false
        else overlay_main df1 df2 how kgt mv)).
Proof.
  intros Hhow H1 H2 U1 U2. unfold overlay, takes_fast_path.
  rewrite Hhow. cbn [negb].
  rewrite (check_uniform_eq 0 _ _ H1), (check_uniform_eq 1 _ _ H2), U1, U2.
  fold (overlay_main df1 df2 how kgt mv).
  assert (Hwhen : when (negb (_check_crs (crs df1) (crs df2)))
                    (emit Warn_crs_mismatch) = (crs_log df1 df2, inr tt)).
  { unfold when, crs_log, emit. destruct (_check_crs _ _); reflexivity. }
  rewrite (bind_ok _ _ _ _ Hwhen), !bind_ret.
  destruct (String.eqb how "intersection"); cbn [andb].
  - unfold total_bounds. rewrite H1, H2, !bind_ret.
    destruct (boxes_overlap _ _); cbn [negb].
    + rewrite bind_ret. reflexivity.
    + destruct (empty_merge df1 df2 false) as [le [e | r]]; simpl;
        rewrite ?app_nil_r; reflexivity.
  - rewrite bind_ret. reflexivity.
Qed.

(** A call that returns has passed the checks of lines 269-291. *)
Lemma overlay_inr df1 df2 how kgt mv l r :
  overlay PANDAS_GE_30 df1 df2 how kgt mv = (l, inr r) ->
  exists g1 g2,
    mem how allowed_hows = true /\
    geometry df1 = ret g1 /\ geometry df2 = ret g2 /\
    uniform g1 = true /\ uniform g2 = true.
Proof.
  intros H.
  destruct (mem how allowed_hows) eqn:Hhow;
    [| unfold overlay in H; rewrite Hhow in H; discriminate].
  assert (Hwhen : when (negb (_check_crs (crs df1) (crs df2)))
                    (emit Warn_crs_mismatch) = (crs_log df1 df2, inr tt)).
  { unfold when, crs_log, emit. destruct (_check_crs _ _); reflexivity. }
  unfold overlay in H. rewrite Hhow in H. cbn [negb] in H.
  rewrite (bind_ok _ _ _ _ Hwhen) in H.
  destruct (geometry df1) as [lg [e | g1]] eqn:Hg1.
  { unfold check_uniform, geom_type in H. rewrite Hg1 in H. discriminate. }
  destruct (geometry_inv _ _ _ Hg1) as [-> _].
  rewrite (check_uniform_eq 0 _ _ Hg1) in H.
  destruct (uniform g1) eqn:U1; [| discriminate].
  rewrite bind_ret in H.
  destruct (geometry df2) as [lg [e | g2]] eqn:Hg2.
  { unfold check_uniform, geom_type in H. rewrite Hg2 in H. discriminate. }
  destruct (geometry_inv _ _ _ Hg2) as [-> _].
  rewrite (check_uniform_eq 1 _ _ Hg2) in H.
  destruct (uniform g2) eqn:U2; [| discriminate].
  exists g1, g2. auto.
Qed.

End Dispatcher.

(** * The claims *)

Lemma filter_none {A} (f : A -> bool) (l : list A) :
  (forall x, In x l -> f x = false) -> filter f l = [].
Proof.
  induction l as [| x l IH]; intros H; simpl; auto.
  rewrite (H x (or_introl eq_refl)). apply IH.
  intros y Hy. apply H. right. exact Hy.
Qed.

(** C7 (amended).  For every pair of frames with a geometry column, the
    pairwise difference builder queries the index once and returns the rows
    of A whose final geometry is not empty; the final geometry of a row is
    the left fold of binary difference, starting from the row's geometry,
    over the geometries of B that intersect it, in ascending B-row order,
    followed by a validity repair when that fold is polygon-family.  A row
    that no geometry of B intersects has its own geometry as the fold, so it
    is kept unchanged up to that repair. *)
Theorem C7_difference_is_repaired_fold {K : Kernel}
    (df1 df2 : GeoDataFrame) (g1 g2 : list cell) :
  geometry df1 = ret g1 ->
  geometry df2 = ret g2 ->
  let final := map (fun a => repair (folded_difference a g2)) g1 in
  let keep := map (fun c => negb (cell_is_empty c)) final in
  (exists r,
     _overlay_difference df1 df2 = ([Sindex_query], inr r) /\
     geometry r = ret (select keep final) /\
     index (frame r) = select keep (index (frame df1)) /\
     gcolumns r = gcolumns df1) /\
  (forall a, (forall b, In b g2 -> cell_intersects a b = false) ->
             folded_difference a g2 = a).
Proof.
  intros H1 H2 final keep. split.
  - exists (difference_result df1 g1 g2). split; [| split; [| split]].
    + apply _overlay_difference_eq; assumption.
    + apply geometry_ret_lookup. unfold difference_result. simpl.
      apply lookup_set_col_same.
    + reflexivity.
    + apply (difference_result_labels df1 g1 g2 H1).
  - intros a Ha. unfold folded_difference.
    rewrite (filter_none _ _ Ha). reflexivity.
Qed.

Lemma C7_witness :
  geometry Toy.df1 = ret [Toy.poly Toy.P1; Toy.poly Toy.P2] /\
  geometry Toy.df2 = ret [Toy.poly Toy.Q1; Toy.poly Toy.Q2] /\
  exists r,
    _overlay_difference Toy.df1 Toy.df2 = ([Sindex_query], inr r) /\
    geometry r =
    ret [Toy.poly Toy.P1_less_Q1;
         Toy.multi [Toy.P2_rest_a; Toy.P2_rest_b]].
Proof.
  split; [reflexivity | split; [reflexivity |]].
  destruct (C7_difference_is_repaired_fold Toy.df1 Toy.df2 _ _
              eq_refl eq_refl) as [(r & Hr & Hg & _) _].
  exists r. split; [exact Hr | rewrite Hg; reflexivity].
Defined.

(** C7 as stated fails: a row that nothing intersects does not keep its
    geometry when it is an invalid polygon, because the builder repairs
    it. *)
Lemma C7_counterexample :
  exists r,
    _overlay_difference (Toy.one_row "geometry" Toy.Bowtie "a") Toy.no_rows
      = ([Sindex_query], inr r) /\
    folded_difference (Toy.poly Toy.Bowtie) [] = Toy.poly Toy.Bowtie /\
    geometry r = ret [Toy.multi [Toy.Tri_left; Toy.Tri_right]] /\
    Toy.multi [Toy.Tri_left; Toy.Tri_right] <> Toy.poly Toy.Bowtie.
Proof.
  eexists. repeat split; try reflexivity. discriminate.
Qed.

(** ** Which calls can warn about dropped geometries *)

Definition is_drop_warning (e : event) : bool :=
  match e with Warn_dropped_geometries _ => true | _ => false end.

(** A computation that never emits the drop-count warning. *)
Definition quiet {A} (m : M A) : Prop :=
  existsb is_drop_warning (fst m) = false.

Lemma quiet_ret {A} (a : A) : quiet (ret a).
Proof. reflexivity. Qed.

Lemma quiet_raise {A} e : quiet (@raise A e).
Proof. reflexivity. Qed.

Lemma quiet_bind {A B} (m : M A) (f : A -> M B) :
  quiet m -> (forall a, quiet (f a)) -> quiet (bind m f).
Proof.
  unfold quiet, bind. destruct m as [l1 [e | a]]; simpl; auto.
  intros H1 H2. specialize (H2 a). destruct (f a) as [l2 r]. simpl in *.
  rewrite existsb_app, H1, H2. reflexivity.
Qed.

Ltac quiet_step :=
  match goal with
  | |- quiet (bind _ _) => apply quiet_bind; [| intros]
  | |- quiet (ret _) => apply quiet_ret
  | |- quiet (raise _) => apply quiet_raise
  | |- quiet (emit Sindex_query) => reflexivity
  | |- quiet (emit Warn_crs_mismatch) => reflexivity
  | |- quiet (when _ _) => unfold when
  | |- quiet (if ?c then _ else _) => destruct c
  | |- quiet (match ?x with _ => _ end) => destruct x
  | |- quiet (let _ := _ in _) => cbv zeta
  | |- quiet _ => solve [auto with quiet]
  end.

Ltac quiet_tac := repeat quiet_step.

Create HintDb quiet.

Section Quiet.
Context {K : Kernel}.
Variable PANDAS_GE_30 : bool.

Lemma quiet_getcol n d : quiet (getcol n d).
Proof. unfold getcol. quiet_tac. Qed.
Hint Resolve quiet_getcol : quiet.

Lemma quiet_getattr_col n d : quiet (getattr_col n d).
Proof. unfold getattr_col. quiet_tac. Qed.
Hint Resolve quiet_getattr_col : quiet.

Lemma quiet_geometry g : quiet (geometry g).
Proof. unfold geometry. quiet_tac. Qed.
Hint Resolve quiet_geometry : quiet.

Lemma quiet_geom_type g : quiet (geom_type g).
Proof. unfold geom_type. quiet_tac. Qed.
Hint Resolve quiet_geom_type : quiet.

Lemma quiet_drop labels d : quiet (drop labels d).
Proof. unfold drop. quiet_tac. Qed.
Hint Resolve quiet_drop : quiet.

Lemma quiet_gdrop labels g : quiet (gdrop labels g).
Proof. unfold gdrop. quiet_tac. Qed.
Hint Resolve quiet_gdrop : quiet.

Lemma quiet_columns_drop label names : quiet (columns_drop label names).
Proof. unfold columns_drop. quiet_tac. Qed.
Hint Resolve quiet_columns_drop : quiet.

Lemma quiet_getitem_columns names d : quiet (getitem_columns names d).
Proof. induction names; simpl; quiet_tac. Qed.
Hint Resolve quiet_getitem_columns : quiet.

Lemma quiet_getitem names d : quiet (getitem names d).
Proof. unfold getitem. quiet_tac. Qed.
Hint Resolve quiet_getitem : quiet.

Lemma quiet_items_overlap left right sfx :
  quiet (items_overlap_with_suffix left right sfx).
Proof. unfold items_overlap_with_suffix. quiet_tac. Qed.
Hint Resolve quiet_items_overlap : quiet.

Lemma quiet_merge_left_on_right_index left right key sfx :
  quiet (merge_left_on_right_index left right key sfx).
Proof. unfold merge_left_on_right_index. quiet_tac. Qed.
Hint Resolve quiet_merge_left_on_right_index : quiet.

Lemma quiet_merge_on_index left right sfx :
  quiet (merge_on_index left right sfx).
Proof. unfold merge_on_index. quiet_tac. Qed.
Hint Resolve quiet_merge_on_index : quiet.

Lemma quiet_merge_outer_on left right k1 k2 sfx :
  quiet (merge_outer_on left right k1 k2 sfx).
Proof. unfold merge_outer_on. quiet_tac. Qed.
Hint Resolve quiet_merge_outer_on : quiet.

Lemma quiet_sindex_query tree query : quiet (sindex_query tree query).
Proof. unfold sindex_query. quiet_tac. Qed.
Hint Resolve quiet_sindex_query : quiet.

Lemma quiet_rename_geometry col g : quiet (rename_geometry col g).
Proof. unfold rename_geometry. quiet_tac. Qed.
Hint Resolve quiet_rename_geometry : quiet.

Lemma quiet__ensure_geometry_column df :
  quiet (_ensure_geometry_column PANDAS_GE_30 df).
Proof. unfold _ensure_geometry_column. quiet_tac. Qed.
Hint Resolve quiet__ensure_geometry_column : quiet.

Lemma quiet_empty_merge df1 df2 b : quiet (empty_merge df1 df2 b).
Proof. unfold empty_merge. quiet_tac. Qed.
Hint Resolve quiet_empty_merge : quiet.

Lemma quiet__overlay_intersection df1 df2 :
  quiet (_overlay_intersection df1 df2).
Proof. unfold _overlay_intersection. quiet_tac. Qed.
Hint Resolve quiet__overlay_intersection : quiet.

Lemma quiet_sidx_comprehension rows uniq split :
  quiet (sidx_comprehension rows uniq split).
Proof.
  revert split. induction rows as [| i rows IH]; intros split; simpl;
    quiet_tac.
Qed.
Hint Resolve quiet_sidx_comprehension : quiet.

Lemma quiet_difference_method x y : quiet (difference_method x y).
Proof. unfold difference_method. quiet_tac. Qed.
Hint Resolve quiet_difference_method : quiet.

Lemma quiet_reduce x ys : quiet (reduce difference_method x ys).
Proof. revert x. induction ys; intros x; simpl; quiet_tac. Qed.
Hint Resolve quiet_reduce : quiet.

Lemma quiet_differences_loop rows g2 : quiet (differences_loop rows g2).
Proof. induction rows as [| [geom nb] rows IH]; simpl; quiet_tac. Qed.
Hint Resolve quiet_differences_loop : quiet.

Lemma quiet__overlay_difference df1 df2 : quiet (_overlay_difference df1 df2).
Proof. unfold _overlay_difference. quiet_tac. Qed.
Hint Resolve quiet__overlay_difference : quiet.

Lemma quiet_geometry_last names : quiet (geometry_last names).
Proof. unfold geometry_last. quiet_tac. Qed.
Hint Resolve quiet_geometry_last : quiet.

Lemma quiet__overlay_identity df1 df2 :
  quiet (_overlay_identity PANDAS_GE_30 df1 df2).
Proof. unfold _overlay_identity. quiet_tac. Qed.
Hint Resolve quiet__overlay_identity : quiet.

Lemma quiet__overlay_symmetric_diff df1 df2 :
  quiet (_overlay_symmetric_diff PANDAS_GE_30 df1 df2).
Proof. unfold _overlay_symmetric_diff. quiet_tac. Qed.
Hint Resolve quiet__overlay_symmetric_diff : quiet.

Lemma quiet__overlay_union df1 df2 :
  quiet (_overlay_union PANDAS_GE_30 df1 df2).
Proof. unfold _overlay_union. quiet_tac. Qed.
Hint Resolve quiet__overlay_union : quiet.

(** The filter warns only when it is asked to. *)
Lemma quiet__collection_extract df t :
  quiet (_collection_extract df t false).
Proof.
  unfold _collection_extract.
  apply quiet_bind; [quiet_tac | intros fam].
  apply quiet_bind; [quiet_tac | intros types].
  apply quiet_bind; [quiet_tac | intros step]. cbv zeta.
  apply quiet_bind; [quiet_tac | intros types'].
  apply quiet_bind; [| intros; quiet_tac].
  rewrite andb_false_r. quiet_tac.
Qed.
Hint Resolve quiet__collection_extract : quiet.

Lemma quiet_check_uniform i df : quiet (check_uniform i df).
Proof. unfold check_uniform. quiet_tac. Qed.
Hint Resolve quiet_check_uniform : quiet.

Lemma quiet_total_bounds df : quiet (total_bounds df).
Proof. unfold total_bounds. quiet_tac. Qed.
Hint Resolve quiet_total_bounds : quiet.

Lemma quiet__make_valid mv df : quiet (_make_valid mv df).
Proof. unfold _make_valid. quiet_tac. Qed.
Hint Resolve quiet__make_valid : quiet.


End Quiet.




(** The number of constituent parts that the collection step removes from
    the GeometryCollection rows, as the spec counts them (section 4.6). *)
Definition parts_removed {K : Kernel} (fam : list GeomType) (g : list cell)
  : nat :=
  count_true
    (map (fun p => negb (isin fam (cell_geom_type (snd p))))
         (explode (select (is_collection_mask g) g))).

(** The number of constituent parts that the collection step retains. *)
Definition parts_kept {K : Kernel} (fam : list GeomType) (g : list cell)
  : nat :=
  count_true
    (map (fun p => isin fam (cell_geom_type (snd p)))
         (explode (select (is_collection_mask g) g))).

Lemma explode_geo {K : Kernel} (s : list cell) :
  Forall (fun c => exists x, c = Geo x) s ->
  Forall (fun p => exists x, snd p = Geo x) (explode s).
Proof.
  unfold explode, enumerate, range. generalize 0.
  induction s as [| c s IH]; intros k H; [constructor |].
  inversion H as [| ? ? [x ->] Hs]; subst. cbn [length seq combine flat_map].
  apply Forall_app. split; [| apply IH, Hs].
  simpl. apply Forall_forall. intros p Hp. apply in_map_iff in Hp.
  destruct Hp as [q [<- _]]. simpl. eauto.
Qed.

Lemma collections_geo {K : Kernel} (g : list cell) :
  Forall (fun c => exists x, c = Geo x) (select (is_collection_mask g) g).
Proof.
  unfold is_collection_mask, series_geom_type.
  induction g as [| c g IH]; simpl; [constructor |].
  destruct c as [| z | x]; simpl; auto.
  destruct (GeomType_eqb (shp_geom_type x) GeometryCollection || false);
    auto. constructor; eauto.
Qed.

(** What the code computes under the name [num_dropped_collection] is the
    number of parts it keeps. *)
Lemma num_dropped_collection_counts_kept {K : Kernel} fam g :
  any (is_collection_mask g) = true ->
  num_dropped_collection fam g = parts_kept fam g.
Proof.
  intros Hany. unfold num_dropped_collection, parts_kept, filtered_parts.
  rewrite Hany.
  pose proof (explode_geo _ (collections_geo g)) as Hgeo.
  induction (explode (select (is_collection_mask g) g)) as [| p l IH].
  - reflexivity.
  - inversion Hgeo as [| ? ? [x Hx] Hl]; subst. specialize (IH Hl).
    unfold count_true in *. cbn [map length filter] in *.
    destruct (isin fam (cell_geom_type (snd p))) eqn:E; cbn [snd isnull].
    + rewrite Hx. cbn [isnull filter length].
      assert (Hle : length (filter (fun b => b)
                      (map (fun p0 => isnull (snd p0))
                         (map (fun p0 => if isin fam (cell_geom_type (snd p0))
                                         then p0 else (fst p0, NA)) l)))
                    <= length l).
      { etransitivity; [apply filter_length_le |]. rewrite !length_map. lia. }
      lia.
    + cbn [filter length]. lia.
Qed.

(** C2 (code defect).  On a one-row frame whose geometry is a collection of
    two polygons and a point, filtered for polygons, the collection step
    removes one part and the plain filter removes no row, yet the warning
    reports two dropped geometries: the two parts that were kept. *)
Theorem C2_warning_counts_the_kept_parts :
  let g := [Toy.multi [Toy.P1Q1; Toy.Far; Toy.Dot]] in
  geometry Toy.collection_row = ret g /\
  parts_removed POLYGON_GEOM_TYPES g = 1 /\
  parts_kept POLYGON_GEOM_TYPES g = 2 /\
  num_dropped Toy.collection_row POLYGON_GEOM_TYPES g = 0 /\
  _collection_extract Toy.collection_row (Some Polygon) true =
    ([Warn_dropped_geometries 2],
     inr (mkGeoDataFrame
            (mkDataFrame [0%Z] [("geometry", [Toy.multi [Toy.P1Q1; Toy.Far]])])
            "geometry" None)).
Proof. repeat split. Qed.

Section Order_of_checks.
Context {K : Kernel}.
Variable PANDAS_GE_30 : bool.




Lemma overlay_main_empty_first df1 df2 how kgt mv :
  geometry df1 = ret [] ->
  kgt <> Some false ->
  overlay_main PANDAS_GE_30 df1 df2 how kgt mv = raise IndexError.
Proof.
  intros Hg Hk. unfold overlay_main.
  assert (Hkeep : fst (keep_geom_type_flags kgt) = true).
  { destruct kgt as [[|] |]; try reflexivity. congruence. }
  rewrite Hkeep, (geom_type_ret _ _ Hg), bind_ret. reflexivity.
Qed.

End Order_of_checks.




(** ** Which exceptions a computation can raise *)

(** A computation that does not end in the exception [e]. *)
Definition never_raises {A} (e : exn) (m : M A) : Prop := snd m <> inl e.

Lemma never_raises_ret {A} e (a : A) : never_raises e (ret a).
Proof. discriminate. Qed.

Lemma never_raises_raise {A} e e' : e' <> e -> never_raises e (@raise A e').
Proof. intros H E. apply H. inversion E. reflexivity. Qed.

Lemma never_raises_bind {A B} e (m : M A) (f : A -> M B) :
  never_raises e m -> (forall a, never_raises e (f a)) ->
  never_raises e (bind m f).
Proof.
  unfold never_raises, bind. destruct m as [l1 [e' | a]]; simpl.
  - intros H _ E. apply H. inversion E. reflexivity.
  - intros _ H2. specialize (H2 a). destruct (f a) as [l2 r]. exact H2.
Qed.

Ltac never_step :=
  match goal with
  | |- never_raises _ (bind _ _) => apply never_raises_bind; [| intros]
  | |- never_raises _ (ret _) => apply never_raises_ret
  | |- never_raises _ (raise _) => apply never_raises_raise; discriminate
  | |- never_raises _ (if ?c then _ else _) => destruct c
  | |- never_raises _ (match ?x with _ => _ end) => destruct x
  | |- never_raises _ (let _ := _ in _) => cbv zeta
  end.

Section Empty_first_input.
Context {K : Kernel}.
Variable PANDAS_GE_30 : bool.

Lemma getitem_columns_no_index_error names d :
  never_raises IndexError (getitem_columns names d).
Proof.
  induction names as [| n names IH]; simpl; unfold getcol;
    repeat never_step; exact IH.
Qed.

(** Lines 301-309 read no row: whatever the zero-row merge fails with, it is
    not the index error of a first-row access. *)
Lemma empty_merge_no_index_error df1 df2 b :
  never_raises IndexError (empty_merge df1 df2 b).
Proof.
  unfold empty_merge, geometry, drop, merge_on_index,
    items_overlap_with_suffix, columns_drop, getitem.
  repeat never_step; apply getitem_columns_no_index_error.
Qed.

End Empty_first_input.

(** C10 (amended).  Take a call with a truthy [keep_geom_type] (True or the
    default None), an allowed [how], a first input without rows and a second
    input that passes the family check.  If the call does not leave through
    the intersection fast path, it fails with an index error at the
    first-row access of line 336, having emitted at most the CRS warning.
    If it does (then [how] is "intersection" and the test of lines 297-300
    finds no overlap), the first-row access is never reached: the outcome is
    that of the zero-row merge of lines 301-309, which is not an index error,
    and a frame that comes back has no row. *)
Theorem C10_empty_first_input {K : Kernel} (PANDAS_GE_30 : bool)
    (df1 df2 : GeoDataFrame) (how : string) (keep_geom_type : option bool)
    (make_valid : bool) (g2 : list cell) :
  mem how allowed_hows = true ->
  geometry df1 = ret [] ->
  geometry df2 = ret g2 ->
  uniform g2 = true ->
  keep_geom_type <> Some false ->
  (takes_fast_path how [] g2 = false ->
   overlay PANDAS_GE_30 df1 df2 how keep_geom_type make_valid =
   (crs_log df1 df2, inl IndexError)) /\
  (takes_fast_path how [] g2 = true ->
   how = "intersection" /\
   overlay PANDAS_GE_30 df1 df2 how keep_geom_type make_valid =
   (crs_log df1 df2 ++ fst (empty_merge df1 df2 false),
    snd (empty_merge df1 df2 false)) /\
   snd (overlay PANDAS_GE_30 df1 df2 how keep_geom_type make_valid)
   <> inl IndexError /\
   forall log r,
     overlay PANDAS_GE_30 df1 df2 how keep_geom_type make_valid = (log, inr r) ->
     log = crs_log df1 df2 /\ gnrows r = 0).
Proof.
  intros Hhow Hg1 Hg2 U2 Hk.
  pose proof (overlay_eq PANDAS_GE_30 df1 df2 how keep_geom_type make_valid
                [] g2 Hhow Hg1 Hg2 eq_refl U2) as Heq.
  split; intros Hfast; rewrite Hfast in Heq.
  - rewrite Heq, (overlay_main_empty_first _ _ _ _ _ _ Hg1 Hk).
    simpl. rewrite app_nil_r. reflexivity.
  - split; [| split; [exact Heq | split]].
    + unfold takes_fast_path in Hfast. apply andb_prop in Hfast.
      apply String.eqb_eq, Hfast.
    + rewrite Heq. apply (empty_merge_no_index_error df1 df2 false).
    + intros log r H. rewrite Heq in H.
      destruct (empty_merge df1 df2 false) as [le [e | r']] eqn:Hem;
        [discriminate |].
      apply empty_merge_inv in Hem. destruct Hem as (-> & _ & _ & Hrows & _).
      simpl in H. inversion H; subst. rewrite app_nil_r. auto.
Qed.

Lemma C10_witness :
  geometry Toy.no_rows = ret [] /\
  takes_fast_path "union" [] [Toy.poly Toy.HookB] = false /\
  overlay true Toy.no_rows (Toy.one_row "geometry" Toy.HookB "b")
          "union" None true = ([], inl IndexError) /\
  takes_fast_path "intersection" [] [Toy.poly Toy.HookB] = true /\
  snd (overlay true Toy.no_rows (Toy.one_row "geometry" Toy.HookB "b")
         "intersection" None true) <> inl IndexError.
Proof.
  assert (Hk : @None bool <> Some false) by discriminate.
  split; [reflexivity | split; [reflexivity | split; [| split]]].
  - exact (proj1 (C10_empty_first_input true Toy.no_rows
                    (Toy.one_row "geometry" Toy.HookB "b") "union" None true
                    [Toy.poly Toy.HookB] eq_refl eq_refl eq_refl eq_refl Hk)
                 eq_refl).
  - reflexivity.
  - exact (proj1 (proj2 (proj2
             (proj2 (C10_empty_first_input true Toy.no_rows
                       (Toy.one_row "geometry" Toy.HookB "b") "intersection"
                       None true [Toy.poly Toy.HookB]
                       eq_refl eq_refl eq_refl eq_refl Hk)
                    eq_refl)))).
Defined.

(** C10 as stated fails: the bounds of a frame without rows are NaN, so
    with [how="intersection"] the test of lines 297-300 sends the call
    through the fast path, which returns before the first-row access. *)
Lemma C10_counterexample :
  gnrows Toy.no_rows = 0 /\
  exists r,
    overlay true Toy.no_rows (Toy.one_row "geometry" Toy.HookB "b")
            "intersection" None true = ([], inr r) /\
    gnrows r = 0.
Proof. split; [reflexivity |]. eexists. split; reflexivity. Qed.

(** ** The schema of the fast path (lines 293-309) *)

Section Fast_path.
Context {K : Kernel}.

(** A label that both inputs use for an attribute column. *)
Definition collides (df1 df2 : GeoDataFrame) (n : string) : bool :=
  mem n (attribute_labels df1) && mem n (attribute_labels df2).

(** The attribute columns of both inputs, a label that collides between the
    two receiving [_1] on the side of the first input and [_2] on the side
    of the second (section 3). *)
Definition suffixed_attributes (df1 df2 : GeoDataFrame) : list string :=
  map (fun n => if collides df1 df2 n then String.append n "_1" else n)
      (attribute_labels df1)
  ++ map (fun n => if collides df1 df2 n then String.append n "_2" else n)
         (attribute_labels df2).

(** The schema of a result in the spec's words (sections 3 and 8): the
    suffixed attribute columns of both inputs, then the geometry attribute,
    which is named "geometry" and comes last. *)
Definition spec_unioned_schema (df1 df2 : GeoDataFrame) : list string :=
  suffixed_attributes df1 df2 ++ ["geometry"].

Lemma mem_filter (f : string -> bool) x l :
  mem x (filter f l) = mem x l && f x.
Proof.
  induction l as [| y l IH]; simpl; auto.
  destruct (f y) eqn:Ey; simpl; rewrite IH;
    destruct (String.eqb_spec x y); simpl; auto.
  - subst. rewrite Ey. reflexivity.
  - subst. rewrite Ey. rewrite andb_false_r. reflexivity.
Qed.

Lemma duplicated_from_nodup seen l orig :
  NoDup l -> (forall x, In x l -> ~ In x seen) ->
  existsb (fun p : bool * bool => fst p && negb (snd p))
          (combine (duplicated_from seen l) orig) = false.
Proof.
  revert seen orig. induction l as [| x l IH]; intros seen orig Hnd Hs;
    [reflexivity |].
  inversion Hnd; subst. destruct orig as [| o orig]; [reflexivity |].
  simpl. assert (Hm : mem x seen = false).
  { apply mem_false. apply Hs. left; reflexivity. }
  rewrite Hm. simpl. apply IH; auto.
  intros y Hy [Hin | Hin]; [subst; contradiction |].
  apply (Hs y); [right; exact Hy | exact Hin].
Qed.

Lemma new_duplicates_nodup labels orig :
  NoDup labels -> new_duplicates labels orig = false.
Proof.
  intros H. unfold new_duplicates, duplicated.
  apply duplicated_from_nodup; auto.
Qed.

Lemma getitem_columns_ok names d :
  (forall n, In n names -> mem n (columns d) = true) ->
  exists cs, getitem_columns names d = ret cs.
Proof.
  induction names as [| n names IH]; intros H; simpl.
  - eexists; reflexivity.
  - destruct IH as [cs Hcs]; [intros m Hm; apply H; right; exact Hm |].
    specialize (H n (or_introl eq_refl)). unfold columns in H.
    rewrite lookup_col_mem in H. unfold getcol.
    destruct (lookup_col n (cols d)); [| discriminate].
    rewrite bind_ret, Hcs, bind_ret. eexists; reflexivity.
Qed.

Lemma drop_ok labels d :
  forallb (fun l => mem l (columns d)) labels = true ->
  drop labels d =
  ret (mkDataFrame (index d)
         (filter (fun c => negb (mem (fst c) labels)) (cols d))).
Proof. intros H. unfold drop. rewrite H. reflexivity. Qed.

Lemma items_overlap_ok left right sfx :
  NoDup (fst (suffixed_labels left right sfx) ++
         snd (suffixed_labels left right sfx)) ->
  items_overlap_with_suffix left right sfx =
  ret (suffixed_labels left right sfx).
Proof.
  intros Hnd. unfold items_overlap_with_suffix.
  unfold suffixed_labels in *. cbn [fst snd] in Hnd.
  apply NoDup_app_remove_l in Hnd as Hr.
  apply NoDup_app_remove_r in Hnd as Hl.
  rewrite (new_duplicates_nodup _ _ Hl), (new_duplicates_nodup _ _ Hr).
  reflexivity.
Qed.

(** The zero-row merge goes through when the merged labels are distinct
    and the geometry column of the first input is among them. *)
Lemma empty_merge_ok df1 df2 g1 g2 :
  geometry df1 = ret g1 ->
  geometry df2 = ret g2 ->
  NoDup (merged_labels df1 df2) ->
  mem (_geometry_column_name df1) (merged_labels df1 df2) = true ->
  exists r, empty_merge df1 df2 false = ([], inr r).
Proof.
  intros Hg1 Hg2 Hnd Hin. unfold empty_merge.
  rewrite Hg2, bind_ret.
  rewrite drop_ok
    by (simpl; rewrite columns_iloc_none, andb_true_r;
        apply (geometry_ret_mem _ _ Hg2)).
  rewrite bind_ret.
  set (right0 := mkDataFrame _ _).
  assert (Hc : columns right0 = attribute_labels df2).
  { unfold right0, columns. cbn [cols].
    rewrite (names_filter (fun n => negb (mem n [_geometry_column_name df2]))).
    change (map fst (cols (iloc_none (frame df2))))
      with (columns (iloc_none (frame df2))).
    rewrite columns_iloc_none. reflexivity. }
  assert (Hsl : suffixed_labels (columns (iloc_none (frame df1)))
                  (columns right0) ("_1", "_2") =
                suffixed_labels (gcolumns df1) (attribute_labels df2)
                  ("_1", "_2")).
  { rewrite columns_iloc_none, Hc. reflexivity. }
  unfold merge_on_index.
  rewrite items_overlap_ok by (rewrite Hsl; exact Hnd).
  rewrite bind_ret, bind_ret. cbv zeta.
  set (result := assemble _ _ _ _ _ _ _).
  assert (Hcols : columns result = merged_labels df1 df2).
  { unfold result. rewrite assemble_columns, Hsl. reflexivity. }
  rewrite Hg1, bind_ret. unfold columns_drop.
  rewrite Hcols, Hin, bind_ret. unfold getitem.
  match goal with
  | |- context [getitem_columns ?names ?d] =>
      destruct (getitem_columns_ok names d) as [cs Hcs]
  end.
  { intros n Hn. rewrite Hcols. apply mem_In.
    apply in_app_or in Hn. destruct Hn as [Hn | [<- | []]].
    - apply filter_In in Hn. tauto.
    - apply mem_In, Hin. }
  rewrite Hcs, !bind_ret. eexists. reflexivity.
Qed.

Lemma NoDup_map_inj {A B} (f : A -> B) l x y :
  NoDup (map f l) -> In x l -> In y l -> f x = f y -> x = y.
Proof.
  induction l as [| a l IH]; intros Hnd Hx Hy Hf; [contradiction |].
  simpl in Hnd. inversion Hnd; subst.
  destruct Hx as [-> | Hx], Hy as [-> | Hy]; auto.
  - exfalso. apply H1. rewrite Hf. apply in_map, Hy.
  - exfalso. apply H1. rewrite <- Hf. apply in_map, Hx.
Qed.

Lemma NoDup_app_apart {A} (l1 l2 : list A) a :
  NoDup (l1 ++ l2) -> In a l1 -> In a l2 -> False.
Proof.
  induction l1 as [| x l1 IH]; intros Hnd H1 H2; [contradiction |].
  simpl in Hnd. inversion Hnd; subst. destruct H1 as [-> | H1]; auto.
  apply H3. apply in_or_app. right. exact H2.
Qed.

Lemma filter_map_ext {A B} (p : B -> bool) (q : A -> bool) (f : A -> B) l :
  (forall x, In x l -> p (f x) = q x) ->
  filter p (map f l) = map f (filter q l).
Proof.
  induction l as [| a l IH]; intros H; simpl; auto.
  rewrite (H a (or_introl eq_refl)), IH by (intros; apply H; right; auto).
  destruct (q a); reflexivity.
Qed.

Lemma filter_all {A} (p : A -> bool) l :
  (forall x, In x l -> p x = true) -> filter p l = l.
Proof.
  induction l as [| a l IH]; intros H; simpl; auto.
  rewrite (H a (or_introl eq_refl)), IH by (intros; apply H; right; auto).
  reflexivity.
Qed.

(** The labels the code computes on lines 301-309: the suffixed attribute
    columns, then the geometry column under the label it has in [df1]. *)
Lemma empty_merge_labels_schema df1 df2 g1 :
  geometry df1 = ret g1 ->
  NoDup (merged_labels df1 df2) ->
  mem (_geometry_column_name df1) (attribute_labels df2) = false ->
  mem (_geometry_column_name df1) (merged_labels df1 df2) = true /\
  empty_merge_labels df1 df2 false =
  suffixed_attributes df1 df2 ++ [_geometry_column_name df1].
Proof.
  intros Hg Hnd Hattr.
  pose proof (geometry_ret_mem _ _ Hg) as Hin1.
  set (name1 := _geometry_column_name df1) in *.
  set (right := attribute_labels df2) in *.
  set (tr := filter (fun n => mem n right) (gcolumns df1)).
  assert (Htr : forall n, mem n tr = mem n (gcolumns df1) && mem n right).
  { intros n. unfold tr. apply mem_filter. }
  assert (Hself : add_suffix tr "_1" name1 = name1).
  { unfold add_suffix. rewrite Htr, Hattr, andb_false_r. reflexivity. }
  assert (Hml : merged_labels df1 df2 =
                map (add_suffix tr "_1") (gcolumns df1) ++
                map (add_suffix tr "_2") right) by reflexivity.
  rewrite Hml in *.
  assert (HinL : In name1 (map (add_suffix tr "_1") (gcolumns df1))).
  { rewrite <- Hself. apply in_map, mem_In, Hin1. }
  split; [apply mem_In, in_or_app; left; exact HinL |].
  unfold empty_merge_labels, suffixed_attributes, with_pair_index.
  fold name1. rewrite Hml, filter_app. f_equal. f_equal.
  - rewrite (filter_map_ext _ (fun n => negb (mem n [name1]))).
    + apply map_ext_in. intros n Hn. unfold add_suffix, collides.
      rewrite Htr. apply filter_In in Hn. destruct Hn as [Hn Hne].
      fold right. unfold attribute_labels at 1. fold name1.
      fold name1 in Hne. rewrite mem_filter, Hne, andb_true_r. reflexivity.
    + intros n Hn. simpl. rewrite orb_false_r. f_equal.
      destruct (String.eqb_spec n name1) as [-> | Hne].
      * rewrite Hself. apply String.eqb_refl.
      * apply String.eqb_neq. intros Heq. apply Hne.
        apply NoDup_app_remove_r in Hnd.
        apply (NoDup_map_inj _ _ _ _ Hnd Hn (proj1 (mem_In _ _) Hin1)).
        rewrite Hself. exact Heq.
  - rewrite filter_all.
    + apply map_ext_in. intros n Hn. unfold add_suffix, collides.
      rewrite Htr. fold right. fold right in Hn.
      rewrite (proj2 (mem_In _ _) Hn).
      rewrite !andb_true_r. unfold attribute_labels. fold name1.
      rewrite mem_filter.
      destruct (String.eqb_spec n name1) as [-> | Hne].
      * apply mem_In in Hn. congruence.
      * simpl. apply String.eqb_neq in Hne. rewrite Hne. simpl.
        rewrite andb_true_r. reflexivity.
    + intros x Hx. apply negb_true_iff. apply String.eqb_neq. intros ->.
      exact (NoDup_app_apart _ _ _ Hnd HinL Hx).
Qed.

End Fast_path.

Definition is_index_query (e : event) : bool :=
  match e with Sindex_query => true | _ => false end.

(** C5 (code defect).  Take two inputs that pass the family check, whose
    bounding boxes do not overlap, whose merged column labels are distinct
    and where the geometry label of the first input is not a further column
    of the second.  With [how="intersection"] the call returns a zero-row
    frame without any index query (the only possible event is the CRS
    warning), and its attribute columns are those of the unioned, suffixed
    schema.  But the geometry column keeps the label it has in the first
    input: the columns are the schema of the spec exactly when that label is
    "geometry". *)
Theorem C5_fast_path_keeps_the_input_label {K : Kernel} (PANDAS_GE_30 : bool)
    (df1 df2 : GeoDataFrame) (keep_geom_type : option bool)
    (make_valid : bool) (g1 g2 : list cell) :
  geometry df1 = ret g1 ->
  geometry df2 = ret g2 ->
  uniform g1 = true ->
  uniform g2 = true ->
  takes_fast_path "intersection" g1 g2 = true ->
  NoDup (merged_labels df1 df2) ->
  mem (_geometry_column_name df1) (attribute_labels df2) = false ->
  exists r,
    overlay PANDAS_GE_30 df1 df2 "intersection" keep_geom_type make_valid =
      (crs_log df1 df2, inr r) /\
    existsb is_index_query (crs_log df1 df2) = false /\
    gnrows r = 0 /\
    _geometry_column_name r = _geometry_column_name df1 /\
    gcolumns r = suffixed_attributes df1 df2 ++ [_geometry_column_name df1] /\
    (gcolumns r = spec_unioned_schema df1 df2 <->
     _geometry_column_name df1 = "geometry").
Proof.
  intros Hg1 Hg2 U1 U2 Hfast Hnd Hattr.
  destruct (empty_merge_labels_schema df1 df2 g1 Hg1 Hnd Hattr)
    as [Hin Hschema].
  destruct (empty_merge_ok df1 df2 g1 g2 Hg1 Hg2 Hnd Hin) as [r Hr].
  exists r.
  rewrite (overlay_eq PANDAS_GE_30 df1 df2 "intersection" keep_geom_type
             make_valid g1 g2 eq_refl Hg1 Hg2 U1 U2), Hfast, Hr.
  apply empty_merge_inv in Hr. destruct Hr as (_ & Hname & _ & Hrows & Hc).
  simpl. rewrite app_nil_r. rewrite Hc, Hschema.
  split; [reflexivity |].
  split; [unfold crs_log; destruct (_check_crs _ _); reflexivity |].
  split; [exact Hrows |].
  split; [exact Hname |].
  split; [reflexivity |].
  unfold spec_unioned_schema. split.
  - intros H. apply app_inv_head in H. inversion H. reflexivity.
  - intros ->. reflexivity.
Qed.

Lemma C5_witness :
  takes_fast_path "intersection" [Toy.poly Toy.P1] [Toy.poly Toy.Far] = true /\
  spec_unioned_schema (Toy.one_row "geom" Toy.P1 "a")
                      (Toy.one_row "geometry" Toy.Far "b")
    = ["a"; "b"; "geometry"] /\
  (exists r,
     overlay true (Toy.one_row "geom" Toy.P1 "a")
                  (Toy.one_row "geometry" Toy.Far "b")
                  "intersection" None true = ([], inr r) /\
     gnrows r = 0 /\
     gcolumns r = ["a"; "b"; "geom"]) /\
  (exists r,
     overlay true (Toy.one_row "geom" Toy.P1 "a")
                  (Toy.one_row "geometry" Toy.Q1 "b")
                  "intersection" None true = ([Sindex_query], inr r) /\
     gnrows r = 1 /\
     gcolumns r = ["a"; "b"; "geometry"]).
Proof.
  split; [reflexivity | split; [reflexivity | split]].
  - destruct (C5_fast_path_keeps_the_input_label true
                (Toy.one_row "geom" Toy.P1 "a")
                (Toy.one_row "geometry" Toy.Far "b") None true
                [Toy.poly Toy.P1] [Toy.poly Toy.Far]
                eq_refl eq_refl eq_refl eq_refl eq_refl)
      as (r & Hr & _ & Hrows & _ & Hcols & _).
    + repeat constructor; simpl; intuition discriminate.
    + reflexivity.
    + exists r. split; [exact Hr | split; [exact Hrows | exact Hcols]].
  - exists (value Toy.no_rows
              (overlay true (Toy.one_row "geom" Toy.P1 "a")
                 (Toy.one_row "geometry" Toy.Q1 "b") "intersection" None true)).
    split; [apply run_eq; vm_compute; reflexivity |].
    split; vm_compute; reflexivity.
Defined.

(** ** The labels of the result of [overlay] *)

Section Result_labels.
Context {K : Kernel}.
Variable PANDAS_GE_30 : bool.

Lemma gdrop_inv labels g l r :
  gdrop labels g = (l, inr r) ->
  l = [] /\
  gcolumns r = filter (fun n => negb (mem n labels)) (gcolumns g) /\
  _geometry_column_name r = _geometry_column_name g /\ crs r = crs g.
Proof.
  unfold gdrop. intros H. mstep H as l1 d Hd.
  pose proof (drop_columns _ _ _ _ Hd) as Hc.
  apply drop_inv in Hd. destruct Hd as [-> _].
  inversion H; subst. auto.
Qed.

(** Lines 334-361: the frame that comes back carries the labels of the
    frame the builder made, the pair-index columns apart. *)
Lemma overlay_main_inr df1 df2 how kgt mv l r :
  overlay_main PANDAS_GE_30 df1 df2 how kgt mv = (l, inr r) ->
  exists df1' df2' lb res,
    gcolumns df1' = gcolumns df1 /\
    _geometry_column_name df1' = _geometry_column_name df1 /\
    gcolumns df2' = gcolumns df2 /\
    _geometry_column_name df2' = _geometry_column_name df2 /\
    (if String.eqb how "difference" then _overlay_difference df1' df2'
     else if String.eqb how "intersection"
          then _overlay_intersection df1' df2'
     else if String.eqb how "symmetric_difference"
          then _overlay_symmetric_diff PANDAS_GE_30 df1' df2'
     else if String.eqb how "union" then _overlay_union PANDAS_GE_30 df1' df2'
     else _overlay_identity PANDAS_GE_30 df1' df2') = (lb, inr res) /\
    _geometry_column_name r = _geometry_column_name res /\
    gcolumns r =
    (if mem how ["intersection"; "symmetric_difference"; "union"; "identity"]
     then filter (fun n => negb (mem n ["__idx1"; "__idx2"])) (gcolumns res)
     else gcolumns res).
Proof.
  unfold overlay_main. cbv zeta. intros H.
  mstep H as l0 t Ht. clear Ht.
  mstep H as l1 df1' H1. apply _make_valid_inr in H1.
  destruct H1 as (_ & Hc1 & Hn1 & _).
  mstep H as l2 df2' H2. apply _make_valid_inr in H2.
  destruct H2 as (_ & Hc2 & Hn2 & _).
  mstep H as lb res Hres.
  mstep H as l4 res' Hdrop.
  mstep H as l5 res'' Hext.
  inversion H; subst; clear H.
  exists df1', df2', lb, res. repeat split; auto.
  - cbn [_geometry_column_name with_frame].
    assert (Hn' : _geometry_column_name res' = _geometry_column_name res).
    { destruct (mem how _); [| inversion Hdrop; reflexivity].
      apply gdrop_inv in Hdrop. tauto. }
    rewrite <- Hn'.
    destruct (fst (keep_geom_type_flags kgt)); [| inversion Hext; reflexivity].
    apply _collection_extract_inr in Hext.
    destruct Hext as (fam & g & Hg & _ & _ & ->).
    apply (extract_frame_columns _ fam _ Hg).
  - change (gcolumns (with_frame res'' (reset_index (frame res''))))
      with (gcolumns res'').
    assert (Hc' : gcolumns res'' = gcolumns res').
    { destruct (fst (keep_geom_type_flags kgt));
        [| inversion Hext; reflexivity].
      apply _collection_extract_inr in Hext.
      destruct Hext as (fam & g & Hg & _ & _ & ->).
      apply (extract_frame_columns _ fam _ Hg). }
    rewrite Hc'.
    destruct (mem how _); [| inversion Hdrop; reflexivity].
    apply gdrop_inv in Hdrop. tauto.
Qed.

End Result_labels.


(** ** Whether the intersection frame is built on pairs (lines 38-40) *)

Section Pairs.
Context {K : Kernel}.
Variable PANDAS_GE_30 : bool.















End Pairs.





(** C6 (code defect).  The first input names its geometry column "geom".
    Against a second input it does not meet, the intersection builder
    returns a zero-row frame whose last column is "geom"; against a second
    input with the same schema that it meets, the builder returns a frame
    whose last column is "geometry".  Once the pair-index columns are
    dropped, the two column lists differ. *)
Theorem C6_empty_schema_keeps_the_input_label :
  gcolumns (Toy.one_row "geometry" Toy.Far "b") =
  gcolumns (Toy.one_row "geometry" Toy.Q1 "b") /\
  exists r_empty r_full,
    _overlay_intersection (Toy.one_row "geom" Toy.P1 "a")
                          (Toy.one_row "geometry" Toy.Far "b")
      = ([Sindex_query], inr r_empty) /\
    _overlay_intersection (Toy.one_row "geom" Toy.P1 "a")
                          (Toy.one_row "geometry" Toy.Q1 "b")
      = ([Sindex_query], inr r_full) /\
    gnrows r_empty = 0 /\
    gnrows r_full = 1 /\
    filter (fun n => negb (mem n ["__idx1"; "__idx2"])) (gcolumns r_empty)
      = ["a"; "b"; "geom"] /\
    filter (fun n => negb (mem n ["__idx1"; "__idx2"])) (gcolumns r_full)
      = ["a"; "b"; "geometry"].
Proof. split; [reflexivity |]. eexists. eexists. repeat split. Qed.

(** C8 (code defect).  Same inputs: a first input whose geometry column is
    "geom" and a second input it does not meet, default flags.  The
    intersection has no row and the symmetric difference has two, but the
    union has none: its rows carry their geometry under "geometry" while
    the frame, built around the zero-row intersection, has "geom" as its
    geometry column, so the type filter drops them all. *)
Theorem C8_union_loses_the_rows :
  exists r_union r_inter r_sym log_union log_sym,
    overlay true (Toy.one_row "geom" Toy.P1 "a")
                 (Toy.one_row "geometry" Toy.Far "b") "union" None true
      = (log_union, inr r_union) /\
    overlay true (Toy.one_row "geom" Toy.P1 "a")
                 (Toy.one_row "geometry" Toy.Far "b") "intersection" None true
      = ([], inr r_inter) /\
    overlay true (Toy.one_row "geom" Toy.P1 "a")
                 (Toy.one_row "geometry" Toy.Far "b")
                 "symmetric_difference" None true
      = (log_sym, inr r_sym) /\
    gnrows r_union = 0 /\
    gnrows r_inter = 0 /\
    gnrows r_sym = 2 /\
    _geometry_column_name r_union = "geom" /\
    In (Warn_dropped_geometries 2) log_union.
Proof.
  set (A := Toy.one_row "geom" Toy.P1 "a").
  set (B := Toy.one_row "geometry" Toy.Far "b").
  exists (value Toy.no_rows (overlay true A B "union" None true)),
         (value Toy.no_rows (overlay true A B "intersection" None true)),
         (value Toy.no_rows
            (overlay true A B "symmetric_difference" None true)),
         (fst (overlay true A B "union" None true)),
         (fst (overlay true A B "symmetric_difference" None true)).
  split; [apply run_eq; vm_compute; reflexivity |].
  split; [apply run_eq; vm_compute; reflexivity |].
  split; [apply run_eq; vm_compute; reflexivity |].
  split; [vm_compute; reflexivity |].
  split; [vm_compute; reflexivity |].
  split; [vm_compute; reflexivity |].
  split; [vm_compute; reflexivity |].
  vm_compute. auto.
Qed.

(** * The module over a store of objects

    The definitions above pass frames by value.  To follow the statements
    that assign in place, the module is written once more over a store: a
    frame that is an argument or a result of one of its functions, and
    every object it assigns to in place, is a reference into the store.

    Modelled from the spec (section 5, defensive copies): [copy()] yields a
    new object that shares nothing with its source, and so do a constructor
    and a method called without [inplace=True]; [df.geometry], [df[col]]
    and the other reads yield values.  The module assigns in place to no
    series it has read from a frame: the series of lines 42-47, 102 and
    149-151 are built by take, intersection, the GeoSeries constructor and
    copy. *)

Definition ref := nat.

(** The objects of one kind: the next free reference and the objects in
    place. *)
Record space (T : Type) := mkSpace {
  next_ref : ref;
  obj : ref -> T
}.
Arguments mkSpace {T}.
Arguments next_ref {T}.
Arguments obj {T}.

Definition with_new {T} (s : space T) (v : T) : space T :=
  mkSpace (S (next_ref s)) (fun q => if q =? next_ref s then v else obj s q).

Definition with_obj {T} (s : space T) (p : ref) (v : T) : space T :=
  mkSpace (next_ref s) (fun q => if q =? p then v else obj s q).

Section Store.
Context {K : Kernel}.

(** Geo frames, plain frames, series, and the exploded parts of
    [_collection_extract]. *)
Record heap := mkHeap {
  frames : space GeoDataFrame;
  tables : space DataFrame;
  series : space (list cell);
  exploded_parts : space (list (nat * cell))
}.

(** A computation over the store: the events, and an exception or a result
    with the store it leaves. *)
Definition St (A : Type) : Type := heap -> list event * (exn + A * heap).

Definition sret {A} (a : A) : St A := fun h => ([], inr (a, h)).

Definition sbind {A B} (m : St A) (f : A -> St B) : St B := fun h =>
  match m h with
  | (l1, inl e) => (l1, inl e)
  | (l1, inr (a, h1)) =>
      match f a h1 with
      | (l2, r) => (l1 ++ l2, r)
      end
  end.

(** a computation that does not touch the store *)
Definition lift {A} (m : M A) : St A := fun h =>
  match m with
  | (l, inl e) => (l, inl e)
  | (l, inr a) => (l, inr (a, h))
  end.

Definition new_frame (v : GeoDataFrame) : St ref := fun h =>
  ([], inr (next_ref (frames h),
            mkHeap (with_new (frames h) v) (tables h) (series h)
              (exploded_parts h))).

Definition frame_at (p : ref) : St GeoDataFrame := fun h =>
  ([], inr (obj (frames h) p, h)).

Definition set_frame (p : ref) (v : GeoDataFrame) : St unit := fun h =>
  ([], inr (tt, mkHeap (with_obj (frames h) p v) (tables h) (series h)
                  (exploded_parts h))).

Definition new_table (v : DataFrame) : St ref := fun h =>
  ([], inr (next_ref (tables h),
            mkHeap (frames h) (with_new (tables h) v) (series h)
              (exploded_parts h))).

Definition table_at (p : ref) : St DataFrame := fun h =>
  ([], inr (obj (tables h) p, h)).

Definition set_table (p : ref) (v : DataFrame) : St unit := fun h =>
  ([], inr (tt, mkHeap (frames h) (with_obj (tables h) p v) (series h)
                  (exploded_parts h))).

Definition new_series (v : list cell) : St ref := fun h =>
  ([], inr (next_ref (series h),
            mkHeap (frames h) (tables h) (with_new (series h) v)
              (exploded_parts h))).

Definition series_at (p : ref) : St (list cell) := fun h =>
  ([], inr (obj (series h) p, h)).

Definition set_series (p : ref) (v : list cell) : St unit := fun h =>
  ([], inr (tt, mkHeap (frames h) (tables h) (with_obj (series h) p v)
                  (exploded_parts h))).

Definition new_exploded (v : list (nat * cell)) : St ref := fun h =>
  ([], inr (next_ref (exploded_parts h),
            mkHeap (frames h) (tables h) (series h)
              (with_new (exploded_parts h) v))).

Definition exploded_at (p : ref) : St (list (nat * cell)) := fun h =>
  ([], inr (obj (exploded_parts h) p, h)).

Definition set_exploded (p : ref) (v : list (nat * cell)) : St unit := fun h =>
  ([], inr (tt, mkHeap (frames h) (tables h) (series h)
                  (with_obj (exploded_parts h) p v))).

End Store.

Declare Scope store_scope.
Delimit Scope store_scope with store.
Notation "x <- c1 ;; c2" := (sbind c1 (fun x => c2))
  (at level 61, c1 at next level, right associativity) : store_scope.
Notation "c1 ;;; c2" := (sbind c1 (fun _ => c2))
  (at level 61, right associativity) : store_scope.

Section Module_over_the_store.
Context {K : Kernel}.
Variable PANDAS_GE_30 : bool.
Local Open Scope store_scope.

(** Lines 18-32: the first branch builds new frames, the second one changes
    [df] itself. *)
Definition _ensure_geometry_column_st (df : ref) : St ref :=
  d <- frame_at df ;;
  if negb (String.eqb (_geometry_column_name d) "geometry") then
    if PANDAS_GE_30 then
      df <- (if mem "geometry" (gcolumns d)
             then d' <- lift (gdrop ["geometry"] d) ;; new_frame d'
             else sret df) ;;
      d <- frame_at df ;;
      d' <- lift (rename_geometry "geometry" d) ;;
      new_frame d'
    else
      (if mem "geometry" (gcolumns d)
       then d' <- lift (gdrop ["geometry"] d) ;; set_frame df d'
       else sret tt) ;;;
      d <- frame_at df ;;
      d' <- lift (rename_geometry "geometry" d) ;;
      set_frame df d' ;;;
      sret df
  else sret df.

(** Lines 70-80 and 301-309: [result] is the frame the merge builds; the
    two assignments of lines 76-77 change it in place. *)
Definition empty_merge_st (df1 df2 : ref) (pair_index : bool) : St ref :=
  d1 <- frame_at df1 ;;
  d2 <- frame_at df2 ;;
  _ <- lift (geometry d2) ;;
  right <- lift (drop [_geometry_column_name d2] (iloc_none (frame d2))) ;;
  merged <- lift (merge_on_index (iloc_none (frame d1)) right ("_1", "_2")) ;;
  result <- new_table merged ;;
  (if pair_index then
     r <- table_at result ;;
     set_table result (setitem "__idx1" (repeat NA (nrows r)) r) ;;;
     r <- table_at result ;;
     set_table result (setitem "__idx2" (repeat NA (nrows r)) r)
   else sret tt) ;;;
  r <- table_at result ;;
  _ <- lift (geometry d1) ;;
  names <- lift (columns_drop (_geometry_column_name d1) (columns r)) ;;
  r' <- lift (getitem (names ++ [_geometry_column_name d1]) r) ;;
  new_frame (with_frame d1 r').

(** Lines 35-80.  [left], [right] and [intersections] are series the
    builder has just made (take, intersection); lines 42, 44 and 47 assign
    to them. *)
Definition _overlay_intersection_st (df1 df2 : ref) : St ref :=
  d1 <- frame_at df1 ;;
  d2 <- frame_at df2 ;;
  g2 <- lift (geometry d2) ;;
  g1 <- lift (geometry d1) ;;
  idx <- lift (sindex_query g2 g1) ;;
  let idx1 := fst idx in
  let idx2 := snd idx in
  if (0 <? length idx1) && (0 <? length idx2) then
    left <- new_series (take idx1 g1) ;;
    s <- series_at left ;;
    set_series left s ;;;
    right <- new_series (take idx2 g2) ;;
    s <- series_at right ;;
    set_series right s ;;;
    l <- series_at left ;;
    r <- series_at right ;;
    intersections <- new_series (series_intersection l r) ;;
    s <- series_at intersections ;;
    set_series intersections (repair_polygons s) ;;;
    let pairs_intersect :=
      mkDataFrame (map Z.of_nat (range (length idx1)))
        [("__idx1", map (fun i => Num (Z.of_nat i)) idx1);
         ("__idx2", map (fun i => Num (Z.of_nat i)) idx2)] in
    geom_intersect <- series_at intersections ;;
    let d1 := with_frame d1 (reset_index (frame d1)) in
    let d2 := with_frame d2 (reset_index (frame d2)) in
    a1 <- lift (drop [_geometry_column_name d1] (frame d1)) ;;
    dfinter <- lift (merge_left_on_right_index pairs_intersect a1 "__idx1"
                       ("_x", "_y")) ;;
    a2 <- lift (drop [_geometry_column_name d2] (frame d2)) ;;
    dfinter <- lift (merge_left_on_right_index dfinter a2 "__idx2"
                       ("_1", "_2")) ;;
    new_frame (GeoDataFrame_of dfinter geom_intersect (crs d1))
  else
    empty_merge_st df1 df2 true.

(** Lines 83-106.  [differences] is a series the builder constructs (line
    100) and assigns to (line 102); [dfdiff] is a copy of the rows of [df1]
    that are kept (line 104), and line 105 assigns to the copy. *)
Definition _overlay_difference_st (df1 df2 : ref) : St ref :=
  d1 <- frame_at df1 ;;
  d2 <- frame_at df2 ;;
  g2 <- lift (geometry d2) ;;
  g1 <- lift (geometry d1) ;;
  idx <- lift (sindex_query g2 g1) ;;
  let idx1 := fst idx in
  let idx2 := snd idx in
  let idx1_unique := fst (np_unique idx1) in
  let idx1_unique_indices := snd (np_unique idx1) in
  let idx2_split := np_split idx2 (tl idx1_unique_indices) in
  sidx <- lift (sidx_comprehension (range (length g1)) idx1_unique
                  idx2_split) ;;
  new_g <- lift (differences_loop (combine g1 sidx) g2) ;;
  differences <- new_series new_g ;;
  s <- series_at differences ;;
  set_series differences (repair_polygons s) ;;;
  s <- series_at differences ;;
  let keep := map (fun c => negb (cell_is_empty c)) s in
  geom_diff <- new_series (select keep s) ;;
  dfdiff <- new_frame (with_frame d1 (loc_mask keep (frame d1))) ;;
  d <- frame_at dfdiff ;;
  v <- series_at geom_diff ;;
  set_frame dfdiff
    (with_frame d (setitem (_geometry_column_name d) v (frame d))) ;;;
  sret dfdiff.

(** Lines 109-130.  Line 113 may change [dfdifference] in place, line 121
    does. *)
Definition _overlay_identity_st (df1 df2 : ref) : St ref :=
  dfintersection <- _overlay_intersection_st df1 df2 ;;
  dfdifference <- _overlay_difference_st df1 df2 ;;
  dfdifference <- _ensure_geometry_column_st dfdifference ;;
  di <- frame_at dfintersection ;;
  dd <- frame_at dfdifference ;;
  let new_columns :=
    map (fun col => if mem col (gcolumns di) then col
                    else String.append col "_1") (gcolumns dd) in
  set_frame dfdifference (with_frame dd (set_columns new_columns (frame dd))) ;;;
  dd <- frame_at dfdifference ;;
  let result := gconcat di dd in
  columns <- lift (geometry_last (gcolumns di)) ;;
  new_frame (with_frame result (reindex_columns columns (frame result))).

(** Lines 133-157.  Lines 137-140 assign to the two difference frames,
    lines 142-143 may change them in place; [dfsym] is the frame the outer
    merge builds, changed in place on lines 154-155; [geometry] is a copy of
    a column of [dfsym], assigned to on lines 149 and 151. *)
Definition _overlay_symmetric_diff_st (df1 df2 : ref) : St ref :=
  dfdiff1 <- _overlay_difference_st df1 df2 ;;
  dfdiff2 <- _overlay_difference_st df2 df1 ;;
  d <- frame_at dfdiff1 ;;
  set_frame dfdiff1
    (gsetitem "__idx1" (map (fun i => Num (Z.of_nat i)) (range (gnrows d))) d) ;;;
  d <- frame_at dfdiff2 ;;
  set_frame dfdiff2
    (gsetitem "__idx2" (map (fun i => Num (Z.of_nat i)) (range (gnrows d))) d) ;;;
  d <- frame_at dfdiff1 ;;
  set_frame dfdiff1 (gsetitem "__idx2" (repeat NA (gnrows d)) d) ;;;
  d <- frame_at dfdiff2 ;;
  set_frame dfdiff2 (gsetitem "__idx1" (repeat NA (gnrows d)) d) ;;;
  dfdiff1 <- _ensure_geometry_column_st dfdiff1 ;;
  dfdiff2 <- _ensure_geometry_column_st dfdiff2 ;;
  e1 <- frame_at dfdiff1 ;;
  e2 <- frame_at dfdiff2 ;;
  merged <- lift (merge_outer_on (frame e1) (frame e2) "__idx1" "__idx2"
                    ("_1", "_2")) ;;
  dfsym <- new_table merged ;;
  t <- table_at dfsym ;;
  geometry_1 <- lift (getattr_col "geometry_1" t) ;;
  geometry <- new_series geometry_1 ;;
  s <- series_at geometry ;;
  set_series geometry s ;;;
  geometry_2 <- lift (getcol "geometry_2" t) ;;
  s <- series_at geometry ;;
  set_series geometry
    (map (fun p => if isnull (fst p) then snd p else fst p)
         (combine s geometry_2)) ;;;
  t' <- lift (drop ["geometry_1"; "geometry_2"] t) ;;
  set_table dfsym t' ;;;
  t <- table_at dfsym ;;
  set_table dfsym (reset_index t) ;;;
  t <- table_at dfsym ;;
  s <- series_at geometry ;;
  d1 <- frame_at df1 ;;
  new_frame (GeoDataFrame_of t s (crs d1)).

(** Lines 160-169. *)
Definition _overlay_union_st (df1 df2 : ref) : St ref :=
  dfinter <- _overlay_intersection_st df1 df2 ;;
  dfsym <- _overlay_symmetric_diff_st df1 df2 ;;
  di <- frame_at dfinter ;;
  ds <- frame_at dfsym ;;
  let dfunion := gconcat di ds in
  columns <- lift (geometry_last (gcolumns dfunion)) ;;
  new_frame (with_frame dfunion (reindex_columns columns (frame dfunion))).

(** Lines 364-423.  [result] is a copy of [df] (line 375); line 401 assigns
    to the copy, line 390 to the exploded parts, and line 410 selects the
    rows into a new frame. *)
Definition _collection_extract_st (df : ref)
    (geom_type_ : option GeomType) (keep_geom_type_warning : bool)
  : St ref :=
  geom_types <-
    lift (if isin POLYGON_GEOM_TYPES geom_type_ then ret POLYGON_GEOM_TYPES
          else if isin LINE_GEOM_TYPES geom_type_ then ret LINE_GEOM_TYPES
          else if isin POINT_GEOM_TYPES geom_type_ then ret POINT_GEOM_TYPES
          else raise TypeError_geom_type) ;;
  d <- frame_at df ;;
  result <- new_frame d ;;
  r <- frame_at result ;;
  types <- lift (geom_type r) ;;
  let is_collection := map (isin [GeometryCollection]) types in
  num_dropped_collection <-
    (if any is_collection then
       let geom_col := _geometry_column_name r in
       g <- lift (geometry r) ;;
       let collections := select is_collection g in
       exploded <- new_exploded (explode collections) ;;
       e <- exploded_at exploded ;;
       let orig_num_geoms_exploded := length e in
       set_exploded exploded
         (map (fun p => if isin geom_types (cell_geom_type (snd p))
                        then p else (fst p, NA)) e) ;;;
       e <- exploded_at exploded ;;
       let num_dropped_collection :=
         orig_num_geoms_exploded
         - count_true (map (fun p => isnull (snd p)) e) in
       let dissolved := dissolve (length collections) e in
       r <- frame_at result ;;
       set_frame result
         (gsetitem geom_col (loc_assign is_collection dissolved g) r) ;;;
       sret num_dropped_collection
     else sret 0) ;;
  r <- frame_at result ;;
  let orig_num_geoms := gnrows r in
  types <- lift (geom_type r) ;;
  result <-
    new_frame
      (with_frame r (loc_mask (map (isin geom_types) types) (frame r))) ;;
  r <- frame_at result ;;
  let num_dropped := orig_num_geoms - gnrows r in
  lift (when (((0 <? num_dropped) || (0 <? num_dropped_collection))
              && keep_geom_type_warning)
          (emit (Warn_dropped_geometries
                   (num_dropped + num_dropped_collection)))) ;;;
  sret result.

(** Lines 312-332: the copy of line 313 comes first; line 318 assigns to
    the copy. *)
Definition _make_valid_st (make_valid : bool) (df : ref) : St ref :=
  d <- frame_at df ;;
  df <- new_frame d ;;
  d <- frame_at df ;;
  types <- lift (geom_type d) ;;
  if all (map (isin POLYGON_GEOM_TYPES) types) then
    g <- lift (geometry d) ;;
    let mask := map (fun c => negb (cell_is_valid c)) g in
    let col := _geometry_column_name d in
    if make_valid then
      set_frame df
        (gsetitem col
           (map (fun p : bool * cell =>
                   if fst p then cell_make_valid (snd p) else snd p)
                (combine mask g)) d) ;;;
      if any mask then _collection_extract_st df (Some Polygon) false
      else sret df
    else if any mask then
      lift (raise (ValueError_invalid_geometries (count_true mask)))
    else sret df
  else sret df.

(** Lines 334-361.  [_make_valid] hands over copies; lines 355 and 360
    change [result], the frame the builder returned, in place. *)
Definition overlay_main_st (df1 df2 : ref) (how : string)
    (keep_geom_type : option bool) (make_valid : bool) : St ref :=
  let keep_geom_type_warning := snd (keep_geom_type_flags keep_geom_type) in
  let keep_geom_type := fst (keep_geom_type_flags keep_geom_type) in
  d1 <- frame_at df1 ;;
  geom_type_ <-
    lift (if keep_geom_type then
            types <- geom_type d1 ;;
            match types with
            | [] => raise IndexError
            | t :: _ => ret t
            end
          else ret None)%overlay ;;
  df1 <- _make_valid_st make_valid df1 ;;
  df2 <- _make_valid_st make_valid df2 ;;
  result <-
    (if String.eqb how "difference" then _overlay_difference_st df1 df2
     else if String.eqb how "intersection"
          then _overlay_intersection_st df1 df2
     else if String.eqb how "symmetric_difference"
          then _overlay_symmetric_diff_st df1 df2
     else if String.eqb how "union" then _overlay_union_st df1 df2
     else _overlay_identity_st df1 df2) ;;
  (if mem how ["intersection"; "symmetric_difference"; "union"; "identity"]
   then r <- frame_at result ;;
        r' <- lift (gdrop ["__idx1"; "__idx2"] r) ;;
        set_frame result r'
   else sret tt) ;;;
  result <-
    (if keep_geom_type
     then _collection_extract_st result geom_type_ keep_geom_type_warning
     else sret result) ;;
  r <- frame_at result ;;
  set_frame result (with_frame r (reset_index (frame r))) ;;;
  sret result.

(** Lines 172-361. *)
Definition overlay_st (df1 df2 : ref) (how : string)
    (keep_geom_type : option bool) (make_valid : bool) : St ref :=
  if negb (mem how allowed_hows) then lift (raise (ValueError_how how)) else
  d1 <- frame_at df1 ;;
  d2 <- frame_at df2 ;;
  lift (when (negb (_check_crs (crs d1) (crs d2))) (emit Warn_crs_mismatch)) ;;;
  lift (check_uniform 0 d1) ;;;
  lift (check_uniform 1 d2) ;;;
  early <-
    (if String.eqb how "intersection" then
       box_gdf1 <- lift (total_bounds d1) ;;
       box_gdf2 <- lift (total_bounds d2) ;;
       if negb (boxes_overlap box_gdf1 box_gdf2) then
         result <- empty_merge_st df1 df2 false ;;
         sret (Some result)
       else sret None
     else sret None) ;;
  match early with
  | Some result => sret result
  | None => overlay_main_st df1 df2 how keep_geom_type make_valid
  end.

End Module_over_the_store.

(** ** Running the module over the store *)

Lemma obj_with_new_same {T} (s : space T) v : obj (with_new s v) (next_ref s) = v.
Proof. unfold with_new. cbn [obj]. rewrite Nat.eqb_refl. reflexivity. Qed.

Lemma obj_with_new_other {T} (s : space T) v p :
  p <> next_ref s -> obj (with_new s v) p = obj s p.
Proof.
  intros H. unfold with_new. cbn [obj].
  destruct (Nat.eqb_spec p (next_ref s)); [contradiction | reflexivity].
Qed.

Lemma obj_with_obj_same {T} (s : space T) p v : obj (with_obj s p v) p = v.
Proof. unfold with_obj. cbn [obj]. rewrite Nat.eqb_refl. reflexivity. Qed.

Lemma obj_with_obj_other {T} (s : space T) p q v :
  q <> p -> obj (with_obj s p v) q = obj s q.
Proof.
  intros H. unfold with_obj. cbn [obj].
  destruct (Nat.eqb_spec q p); [contradiction | reflexivity].
Qed.

Lemma next_ref_with_new {T} (s : space T) v : next_ref (with_new s v) = S (next_ref s).
Proof. reflexivity. Qed.

Lemma next_ref_with_obj {T} (s : space T) p v : next_ref (with_obj s p v) = next_ref s.
Proof. reflexivity. Qed.

Ltac heap_arith :=
  cbn [frames tables series exploded_parts next_ref with_new with_obj] in *; lia.

(** reads of a store after allocations and assignments *)
Ltac heap_simpl :=
  cbn [frames tables series exploded_parts];
  repeat (first [ rewrite obj_with_obj_same
                | rewrite obj_with_new_same
                | rewrite next_ref_with_new
                | rewrite next_ref_with_obj
                | rewrite obj_with_obj_other by heap_arith
                | rewrite obj_with_new_other by heap_arith ];
          cbn [frames tables series exploded_parts]).

Ltac heap_simpl_in H :=
  cbn [frames tables series exploded_parts] in H;
  repeat (first [ rewrite obj_with_obj_same in H
                | rewrite obj_with_new_same in H
                | rewrite next_ref_with_new in H
                | rewrite next_ref_with_obj in H
                | rewrite obj_with_obj_other in H by heap_arith
                | rewrite obj_with_new_other in H by heap_arith ];
          cbn [frames tables series exploded_parts] in H).

Section Store_runs.
Context {K : Kernel}.
Variable PANDAS_GE_30 : bool.
Local Open Scope store_scope.

Lemma sbind_inr {A B} (m : St A) (f : A -> St B) h l b h' :
  sbind m f h = (l, inr (b, h')) ->
  exists l1 a h1 l2,
    m h = (l1, inr (a, h1)) /\ f a h1 = (l2, inr (b, h')) /\ l = l1 ++ l2.
Proof.
  unfold sbind. destruct (m h) as [l1 [e | [a h1]]]; [discriminate |].
  destruct (f a h1) as [l2 r] eqn:E. intros H. inversion H; subst.
  exists l1, a, h1, l2. auto.
Qed.

Lemma lift_inr {A} (m : M A) h l a h' :
  lift m h = (l, inr (a, h')) -> m = (l, inr a) /\ h' = h.
Proof.
  unfold lift. destruct m as [l0 [e | a0]]; intros H; inversion H; auto.
Qed.

Lemma bind_eq {A B} (m : M A) (f : A -> M B) l1 a l2 r :
  m = (l1, inr a) -> f a = (l2, r) -> bind m f = (l1 ++ l2, r).
Proof. intros -> H. unfold bind. rewrite H. reflexivity. Qed.

Lemma run_inv {A} (l1 l2 : list event) (a1 a2 : A) (h1 h2 : heap) :
  (l1, @inr exn (A * heap) (a1, h1)) = (l2, inr (a2, h2)) ->
  l1 = l2 /\ a1 = a2 /\ h1 = h2.
Proof. intros H. inversion H. auto. Qed.

(** The frames that were in the store are still there, unchanged. *)
Definition stable (h h' : heap) : Prop :=
  next_ref (frames h) <= next_ref (frames h') /\
  forall p, p < next_ref (frames h) -> obj (frames h') p = obj (frames h) p.

Lemma stable_refl h : stable h h.
Proof. split; auto. Qed.

Lemma stable_trans h1 h2 h3 : stable h1 h2 -> stable h2 h3 -> stable h1 h3.
Proof.
  intros [H1 H1'] [H2 H2']. split; [lia |].
  intros p Hp. rewrite H2' by lia. apply H1', Hp.
Qed.

End Store_runs.

(** one statement of a run that returns: a read, an allocation or an
    assignment *)
Ltac st_prim H :=
  let l1 := fresh "first" in
  let a := fresh "value" in
  let h1 := fresh "store" in
  let l2 := fresh "rest" in
  let Hm := fresh "Hprim" in
  let E := fresh "Elog" in
  apply sbind_inr in H; destruct H as (l1 & a & h1 & l2 & Hm & H & E);
  cbv [new_frame frame_at set_frame new_table table_at set_table
       new_series series_at set_series new_exploded exploded_at
       set_exploded sret] in Hm;
  apply run_inv in Hm; destruct Hm as (<- & <- & <-); cbn [app] in E; subst.

(** the last statement of a run *)
Ltac st_done H :=
  cbv [new_frame frame_at set_frame new_table table_at set_table
       new_series series_at set_series new_exploded exploded_at
       set_exploded sret] in H;
  apply run_inv in H; destruct H as (<- & <- & <-).

Ltac log_norm := rewrite ?app_nil_r; cbn [app]; rewrite <- ?app_assoc.

(** a store that differs by new frames only *)
Ltac stable_tac :=
  split; heap_simpl; [lia | intros ? ?; heap_simpl; reflexivity].

(** a statement that does not touch the store *)
Tactic Notation "st_lift" hyp(H) "as" ident(l1) ident(a) ident(Ha) :=
  let h1 := fresh "store" in
  let l2 := fresh "rest" in
  let E := fresh "Elog" in
  let Eh := fresh "Estore" in
  apply sbind_inr in H; destruct H as (l1 & a & h1 & l2 & Ha & H & E);
  apply lift_inr in Ha; destruct Ha as [Ha Eh]; subst h1;
  rewrite E; clear E.

(** a call of a function of the module *)
Tactic Notation "st_call" hyp(H) "as" ident(l1) ident(a) ident(h1) ident(Ha) :=
  let l2 := fresh "rest" in
  let E := fresh "Elog" in
  apply sbind_inr in H; destruct H as (l1 & a & h1 & l2 & Ha & H & E);
  rewrite E; clear E.

Section Store_specs.
Context {K : Kernel}.
Variable PANDAS_GE_30 : bool.
Local Open Scope store_scope.

Lemma _ensure_geometry_column_st_inv q h l a h' :
  q < next_ref (frames h) ->
  _ensure_geometry_column_st PANDAS_GE_30 q h = (l, inr (a, h')) ->
  _ensure_geometry_column PANDAS_GE_30 (obj (frames h) q)
    = (l, inr (obj (frames h') a)) /\
  (a = q \/ next_ref (frames h) <= a) /\ a < next_ref (frames h') /\
  next_ref (frames h) <= next_ref (frames h') /\
  forall p, p < next_ref (frames h) -> p <> q ->
            obj (frames h') p = obj (frames h) p.
Proof.
  intros Hq H. unfold _ensure_geometry_column_st in H.
  unfold _ensure_geometry_column.
  st_prim H.
  destruct (negb (String.eqb (_geometry_column_name (obj (frames h) q))
                    "geometry")).
  - destruct PANDAS_GE_30.
    + destruct (mem "geometry" (gcolumns (obj (frames h) q))).
      * st_call H as la a1 h1 Hm.
        st_lift Hm as l3 d' Hd. st_done Hm.
        st_prim H. heap_simpl_in H.
        st_lift H as l4 d'' Hr. st_done H.
        log_norm. heap_simpl. split.
        { apply (bind_eq _ _ _ _ _ _ Hd). exact Hr. }
        split; [right; lia |]. split; [lia |]. split; [lia |].
        intros p Hp Hne. heap_simpl. reflexivity.
      * st_prim H. st_prim H.
        st_lift H as l4 d'' Hr. st_done H.
        log_norm. heap_simpl. split.
        { rewrite bind_ret. exact Hr. }
        split; [right; lia |]. split; [lia |]. split; [lia |].
        intros p Hp Hne. heap_simpl. reflexivity.
    + destruct (mem "geometry" (gcolumns (obj (frames h) q))).
      * st_call H as la a1 h1 Hm.
        st_lift Hm as l3 d' Hd. st_done Hm.
        st_prim H. heap_simpl_in H.
        st_lift H as l4 d'' Hr. st_prim H. st_done H.
        log_norm. heap_simpl. split.
        { apply (bind_eq _ _ _ _ _ _ Hd). exact Hr. }
        split; [left; reflexivity |]. split; [lia |]. split; [lia |].
        intros p Hp Hne. heap_simpl. reflexivity.
      * st_prim H. st_prim H.
        st_lift H as l4 d'' Hr. st_prim H. st_done H.
        log_norm. heap_simpl. split.
        { rewrite bind_ret. exact Hr. }
        split; [left; reflexivity |]. split; [lia |]. split; [lia |].
        intros p Hp Hne. heap_simpl. reflexivity.
  - st_done H.
    split; [reflexivity |]. split; [left; reflexivity |].
    split; [lia |]. split; [lia |]. reflexivity.
Qed.

(** What a builder gives back: a new frame holding what the function
    returns on the values, in a store that keeps the frames it had. *)
Definition new_result (h : heap) (m : M GeoDataFrame) (l : list event)
    (a : ref) (h' : heap) : Prop :=
  m = (l, inr (obj (frames h') a)) /\
  next_ref (frames h) <= a < next_ref (frames h') /\
  stable h h'.

Lemma stable_new_frame h v t s e :
  stable h (mkHeap (with_new (frames h) v) t s e).
Proof.
  split; heap_simpl; [lia |].
  intros p Hp. heap_simpl. reflexivity.
Qed.

Lemma empty_merge_st_inv df1 df2 b h l a h' :
  empty_merge_st df1 df2 b h = (l, inr (a, h')) ->
  new_result h (empty_merge (obj (frames h) df1) (obj (frames h) df2) b)
    l a h'.
Proof.
  intros H. unfold empty_merge_st in H. unfold empty_merge.
  st_prim H. st_prim H.
  st_lift H as l1 g2 Hg2.
  st_lift H as l2 right Hright.
  st_lift H as l3 merged Hmerged.
  st_prim H.
  destruct b.
  - st_call H as la u h1 Hw. do 3 st_prim Hw. st_done Hw.
    st_prim H. heap_simpl_in H.
    st_lift H as l4 g1 Hg1.
    st_lift H as l5 names Hnames.
    st_lift H as l6 r' Hr'.
    st_done H.
    log_norm. split; [| split].
    + heap_simpl.
      apply (bind_eq _ _ _ _ _ _ Hg2).
      apply (bind_eq _ _ _ _ _ _ Hright).
      apply (bind_eq _ _ _ _ _ _ Hmerged). cbv zeta.
      apply (bind_eq _ _ _ _ _ _ Hg1).
      apply (bind_eq _ _ _ _ _ _ Hnames).
      rewrite <- (app_nil_r l6).
      apply (bind_eq _ _ _ _ _ _ Hr'). reflexivity.
    + heap_simpl. lia.
    + cbn [frames tables series exploded_parts]. apply stable_new_frame.
  - st_prim H. st_prim H. heap_simpl_in H.
    st_lift H as l4 g1 Hg1.
    st_lift H as l5 names Hnames.
    st_lift H as l6 r' Hr'.
    st_done H.
    log_norm. split; [| split].
    + heap_simpl.
      apply (bind_eq _ _ _ _ _ _ Hg2).
      apply (bind_eq _ _ _ _ _ _ Hright).
      apply (bind_eq _ _ _ _ _ _ Hmerged). cbv zeta.
      apply (bind_eq _ _ _ _ _ _ Hg1).
      apply (bind_eq _ _ _ _ _ _ Hnames).
      rewrite <- (app_nil_r l6).
      apply (bind_eq _ _ _ _ _ _ Hr'). reflexivity.
    + heap_simpl. lia.
    + cbn [frames tables series exploded_parts]. apply stable_new_frame.
Qed.

Lemma _overlay_intersection_st_inv df1 df2 h l a h' :
  _overlay_intersection_st df1 df2 h = (l, inr (a, h')) ->
  new_result h
    (_overlay_intersection (obj (frames h) df1) (obj (frames h) df2)) l a h'.
Proof.
  intros H. unfold _overlay_intersection_st in H.
  unfold _overlay_intersection.
  st_prim H. st_prim H.
  st_lift H as l1 g2 Hg2.
  st_lift H as l2 g1 Hg1.
  st_lift H as l3 idx Hidx.
  cbv zeta in H.
  destruct ((0 <? length (fst idx)) && (0 <? length (snd idx))) eqn:Hfound.
  - do 12 st_prim H. heap_simpl_in H.
    st_lift H as l4 a1 Ha1.
    st_lift H as l5 m1 Hm1.
    st_lift H as l6 a2 Ha2.
    st_lift H as l7 m2 Hm2.
    st_done H.
    log_norm. split; [| split].
    + heap_simpl.
      apply (bind_eq _ _ _ _ _ _ Hg2).
      apply (bind_eq _ _ _ _ _ _ Hg1).
      apply (bind_eq _ _ _ _ _ _ Hidx). cbv zeta. rewrite Hfound.
      apply (bind_eq _ _ _ _ _ _ Ha1).
      apply (bind_eq _ _ _ _ _ _ Hm1).
      apply (bind_eq _ _ _ _ _ _ Ha2).
      rewrite <- (app_nil_r l7).
      apply (bind_eq _ _ _ _ _ _ Hm2). reflexivity.
    + heap_simpl. lia.
    + cbn [frames tables series exploded_parts]. apply stable_new_frame.
  - apply empty_merge_st_inv in H. destruct H as (Hp & Hr & Hs).
    split; [| split]; auto.
    apply (bind_eq _ _ _ _ _ _ Hg2).
    apply (bind_eq _ _ _ _ _ _ Hg1).
    apply (bind_eq _ _ _ _ _ _ Hidx). cbv zeta. rewrite Hfound. exact Hp.
Qed.


Lemma _overlay_difference_st_inv df1 df2 h l a h' :
  _overlay_difference_st df1 df2 h = (l, inr (a, h')) ->
  new_result h
    (_overlay_difference (obj (frames h) df1) (obj (frames h) df2)) l a h'.
Proof.
  intros H. unfold _overlay_difference_st in H.
  unfold _overlay_difference.
  st_prim H. st_prim H.
  st_lift H as l1 g2 Hg2.
  st_lift H as l2 g1 Hg1.
  st_lift H as l3 idx Hidx.
  cbv zeta in H.
  st_lift H as l4 sidx Hsidx.
  st_lift H as l5 new_g Hnew.
  do 9 st_prim H. st_done H.
  log_norm. split; [| split].
  - heap_simpl.
    apply (bind_eq _ _ _ _ _ _ Hg2).
    apply (bind_eq _ _ _ _ _ _ Hg1).
    apply (bind_eq _ _ _ _ _ _ Hidx). cbv zeta.
    apply (bind_eq _ _ _ _ _ _ Hsidx).
    rewrite <- (app_nil_r l5).
    apply (bind_eq _ _ _ _ _ _ Hnew). reflexivity.
  - heap_simpl. lia.
  - stable_tac.
Qed.


Lemma _overlay_identity_st_inv df1 df2 h l a h' :
  df1 < next_ref (frames h) -> df2 < next_ref (frames h) ->
  _overlay_identity_st PANDAS_GE_30 df1 df2 h = (l, inr (a, h')) ->
  new_result h
    (_overlay_identity PANDAS_GE_30 (obj (frames h) df1) (obj (frames h) df2))
    l a h'.
Proof.
  intros V1 V2 H. unfold _overlay_identity_st in H.
  unfold _overlay_identity.
  st_call H as l1 a1 h1 Hi. apply _overlay_intersection_st_inv in Hi.
  destruct Hi as (Hi & Ra1 & S1).
  st_call H as l2 a2 h2 Hd. apply _overlay_difference_st_inv in Hd.
  destruct Hd as (Hd & Ra2 & S2).
  rewrite !(proj2 S1) in Hd by lia.
  st_call H as l3 a3 h3 He.
  apply _ensure_geometry_column_st_inv in He; [| lia].
  destruct He as (He & Ra3 & Ra3' & F3 & K3).
  do 4 st_prim H.
  st_lift H as l4 names Hnames. st_done H.
  assert (Ha1 : obj (frames h3) a1 = obj (frames h1) a1).
  { rewrite K3 by (destruct S2; lia). apply (proj2 S2). lia. }
  heap_simpl_in Hnames. rewrite Ha1 in Hnames.
  log_norm. split; [| split].
  - heap_simpl. rewrite Ha1.
    apply (bind_eq _ _ _ _ _ _ Hi).
    apply (bind_eq _ _ _ _ _ _ Hd).
    apply (bind_eq _ _ _ _ _ _ He). cbv zeta.
    rewrite <- (app_nil_r l4).
    apply (bind_eq _ _ _ _ _ _ Hnames). reflexivity.
  - heap_simpl. destruct S1, S2. lia.
  - destruct S1 as [S1 S1'], S2 as [S2 S2']. split.
    + heap_simpl. lia.
    + intros p Hp. heap_simpl.
      rewrite K3 by lia. rewrite S2' by lia. apply S1', Hp.
Qed.


Lemma _overlay_symmetric_diff_st_inv df1 df2 h l a h' :
  df1 < next_ref (frames h) -> df2 < next_ref (frames h) ->
  _overlay_symmetric_diff_st PANDAS_GE_30 df1 df2 h = (l, inr (a, h')) ->
  new_result h
    (_overlay_symmetric_diff PANDAS_GE_30 (obj (frames h) df1)
       (obj (frames h) df2))
    l a h'.
Proof.
  intros V1 V2 H. unfold _overlay_symmetric_diff_st in H.
  unfold _overlay_symmetric_diff.
  st_call H as l1 a1 h1 Hd1. apply _overlay_difference_st_inv in Hd1.
  destruct Hd1 as (Hd1 & Ra1 & [S1 S1']).
  st_call H as l2 a2 h2 Hd2. apply _overlay_difference_st_inv in Hd2.
  destruct Hd2 as (Hd2 & Ra2 & [S2 S2']).
  rewrite !S1' in Hd2 by lia.
  assert (Ha1 : obj (frames h2) a1 = obj (frames h1) a1)
    by (apply S2'; lia).
  do 8 st_prim H.
  st_call H as l3 e1 h7 He1.
  apply _ensure_geometry_column_st_inv in He1; [| heap_simpl; lia].
  destruct He1 as (He1 & Re1 & Re1' & F7 & K7).
  heap_simpl_in He1. heap_simpl_in Re1. heap_simpl_in F7.
  st_call H as l4 e2 h8 He2.
  apply _ensure_geometry_column_st_inv in He2; [| lia].
  destruct He2 as (He2 & Re2 & Re2' & F8 & K8).
  rewrite K7 in He2 by (heap_simpl; lia). heap_simpl_in He2.
  st_prim H. st_prim H.
  rewrite (K8 e1) in H by lia.
  st_lift H as l5 merged Hmerged.
  do 2 st_prim H. heap_simpl_in H.
  st_lift H as l6 geometry_1 Hg1.
  do 3 st_prim H. heap_simpl_in H.
  st_lift H as l7 geometry_2 Hg2.
  do 2 st_prim H. heap_simpl_in H.
  st_lift H as l8 t' Ht'.
  do 6 st_prim H. st_done H.
  assert (Hdf1 : obj (frames h8) df1 = obj (frames h) df1).
  { rewrite K8 by lia. rewrite K7 by (heap_simpl; lia). heap_simpl.
    rewrite S2' by lia. apply S1'. lia. }
  log_norm. split; [| split].
  - heap_simpl. rewrite Hdf1.
    apply (bind_eq _ _ _ _ _ _ Hd1).
    apply (bind_eq _ _ _ _ _ _ Hd2). cbv zeta.
    rewrite Ha1 in He1.
    apply (bind_eq _ _ _ _ _ _ He1).
    apply (bind_eq _ _ _ _ _ _ He2).
    apply (bind_eq _ _ _ _ _ _ Hmerged).
    apply (bind_eq _ _ _ _ _ _ Hg1).
    apply (bind_eq _ _ _ _ _ _ Hg2).
    rewrite <- (app_nil_r l8).
    apply (bind_eq _ _ _ _ _ _ Ht'). reflexivity.
  - heap_simpl. lia.
  - split.
    + heap_simpl. lia.
    + intros p Hp. heap_simpl.
      rewrite K8 by lia. rewrite K7 by (heap_simpl; lia). heap_simpl.
      rewrite S2' by lia. apply S1', Hp.
Qed.


Lemma _overlay_union_st_inv df1 df2 h l a h' :
  df1 < next_ref (frames h) -> df2 < next_ref (frames h) ->
  _overlay_union_st PANDAS_GE_30 df1 df2 h = (l, inr (a, h')) ->
  new_result h
    (_overlay_union PANDAS_GE_30 (obj (frames h) df1) (obj (frames h) df2))
    l a h'.
Proof.
  intros V1 V2 H. unfold _overlay_union_st in H. unfold _overlay_union.
  st_call H as l1 a1 h1 Hi. apply _overlay_intersection_st_inv in Hi.
  destruct Hi as (Hi & Ra1 & [S1 S1']).
  st_call H as l2 a2 h2 Hs.
  apply _overlay_symmetric_diff_st_inv in Hs; [| lia | lia].
  destruct Hs as (Hs & Ra2 & [S2 S2']).
  rewrite !S1' in Hs by lia.
  do 2 st_prim H. rewrite (S2' a1) in H by lia.
  st_lift H as l3 names Hnames. st_done H.
  log_norm. split; [| split].
  - heap_simpl.
    apply (bind_eq _ _ _ _ _ _ Hi).
    apply (bind_eq _ _ _ _ _ _ Hs). cbv zeta.
    rewrite <- (app_nil_r l3).
    apply (bind_eq _ _ _ _ _ _ Hnames). reflexivity.
  - heap_simpl. lia.
  - split.
    + heap_simpl. lia.
    + intros p Hp. heap_simpl. rewrite S2' by lia. apply S1', Hp.
Qed.

Lemma _collection_extract_st_inv df t w h l a h' :
  _collection_extract_st df t w h = (l, inr (a, h')) ->
  new_result h (_collection_extract (obj (frames h) df) t w) l a h'.
Proof.
  intros H. unfold _collection_extract_st in H. unfold _collection_extract.
  st_lift H as l1 geom_types Hfam.
  do 3 st_prim H. heap_simpl_in H.
  st_lift H as l2 types Htypes.
  cbv zeta in H.
  destruct (any (map (isin [GeometryCollection]) types)) eqn:Hany.
  - st_call H as l3 ndc h1 Hstep.
    st_lift Hstep as l4 g Hg.
    do 6 st_prim Hstep. st_done Hstep. heap_simpl_in H.
    st_prim H. heap_simpl_in H.
    st_lift H as l5 types' Htypes'.
    do 2 st_prim H. heap_simpl_in H.
    st_lift H as l6 u Hwarn. st_done H.
    log_norm. split; [| split].
    + heap_simpl.
      apply (bind_eq _ _ _ _ _ _ Hfam). cbv zeta.
      apply (bind_eq _ _ _ _ _ _ Htypes). rewrite Hany.
      rewrite <- (app_nil_r (l4 ++ l5 ++ l6)).
      rewrite <- app_assoc.
      eapply bind_eq.
      { rewrite <- (app_nil_r l4).
        apply (bind_eq _ _ _ _ _ _ Hg). reflexivity. }
      cbn [fst snd]. log_norm.
      apply (bind_eq _ _ _ _ _ _ Htypes').
      rewrite <- (app_nil_r l6).
      apply (bind_eq _ _ _ _ _ _ Hwarn). reflexivity.
    + heap_simpl. lia.
    + stable_tac.
  - st_prim H. st_prim H. heap_simpl_in H.
    st_lift H as l5 types' Htypes'.
    do 2 st_prim H. heap_simpl_in H.
    st_lift H as l6 u Hwarn. st_done H.
    log_norm. split; [| split].
    + heap_simpl.
      apply (bind_eq _ _ _ _ _ _ Hfam). cbv zeta.
      apply (bind_eq _ _ _ _ _ _ Htypes). rewrite Hany.
      rewrite bind_ret. cbn [fst snd].
      apply (bind_eq _ _ _ _ _ _ Htypes').
      rewrite <- (app_nil_r l6).
      apply (bind_eq _ _ _ _ _ _ Hwarn). reflexivity.
    + heap_simpl. lia.
    + stable_tac.
Qed.


Lemma _make_valid_st_inv mv df h l a h' :
  _make_valid_st mv df h = (l, inr (a, h')) ->
  new_result h (_make_valid mv (obj (frames h) df)) l a h'.
Proof.
  intros H. unfold _make_valid_st in H. unfold _make_valid.
  do 3 st_prim H. heap_simpl_in H.
  st_lift H as l1 types Htypes.
  destruct (all (map (isin POLYGON_GEOM_TYPES) types)) eqn:Hall.
  - st_lift H as l2 g Hg. cbv zeta in H.
    destruct mv.
    + st_prim H.
      destruct (any (map (fun c => negb (cell_is_valid c)) g)) eqn:Hany.
      * apply _collection_extract_st_inv in H.
        destruct H as (H & Ra & [S1 S1']).
        heap_simpl_in H. heap_simpl_in Ra. heap_simpl_in S1.
        split; [| split].
        { apply (bind_eq _ _ _ _ _ _ Htypes). rewrite Hall.
          apply (bind_eq _ _ _ _ _ _ Hg). cbv zeta. rewrite Hany.
          exact H. }
        { lia. }
        { split; [lia |]. intros p Hp. rewrite S1' by (heap_simpl; lia).
          heap_simpl. reflexivity. }
      * st_done H. log_norm. split; [| split].
        { heap_simpl.
          apply (bind_eq _ _ _ _ _ _ Htypes). rewrite Hall.
          rewrite <- (app_nil_r l2).
          apply (bind_eq _ _ _ _ _ _ Hg). cbv zeta. rewrite Hany.
          reflexivity. }
        { heap_simpl. lia. }
        { stable_tac. }
    + destruct (any (map (fun c => negb (cell_is_valid c)) g)) eqn:Hany.
      * discriminate H.
      * st_done H. log_norm. split; [| split].
        { heap_simpl.
          apply (bind_eq _ _ _ _ _ _ Htypes). rewrite Hall.
          rewrite <- (app_nil_r l2).
          apply (bind_eq _ _ _ _ _ _ Hg). cbv zeta. rewrite Hany.
          reflexivity. }
        { heap_simpl. lia. }
        { stable_tac. }
  - st_done H. log_norm. split; [| split].
    + heap_simpl.
      rewrite <- (app_nil_r l1).
      apply (bind_eq _ _ _ _ _ _ Htypes). rewrite Hall. reflexivity.
    + heap_simpl. lia.
    + stable_tac.
Qed.


(** Lines 343-352. *)
Lemma builder_st_inv how df1 df2 h l a h' :
  df1 < next_ref (frames h) -> df2 < next_ref (frames h) ->
  (if String.eqb how "difference" then _overlay_difference_st df1 df2
   else if String.eqb how "intersection"
        then _overlay_intersection_st df1 df2
   else if String.eqb how "symmetric_difference"
        then _overlay_symmetric_diff_st PANDAS_GE_30 df1 df2
   else if String.eqb how "union" then _overlay_union_st PANDAS_GE_30 df1 df2
   else _overlay_identity_st PANDAS_GE_30 df1 df2) h = (l, inr (a, h')) ->
  new_result h
    (if String.eqb how "difference"
     then _overlay_difference (obj (frames h) df1) (obj (frames h) df2)
     else if String.eqb how "intersection"
          then _overlay_intersection (obj (frames h) df1) (obj (frames h) df2)
     else if String.eqb how "symmetric_difference"
          then _overlay_symmetric_diff PANDAS_GE_30 (obj (frames h) df1)
                 (obj (frames h) df2)
     else if String.eqb how "union"
          then _overlay_union PANDAS_GE_30 (obj (frames h) df1)
                 (obj (frames h) df2)
     else _overlay_identity PANDAS_GE_30 (obj (frames h) df1)
            (obj (frames h) df2))
    l a h'.
Proof.
  intros V1 V2 H.
  destruct (String.eqb how "difference");
    [apply _overlay_difference_st_inv, H |].
  destruct (String.eqb how "intersection");
    [apply _overlay_intersection_st_inv, H |].
  destruct (String.eqb how "symmetric_difference");
    [apply _overlay_symmetric_diff_st_inv; assumption |].
  destruct (String.eqb how "union");
    [apply _overlay_union_st_inv; assumption |].
  apply _overlay_identity_st_inv; assumption.
Qed.

(** Lines 334-361. *)
Lemma overlay_main_st_inv df1 df2 how kgt mv h l a h' :
  df1 < next_ref (frames h) -> df2 < next_ref (frames h) ->
  overlay_main_st PANDAS_GE_30 df1 df2 how kgt mv h = (l, inr (a, h')) ->
  new_result h
    (overlay_main PANDAS_GE_30 (obj (frames h) df1) (obj (frames h) df2)
       how kgt mv)
    l a h'.
Proof.
  intros V1 V2 H. unfold overlay_main_st in H. unfold overlay_main.
  cbv zeta in H. cbv zeta.
  st_prim H.
  st_lift H as l5 geom_type_ Hgt.
  st_call H as l6 a1 h2 Hv1. apply _make_valid_st_inv in Hv1.
  destruct Hv1 as (Hv1 & Ra1 & [S1 S1']).
  st_call H as l7 a2 h3 Hv2. apply _make_valid_st_inv in Hv2.
  destruct Hv2 as (Hv2 & Ra2 & [S2 S2']).
  rewrite S1' in Hv2 by lia.
  st_call H as l8 res h4 Hb.
  apply builder_st_inv in Hb; [| lia | lia].
  destruct Hb as (Hb & Rres & [S3 S3']).
  rewrite (S2' a1) in Hb by lia.
  st_call H as l9 u4 h5 Hdrop.
  assert (Hd :
    (if mem how ["intersection"; "symmetric_difference"; "union"; "identity"]
     then gdrop ["__idx1"; "__idx2"] (obj (frames h4) res)
     else ret (obj (frames h4) res))
    = (l9, inr (obj (frames h5) res)) /\
    next_ref (frames h5) = next_ref (frames h4) /\
    forall p, p <> res -> obj (frames h5) p = obj (frames h4) p).
  { destruct (mem how _).
    - st_prim Hdrop. st_lift Hdrop as l10 r' Hr'. st_done Hdrop.
      heap_simpl. log_norm. split; [exact Hr' |]. split; [reflexivity |].
      intros p Hp. heap_simpl. reflexivity.
    - st_done Hdrop. auto. }
  clear Hdrop. destruct Hd as (Hd & F5 & K5).
  st_call H as l10 res' h6 Hext.
  assert (He :
    (if fst (keep_geom_type_flags kgt)
     then _collection_extract (obj (frames h5) res) geom_type_
            (snd (keep_geom_type_flags kgt))
     else ret (obj (frames h5) res))
    = (l10, inr (obj (frames h6) res')) /\
    next_ref (frames h) <= res' < next_ref (frames h6) /\
    next_ref (frames h5) <= next_ref (frames h6) /\
    forall p, p < next_ref (frames h) -> obj (frames h6) p = obj (frames h5) p).
  { destruct (fst (keep_geom_type_flags kgt)).
    - apply _collection_extract_st_inv in Hext.
      destruct Hext as (Hext & Rr & [S6 S6']).
      split; [exact Hext |]. split; [lia |]. split; [lia |].
      intros p Hp. apply S6'. lia.
    - st_done Hext. split; [reflexivity |]. split; [lia |].
      split; [lia |]. reflexivity. }
  clear Hext. destruct He as (He & Rres' & F6 & K6).
  do 2 st_prim H. st_done H.
  log_norm. split; [| split].
  - heap_simpl.
    apply (bind_eq _ _ _ _ _ _ Hgt).
    apply (bind_eq _ _ _ _ _ _ Hv1).
    apply (bind_eq _ _ _ _ _ _ Hv2).
    apply (bind_eq _ _ _ _ _ _ Hb).
    apply (bind_eq _ _ _ _ _ _ Hd).
    rewrite <- (app_nil_r l10).
    apply (bind_eq _ _ _ _ _ _ He). reflexivity.
  - heap_simpl. lia.
  - split.
    + heap_simpl. lia.
    + intros p Hp. heap_simpl.
      rewrite K6 by lia. rewrite K5 by lia.
      rewrite S3' by lia. rewrite S2' by lia. apply S1', Hp.
Qed.

(** The module over the store computes what the module computes on the
    values, and leaves the frames of the store as they were: the frame it
    returns is a new one. *)
Lemma overlay_st_inv df1 df2 how kgt mv h l a h' :
  df1 < next_ref (frames h) -> df2 < next_ref (frames h) ->
  overlay_st PANDAS_GE_30 df1 df2 how kgt mv h = (l, inr (a, h')) ->
  new_result h
    (overlay PANDAS_GE_30 (obj (frames h) df1) (obj (frames h) df2) how kgt mv)
    l a h'.
Proof.
  intros V1 V2 H. unfold overlay_st in H. unfold overlay.
  fold (overlay_main PANDAS_GE_30 (obj (frames h) df1) (obj (frames h) df2)
          how kgt mv).
  destruct (negb (mem how allowed_hows)); [discriminate H |].
  do 2 st_prim H.
  st_lift H as l1 u1 Hcrs.
  st_lift H as l2 u2 Hu1.
  st_lift H as l3 u3 Hu2.
  destruct (String.eqb how "intersection").
  - st_call H as l4 early h1 Hearly.
    st_lift Hearly as l5 b1 Hb1.
    st_lift Hearly as l6 b2 Hb2.
    destruct (negb (boxes_overlap b1 b2)) eqn:Hov.
    + st_call Hearly as l7 r h2 Hem. st_done Hearly. st_done H.
      apply empty_merge_st_inv in Hem. destruct Hem as (Hem & Rr & Sr).
      log_norm. split; [| split]; auto.
      apply (bind_eq _ _ _ _ _ _ Hcrs). cbv zeta.
      apply (bind_eq _ _ _ _ _ _ Hu1).
      apply (bind_eq _ _ _ _ _ _ Hu2).
      replace (l5 ++ l6 ++ l7) with ((l5 ++ l6 ++ l7 ++ []) ++ [])
        by (rewrite !app_nil_r; reflexivity).
      eapply bind_eq with (a := Some (obj (frames h2) r)); [| reflexivity].
      apply (bind_eq _ _ _ _ _ _ Hb1).
      apply (bind_eq _ _ _ _ _ _ Hb2). rewrite Hov.
      apply (bind_eq _ _ _ _ _ _ Hem). reflexivity.
    + st_done Hearly.
      apply overlay_main_st_inv in H; [| assumption | assumption].
      destruct H as (H & Ra & Sa).
      log_norm. split; [| split]; auto.
      apply (bind_eq _ _ _ _ _ _ Hcrs). cbv zeta.
      apply (bind_eq _ _ _ _ _ _ Hu1).
      apply (bind_eq _ _ _ _ _ _ Hu2).
      match goal with
      | |- _ = (l5 ++ l6 ++ ?x, _) =>
          replace (l5 ++ l6 ++ x) with ((l5 ++ l6 ++ []) ++ x)
            by (rewrite app_nil_r, app_assoc; reflexivity)
      end.
      eapply bind_eq with (a := None); [| exact H].
      apply (bind_eq _ _ _ _ _ _ Hb1).
      apply (bind_eq _ _ _ _ _ _ Hb2). rewrite Hov. reflexivity.
  - st_prim H.
    apply overlay_main_st_inv in H; [| assumption | assumption].
    destruct H as (H & Ra & Sa).
    log_norm. split; [| split]; auto.
    apply (bind_eq _ _ _ _ _ _ Hcrs). cbv zeta.
    apply (bind_eq _ _ _ _ _ _ Hu1).
    apply (bind_eq _ _ _ _ _ _ Hu2).
    rewrite bind_ret. exact H.
Qed.

End Store_specs.

(** C9.  Run over a store that holds the two inputs, a call of [overlay]
    that returns leaves every frame of the store as it was, so the two
    inputs keep their rows, their geometries, their column labels and the
    order of their columns; this holds for both values of [PANDAS_GE_30],
    that is, also when [_ensure_geometry_column] drops and renames in
    place.  The frame that comes back is a new one, and it is the frame
    [overlay] computes on the values of the inputs, with the same events. *)
Theorem C9_inputs_unchanged {K : Kernel} (PANDAS_GE_30 : bool)
    (h : heap) (df1 df2 : ref) (how : string) (keep_geom_type : option bool)
    (make_valid : bool) (log : list event) (r : ref) (h' : heap) :
  df1 < next_ref (frames h) ->
  df2 < next_ref (frames h) ->
  overlay_st PANDAS_GE_30 df1 df2 how keep_geom_type make_valid h
    = (log, inr (r, h')) ->
  obj (frames h') df1 = obj (frames h) df1 /\
  obj (frames h') df2 = obj (frames h) df2 /\
  (forall p, p < next_ref (frames h) -> obj (frames h') p = obj (frames h) p) /\
  next_ref (frames h) <= r /\
  overlay PANDAS_GE_30 (obj (frames h) df1) (obj (frames h) df2) how
          keep_geom_type make_valid
    = (log, inr (obj (frames h') r)).
Proof.
  intros V1 V2 H.
  destruct (overlay_st_inv PANDAS_GE_30 _ _ _ _ _ _ _ _ _ V1 V2 H)
    as (Hpure & Hr & [_ Hkept]).
  split; [apply Hkept, V1 |]. split; [apply Hkept, V2 |].
  split; [exact Hkept |]. split; [lia | exact Hpure].
Qed.

(** A store that holds two frames; the geometry column of the first one is
    called "geom". *)
Definition two_frames : @heap Toy.kernel :=
  mkHeap
    (mkSpace 2 (fun p => if p =? 0 then Toy.one_row "geom" Toy.P1 "a"
                         else Toy.one_row "geometry" Toy.Q1 "b"))
    (mkSpace 0 (fun _ => mkDataFrame [] []))
    (mkSpace 0 (fun _ => []))
    (mkSpace 0 (fun _ => [])).

Lemma C9_witness :
  match overlay_st false 0 1 "union" None true two_frames with
  | (_, inr (r, h')) =>
      obj (frames h') 0 = Toy.one_row "geom" Toy.P1 "a" /\
      obj (frames h') 1 = Toy.one_row "geometry" Toy.Q1 "b" /\
      2 <= r
  | (_, inl _) => False
  end.
Proof.
  generalize (C9_inputs_unchanged false two_frames 0 1 "union" None true).
  assert (R : returns (overlay_st false 0 1 "union" None true two_frames)
              = true)
    by (vm_compute; reflexivity).
  revert R.
  destruct (overlay_st false 0 1 "union" None true two_frames)
    as [log [e | [r h']]]; intros R T; [discriminate R |].
  assert (V1 : 0 < next_ref (frames two_frames)) by (cbn; lia).
  assert (V2 : 1 < next_ref (frames two_frames)) by (cbn; lia).
  destruct (T log r h' V1 V2 eq_refl) as (H1 & H2 & _ & Hr & _).
  split; [exact H1 |]. split; [exact H2 | exact Hr].
Defined.

(** * Further properties of the module *)

(** ** The argument checks of [overlay] (lines 260-291) *)

(** The three families the dispatcher tells apart. *)
Definition families : list (list GeomType) :=
  [POLYGON_GEOM_TYPES; LINE_GEOM_TYPES; POINT_GEOM_TYPES].

Section Validation.
Context {K : Kernel}.
Variable PANDAS_GE_30 : bool.

(** A column is mixed when it holds geometries of two different families. *)
Definition mixed (g : list cell) : Prop :=
  exists c1 c2 f1 f2,
    In c1 g /\ In c2 g /\ In f1 families /\ In f2 families /\ f1 <> f2 /\
    isin f1 (cell_geom_type c1) = true /\ isin f2 (cell_geom_type c2) = true.

Lemma any_isin fam g :
  any (map (isin fam) (series_geom_type g)) = true <->
  exists c, In c g /\ isin fam (cell_geom_type c) = true.
Proof.
  unfold any, series_geom_type. rewrite map_map, existsb_exists. split.
  - intros [b [Hb Ht]]. apply in_map_iff in Hb.
    destruct Hb as [c [<- Hc]]. eauto.
  - intros [c [Hc Ht]]. exists (isin fam (cell_geom_type c)).
    split; [apply in_map_iff; eauto | exact Ht].
Qed.

Lemma mixed_not_uniform g : mixed g -> uniform g = false.
Proof.
  intros (c1 & c2 & f1 & f2 & H1 & H2 & F1 & F2 & Hne & T1 & T2).
  assert (A1 : any (map (isin f1) (series_geom_type g)) = true)
    by (apply any_isin; eauto).
  assert (A2 : any (map (isin f2) (series_geom_type g)) = true)
    by (apply any_isin; eauto).
  unfold uniform. simpl in F1, F2.
  destruct F1 as [<- | [<- | [<- | []]]], F2 as [<- | [<- | [<- | []]]];
    try congruence; rewrite A1, A2;
    match goal with |- context [any ?x] => destruct (any x) end;
    reflexivity.
Qed.

(** X1.  The argument checks come in a fixed order.  A value of [how]
    outside the five allowed ones is refused with a value error that names
    it before anything else is looked at: whatever the inputs are, nothing
    is issued.  With an allowed [how], an input that holds geometries of
    two different families is refused with a not-implemented error naming
    the input: the first input is reported first (whatever the second one
    is), the second one only when the first is uniform.  The CRS warning,
    if any, has been issued before; no index is queried. *)
Theorem overlay_argument_checks df1 df2 how keep_geom_type make_valid g1 :
  (mem how allowed_hows = false ->
   overlay PANDAS_GE_30 df1 df2 how keep_geom_type make_valid =
   ([], inl (ValueError_how how))) /\
  (mem how allowed_hows = true -> geometry df1 = ret g1 -> mixed g1 ->
   overlay PANDAS_GE_30 df1 df2 how keep_geom_type make_valid =
   (crs_log df1 df2, inl (NotImplementedError_mixed 1))) /\
  (forall g2,
     mem how allowed_hows = true -> geometry df1 = ret g1 ->
     uniform g1 = true -> geometry df2 = ret g2 -> mixed g2 ->
     overlay PANDAS_GE_30 df1 df2 how keep_geom_type make_valid =
     (crs_log df1 df2, inl (NotImplementedError_mixed 2))).
Proof.
  assert (Hwhen : when (negb (_check_crs (crs df1) (crs df2)))
                    (emit Warn_crs_mismatch) = (crs_log df1 df2, inr tt)).
  { unfold when, crs_log, emit. destruct (_check_crs _ _); reflexivity. }
  split; [| split].
  - intros Hhow. unfold overlay. rewrite Hhow. reflexivity.
  - intros Hhow H1 Hm. apply mixed_not_uniform in Hm.
    unfold overlay. rewrite Hhow. cbn [negb].
    rewrite (bind_ok _ _ _ _ Hwhen), (check_uniform_eq 0 _ _ H1), Hm.
    simpl. rewrite app_nil_r. reflexivity.
  - intros g2 Hhow H1 U1 H2 Hm. apply mixed_not_uniform in Hm.
    unfold overlay. rewrite Hhow. cbn [negb].
    rewrite (bind_ok _ _ _ _ Hwhen), (check_uniform_eq 0 _ _ H1), U1,
      bind_ret, (check_uniform_eq 1 _ _ H2), Hm.
    simpl. rewrite app_nil_r. reflexivity.
Qed.

End Validation.

Lemma overlay_argument_checks_witness :
  overlay true Toy.mixed_rows Toy.mixed_rows "erase" None true =
    ([], inl (ValueError_how "erase")) /\
  overlay true Toy.mixed_rows Toy.mixed_rows "union" None true =
    ([], inl (NotImplementedError_mixed 1)) /\
  overlay true Toy.df1 Toy.mixed_rows "union" None true =
    ([], inl (NotImplementedError_mixed 2)).
Proof.
  assert (Hm : mixed [Toy.poly Toy.P1; Toy.poly Toy.Dot]).
  { exists (Toy.poly Toy.P1), (Toy.poly Toy.Dot),
           POLYGON_GEOM_TYPES, POINT_GEOM_TYPES.
    simpl. repeat split; auto. discriminate. }
  split; [| split].
  - exact (proj1 (overlay_argument_checks true Toy.mixed_rows Toy.mixed_rows
                    "erase" None true []) eq_refl).
  - exact (proj1 (proj2 (overlay_argument_checks true Toy.mixed_rows
                           Toy.mixed_rows "union" None true _))
                 eq_refl eq_refl Hm).
  - exact (proj2 (proj2 (overlay_argument_checks true Toy.df1 Toy.mixed_rows
                           "union" None true _))
                 _ eq_refl eq_refl eq_refl eq_refl Hm).
Defined.

(** ** [_ensure_geometry_column] (lines 18-32) *)

Section Ensure.
Context {K : Kernel}.
Variable PANDAS_GE_30 : bool.

Lemma lookup_filter_other (f : string -> bool) n (cs : list column) :
  f n = true ->
  lookup_col n (filter (fun c => f (fst c)) cs) = lookup_col n cs.
Proof.
  intros Hf. induction cs as [| [m v] cs IH]; simpl; auto.
  destruct (f m) eqn:Hm; simpl.
  - destruct (String.eqb n m); auto.
  - destruct (String.eqb_spec n m) as [-> | _]; [congruence | exact IH].
Qed.

Lemma lookup_relabel name (cs : list column) :
  ~ In "geometry" (map fst cs) ->
  lookup_col "geometry"
    (map (fun c : column =>
            if String.eqb (fst c) name then ("geometry", snd c) else c) cs)
  = lookup_col name cs.
Proof.
  induction cs as [| [m v] cs IH]; cbn [map fst snd lookup_col In];
    intros Hn; auto.
  rewrite (String.eqb_sym name m).
  destruct (String.eqb_spec m name) as [-> | Hne]; cbn [lookup_col].
  - rewrite String.eqb_refl. reflexivity.
  - destruct (String.eqb_spec "geometry" m) as [<- | _].
    + exfalso. apply Hn. left. reflexivity.
    + apply IH. intros Hin. apply Hn. right. exact Hin.
Qed.

(** The labels after the renaming: the other columns called "geometry"
    are gone and the geometry column has taken the name. *)
Definition ensured_labels (df : GeoDataFrame) : list string :=
  if String.eqb (_geometry_column_name df) "geometry" then gcolumns df
  else map (fun n => if String.eqb n (_geometry_column_name df)
                     then "geometry" else n)
           (filter (fun n => negb (String.eqb n "geometry")) (gcolumns df)).

(** The frame lines 23-31 compute, in closed form. *)
Definition ensured (df : GeoDataFrame) : GeoDataFrame :=
  if String.eqb (_geometry_column_name df) "geometry" then df
  else
    mkGeoDataFrame
      (mkDataFrame (index (frame df))
         (map (fun c : column =>
                 if String.eqb (fst c) (_geometry_column_name df)
                 then ("geometry", snd c) else c)
              (filter (fun c => negb (String.eqb (fst c) "geometry"))
                      (cols (frame df)))))
      "geometry" (crs df).

Lemma _ensure_geometry_column_eq df v :
  geometry df = ret v ->
  _ensure_geometry_column PANDAS_GE_30 df = ret (ensured df).
Proof.
  intros Hg. unfold _ensure_geometry_column, ensured.
  destruct (String.eqb_spec (_geometry_column_name df) "geometry")
    as [Hname | Hname]; cbn [negb].
  { reflexivity. }
  set (name := _geometry_column_name df) in *.
  set (keep := fun n => negb (String.eqb n "geometry")).
  set (d' := mkDataFrame (index (frame df))
               (filter (fun c => keep (fst c)) (cols (frame df)))).
  assert (Hkeep : keep name = true).
  { unfold keep. apply negb_true_iff, String.eqb_neq, Hname. }
  assert (Hdrop :
    (if mem "geometry" (gcolumns df)
     then gdrop ["geometry"] df else ret df) = ret (with_frame df d')).
  { destruct (mem "geometry" (gcolumns df)) eqn:Hm.
    - unfold gdrop. rewrite drop_ok by (simpl; fold (gcolumns df);
        rewrite Hm; reflexivity).
      rewrite bind_ret. unfold d', keep. do 3 f_equal.
      apply filter_ext. intros c. simpl. rewrite orb_false_r.
      rewrite String.eqb_sym. reflexivity.
    - f_equal. destruct df as [[ix cs] nm c]. unfold with_frame, d'. simpl.
      do 2 f_equal. symmetry. apply filter_all. intros c0 Hc.
      unfold keep. apply negb_true_iff, String.eqb_neq. intros Heq.
      apply mem_false in Hm. apply Hm. unfold gcolumns, columns. simpl.
      rewrite <- Heq. apply in_map, Hc. }
  assert (Hlookup : lookup_col name (cols d') = Some v).
  { unfold d'. simpl. rewrite (lookup_filter_other keep) by exact Hkeep.
    apply geometry_ret_lookup, Hg. }
  assert (Hnone : ~ In "geometry" (map fst (cols d'))).
  { unfold d'. simpl. rewrite names_filter. intros Hin.
    apply filter_In in Hin. destruct Hin as [_ Hin]. discriminate. }
  assert (Hboth :
    (df0 <- (if mem "geometry" (gcolumns df)
             then gdrop ["geometry"] df else ret df) ;;
     rename_geometry "geometry" df0) =
    ret (mkGeoDataFrame
           (mkDataFrame (index (frame df))
              (map (fun c : column =>
                      if String.eqb (fst c) name then ("geometry", snd c)
                      else c) (cols d')))
           "geometry" (crs df))).
  { rewrite Hdrop, bind_ret. unfold rename_geometry.
    assert (Hg' : geometry (with_frame df d') = ret v).
    { apply geometry_ret_lookup. exact Hlookup. }
    rewrite Hg', bind_ret.
    assert (Hm : mem "geometry" (gcolumns (with_frame df d')) = false).
    { apply mem_false. exact Hnone. }
    rewrite Hm. reflexivity. }
  destruct PANDAS_GE_30; exact Hboth.
Qed.

Lemma ensured_geometry df v :
  geometry df = ret v -> geometry (ensured df) = ret v.
Proof.
  intros Hg. unfold ensured.
  destruct (String.eqb_spec (_geometry_column_name df) "geometry")
    as [Hname | Hname]; [exact Hg |].
  apply geometry_ret_lookup. cbn [frame cols _geometry_column_name].
  rewrite lookup_relabel.
  - rewrite (lookup_filter_other (fun n => negb (String.eqb n "geometry")))
      by (apply negb_true_iff, String.eqb_neq, Hname).
    apply geometry_ret_lookup, Hg.
  - rewrite (names_filter (fun n => negb (String.eqb n "geometry"))).
    intros Hin. apply filter_In in Hin. destruct Hin as [_ Hin].
    discriminate.
Qed.

Lemma ensured_labels_eq df : gcolumns (ensured df) = ensured_labels df.
Proof.
  unfold ensured, ensured_labels.
  destruct (String.eqb (_geometry_column_name df) "geometry");
    [reflexivity |].
  unfold gcolumns, columns. cbn [frame cols].
  rewrite <- names_filter. rewrite !map_map. apply map_ext.
  intros c. destruct (String.eqb (fst c) (_geometry_column_name df));
    reflexivity.
Qed.

Lemma ensured_index df : index (frame (ensured df)) = index (frame df).
Proof.
  unfold ensured.
  destruct (String.eqb (_geometry_column_name df) "geometry"); reflexivity.
Qed.

Lemma ensured_name df v :
  geometry df = ret v -> _geometry_column_name (ensured df) = "geometry".
Proof.
  intros _. unfold ensured.
  destruct (String.eqb_spec (_geometry_column_name df) "geometry");
    [assumption | reflexivity].
Qed.

Lemma ensured_crs df : crs (ensured df) = crs df.
Proof.
  unfold ensured.
  destruct (String.eqb (_geometry_column_name df) "geometry"); reflexivity.
Qed.

Lemma lookup_relabel_other name n (cs : list column) :
  n <> "geometry" -> n <> name ->
  lookup_col n
    (map (fun c : column =>
            if String.eqb (fst c) name then ("geometry", snd c) else c) cs)
  = lookup_col n cs.
Proof.
  intros H1 H2. apply String.eqb_neq in H1.
  induction cs as [| [m w] cs IH]; cbn [map lookup_col fst snd]; auto.
  destruct (String.eqb_spec m name) as [-> | Hm]; cbn [lookup_col].
  - apply String.eqb_neq in H2. rewrite H1, H2. exact IH.
  - rewrite IH. reflexivity.
Qed.

(** A column that is neither the geometry column nor called "geometry" is
    left alone. *)
Lemma ensured_lookup df n :
  n <> "geometry" -> n <> _geometry_column_name df ->
  lookup_col n (cols (frame (ensured df))) = lookup_col n (cols (frame df)).
Proof.
  intros H1 H2. unfold ensured.
  destruct (String.eqb (_geometry_column_name df) "geometry");
    [reflexivity |].
  cbn [frame cols].
  rewrite lookup_relabel_other by assumption.
  apply (lookup_filter_other (fun m => negb (String.eqb m "geometry"))).
  apply negb_true_iff, String.eqb_neq, H1.
Qed.

(** X2.  On a frame that has its geometry column, [_ensure_geometry_column]
    never fails and issues nothing, for both values of [PANDAS_GE_30]: the
    result keeps the geometry values, the row index and the CRS, its
    geometry column is called "geometry", and any other column that was
    called "geometry" has been dropped. *)
Theorem _ensure_geometry_column_total df v :
  geometry df = ret v ->
  exists r,
    _ensure_geometry_column PANDAS_GE_30 df = ([], inr r) /\
    _geometry_column_name r = "geometry" /\
    geometry r = ret v /\
    index (frame r) = index (frame df) /\
    crs r = crs df /\
    gcolumns r = ensured_labels df.
Proof.
  intros Hg. exists (ensured df).
  split; [apply (_ensure_geometry_column_eq df v Hg) |].
  split; [apply (ensured_name df v Hg) |].
  split; [apply (ensured_geometry df v Hg) |].
  split; [apply ensured_index |].
  split; [apply ensured_crs | apply ensured_labels_eq].
Qed.

End Ensure.

(** A frame whose geometry column is called "geom" and that has an
    unrelated column "geometry". *)
Definition shadowed_row : GeoDataFrame :=
  mkGeoDataFrame
    (mkDataFrame [5%Z]
       [("geometry", [Num 3]); ("geom", [Toy.poly Toy.P1]); ("a", [Num 7])])
    "geom" None.

Lemma _ensure_geometry_column_total_witness :
  exists r,
    _ensure_geometry_column true shadowed_row = ([], inr r) /\
    geometry r = ret [Toy.poly Toy.P1] /\
    gcolumns r = ["geometry"; "a"].
Proof.
  destruct (_ensure_geometry_column_total true shadowed_row
              [Toy.poly Toy.P1] eq_refl)
    as (r & Hr & _ & Hg & _ & _ & Hc).
  exists r. repeat split; assumption.
Defined.

(** ** [_collection_extract] (lines 364-423) *)

Section Extract_post.
Context {K : Kernel}.

Lemma select_own_mask {A} (p : A -> bool) (l : list A) :
  Forall (fun x => p x = true) (select (map p l) l).
Proof.
  induction l as [| a l IH]; simpl; [constructor |].
  destruct (p a) eqn:Ha; [constructor |]; assumption.
Qed.

Lemma family_of_members t fam :
  family_of t = Some fam -> In fam families /\ isin fam t = true.
Proof.
  unfold family_of, families.
  destruct (isin POLYGON_GEOM_TYPES t) eqn:Hp.
  { intros H; inversion H; subst. simpl. auto. }
  destruct (isin LINE_GEOM_TYPES t) eqn:Hl.
  { intros H; inversion H; subst. simpl. auto. }
  destruct (isin POINT_GEOM_TYPES t) eqn:Hq; [| discriminate].
  intros H; inversion H; subst. simpl. auto.
Qed.

Lemma extract_frame_rows df fam g :
  gnrows (extract_frame df fam g) <= gnrows df.
Proof.
  unfold extract_frame, gnrows, nrows. cbn [with_frame frame loc_mask index].
  destruct (any (is_collection_mask g)); cbn [gsetitem with_frame frame
    setitem index]; apply select_length_le.
Qed.

Lemma _collection_extract_post df t w l r :
  _collection_extract df t w = (l, inr r) ->
  exists fam v,
    family_of t = Some fam /\
    geometry r = ret v /\
    Forall (fun c => isin fam (cell_geom_type c) = true) v /\
    gcolumns r = gcolumns df /\
    _geometry_column_name r = _geometry_column_name df /\
    crs r = crs df /\
    gnrows r <= gnrows df.
Proof.
  intros H. apply _collection_extract_inr in H.
  destruct H as (fam & g & Hg & Hfam & -> & ->).
  exists fam, (select (family_mask fam g) (extracted_geometry fam g)).
  destruct (extract_frame_columns df fam g Hg) as (Hc & Hn & Hcrs).
  repeat split; auto.
  - apply extract_frame_geometry, Hg.
  - unfold family_mask, series_geom_type. rewrite map_map.
    apply (select_own_mask (fun c => isin fam (cell_geom_type c))).
  - apply extract_frame_rows.
Qed.

(** X3.  Whenever [_collection_extract] returns, every geometry of the
    result belongs to the family of the requested type (so the result holds
    no missing geometry and no collection), the column labels, the name of
    the geometry column and the CRS are those of the input, and no row has
    been added. *)
Theorem _collection_extract_keeps_only_the_family df geom_type_
    keep_geom_type_warning l r :
  _collection_extract df geom_type_ keep_geom_type_warning = (l, inr r) ->
  exists fam v,
    In fam families /\ isin fam geom_type_ = true /\
    geometry r = ret v /\
    Forall (fun c => isin fam (cell_geom_type c) = true) v /\
    gcolumns r = gcolumns df /\
    _geometry_column_name r = _geometry_column_name df /\
    crs r = crs df /\
    gnrows r <= gnrows df.
Proof.
  intros H. apply _collection_extract_post in H.
  destruct H as (fam & v & Hfam & Hrest).
  apply family_of_members in Hfam. destruct Hfam as [Hin Ht].
  exists fam, v. auto.
Qed.

(** A requested type outside the three families (a geometry collection,
    or the missing type of a missing geometry) is refused with a type error
    before the frame is looked at. *)
Lemma _collection_extract_unsupported_type df geom_type_
    keep_geom_type_warning :
  geom_type_ = None \/ geom_type_ = Some GeometryCollection ->
  _collection_extract df geom_type_ keep_geom_type_warning =
  ([], inl TypeError_geom_type).
Proof.
  intros [-> | ->]; apply _collection_extract_type_error; reflexivity.
Qed.

End Extract_post.

Lemma _collection_extract_keeps_only_the_family_witness :
  exists v,
    geometry (value Toy.no_rows
                (_collection_extract Toy.mixed_rows (Some MultiPoint) true))
      = ret v /\
    Forall (fun c => isin POINT_GEOM_TYPES (cell_geom_type c) = true) v.
Proof.
  destruct (_collection_extract_keeps_only_the_family Toy.mixed_rows
              (Some MultiPoint) true
              [Warn_dropped_geometries 1]
              (value Toy.no_rows
                 (_collection_extract Toy.mixed_rows (Some MultiPoint) true)))
    as (fam & v & Hin & Ht & Hg & Hall & _).
  - apply run_eq; vm_compute; reflexivity.
  - exists v. split; [exact Hg |].
    simpl in Hin. destruct Hin as [<- | [<- | [<- | []]]];
      try discriminate Ht. exact Hall.
Defined.

(** ** [_make_valid] (lines 312-332) *)

Section Make_valid_post.
Context {K : Kernel}.

Lemma set_col_same n v (cs : list column) :
  lookup_col n cs = Some v -> set_col n v cs = cs.
Proof.
  induction cs as [| [m w] cs IH]; cbn [lookup_col set_col];
    [discriminate |].
  destruct (String.eqb n m).
  - intros H. inversion H. reflexivity.
  - intros H. rewrite (IH H). reflexivity.
Qed.

Lemma gsetitem_same g v :
  geometry g = ret v -> gsetitem (_geometry_column_name g) v g = g.
Proof.
  intros H. apply geometry_ret_lookup in H.
  destruct g as [[ix cs] nm c]. unfold gsetitem, with_frame, setitem.
  cbn [frame index cols _geometry_column_name crs] in *.
  rewrite (set_col_same _ _ _ H). reflexivity.
Qed.

Lemma repaired_all_valid g : any (invalid_mask g) = false -> repaired g = g.
Proof.
  unfold repaired, invalid_mask, any.
  induction g as [| c g IH]; cbn [map existsb combine]; auto.
  intros H. apply orb_false_elim in H. destruct H as [Hc Hg].
  rewrite Hc. cbn [fst snd]. rewrite (IH Hg). reflexivity.
Qed.

Lemma all_polygons_Forall g :
  all_polygons g = true <->
  Forall (fun c => isin POLYGON_GEOM_TYPES (cell_geom_type c) = true) g.
Proof.
  unfold all_polygons, all, series_geom_type. rewrite map_map.
  rewrite forallb_forall, Forall_forall. split.
  - intros H c Hc. apply (H (isin POLYGON_GEOM_TYPES (cell_geom_type c))).
    apply in_map_iff. eauto.
  - intros H b Hb. apply in_map_iff in Hb. destruct Hb as [c [<- Hc]].
    apply H, Hc.
Qed.

Lemma any_invalid_false g :
  (forall c, In c g -> cell_is_valid c = true) ->
  any (invalid_mask g) = false.
Proof.
  intros H. unfold any, invalid_mask.
  induction g as [| c g IH]; cbn [map existsb]; auto.
  rewrite (H c (or_introl eq_refl)), IH by (intros; apply H; right; auto).
  reflexivity.
Qed.

Lemma _make_valid_sound df g mv :
  geometry df = ret g ->
  all_polygons g = false \/ any (invalid_mask g) = false ->
  _make_valid mv df = ret df.
Proof.
  intros Hg H. rewrite (_make_valid_eq mv df g Hg).
  destruct (all_polygons g); [| reflexivity].
  destruct H as [H | H]; [discriminate |]. rewrite H.
  destruct mv; [| reflexivity].
  rewrite (repaired_all_valid g H), (gsetitem_same df g Hg). reflexivity.
Qed.

(** X4.  [_make_valid] hands back its input unchanged, for both values of
    the flag and without issuing anything, whenever every geometry of the
    input is valid, and also whenever some geometry of the input is not of
    the polygon family: the validity of lines and points is never looked
    at, not even with [make_valid=False]. *)
Theorem _make_valid_unchanged df g make_valid :
  geometry df = ret g ->
  (forall c, In c g -> cell_is_valid c = true) \/
  (exists c, In c g /\ isin POLYGON_GEOM_TYPES (cell_geom_type c) = false) ->
  _make_valid make_valid df = ([], inr df).
Proof.
  intros Hg [H | (c & Hc & Ht)]; apply (_make_valid_sound df g _ Hg).
  - right. apply any_invalid_false, H.
  - left. destruct (all_polygons g) eqn:Ha; [| reflexivity].
    apply all_polygons_Forall in Ha. rewrite Forall_forall in Ha.
    rewrite (Ha c Hc) in Ht. discriminate.
Qed.

(** X5.  With [make_valid=True], [_make_valid] never fails on a frame that
    has its geometry column and issues nothing (the drop warning of the
    extraction is switched off).  The result keeps the labels, the name of
    the geometry column and the CRS, has no more rows than the input, and
    if the input holds polygon-family geometries only, so does the result,
    although repairing may change the type of a geometry. *)
Theorem _make_valid_repairs df g :
  geometry df = ret g ->
  exists r g',
    _make_valid true df = ([], inr r) /\
    geometry r = ret g' /\
    gcolumns r = gcolumns df /\
    _geometry_column_name r = _geometry_column_name df /\
    crs r = crs df /\
    gnrows r <= gnrows df /\
    (all_polygons g = true -> all_polygons g' = true).
Proof.
  intros Hg. rewrite (_make_valid_eq true df g Hg).
  destruct (all_polygons g) eqn:Ha.
  2:{ exists df, g. repeat split; auto. discriminate. }
  destruct (any (invalid_mask g)) eqn:Hi.
  2:{ exists df, g. rewrite (repaired_all_valid g Hi), (gsetitem_same df g Hg).
      repeat split; auto. }
  set (df' := gsetitem (_geometry_column_name df) (repaired g) df).
  assert (Hg' : geometry df' = ret (repaired g)) by apply geometry_gsetitem.
  assert (Hfam : family_of (Some Polygon) = Some POLYGON_GEOM_TYPES)
    by reflexivity.
  pose proof (_collection_extract_eq df' (Some Polygon) false _ _ Hg' Hfam)
    as He.
  rewrite extract_log_quiet in He.
  destruct (_collection_extract_post _ _ _ _ _ He)
    as (fam & v & Hfam' & Hv & Hall & Hc & Hn & Hcrs & Hrows).
  rewrite Hfam in Hfam'. inversion Hfam'; subst fam.
  exists (extract_frame df' POLYGON_GEOM_TYPES (repaired g)), v.
  split; [exact He |]. split; [exact Hv |].
  split; [rewrite Hc; apply (gcolumns_gsetitem_geometry df _ g Hg) |].
  split; [rewrite Hn; reflexivity |].
  split; [rewrite Hcrs; reflexivity |].
  split; [exact Hrows |].
  intros _. apply all_polygons_Forall, Hall.
Qed.


End Make_valid_post.

(** A frame of one segment that is handed over as it is. *)
Definition segment_row : GeoDataFrame :=
  mkGeoDataFrame
    (mkDataFrame [0%Z] [("geometry", [Toy.poly Toy.Bar_hook_edge])])
    "geometry" None.

Lemma _make_valid_unchanged_witness :
  _make_valid false Toy.df1 = ([], inr Toy.df1) /\
  _make_valid false segment_row = ([], inr segment_row).
Proof.
  split.
  - apply (_make_valid_unchanged Toy.df1 [Toy.poly Toy.P1; Toy.poly Toy.P2]
             false eq_refl).
    left. intros c [<- | [<- | []]]; reflexivity.
  - apply (_make_valid_unchanged segment_row [Toy.poly Toy.Bar_hook_edge]
             false eq_refl).
    right. exists (Toy.poly Toy.Bar_hook_edge). split; [left |]; reflexivity.
Defined.

Lemma _make_valid_repairs_witness :
  exists r g',
    _make_valid true (Toy.one_row "geometry" Toy.Bowtie "a") = ([], inr r) /\
    geometry r = ret g' /\
    all_polygons g' = true.
Proof.
  destruct (_make_valid_repairs (Toy.one_row "geometry" Toy.Bowtie "a")
              [Toy.poly Toy.Bowtie] eq_refl)
    as (r & g' & Hr & Hg & _ & _ & _ & _ & Hall).
  exists r, g'. split; [exact Hr |]. split; [exact Hg |].
  apply Hall. reflexivity.
Defined.

(** ** The two paths of [overlay] (lines 293-361) *)

Section Steps.
Context {K : Kernel}.
Variable PANDAS_GE_30 : bool.

(** Lines 343-352. *)
Definition builder (how : string) (df1 df2 : GeoDataFrame)
  : M GeoDataFrame :=
  if String.eqb how "difference" then _overlay_difference df1 df2
  else if String.eqb how "intersection" then _overlay_intersection df1 df2
  else if String.eqb how "symmetric_difference"
       then _overlay_symmetric_diff PANDAS_GE_30 df1 df2
  else if String.eqb how "union" then _overlay_union PANDAS_GE_30 df1 df2
  else _overlay_identity PANDAS_GE_30 df1 df2.

(** Lines 335-336. *)
Definition first_row_type (keep : bool) (df1 : GeoDataFrame)
  : M (option GeomType) :=
  if keep then
    types <- geom_type df1 ;;
    match types with
    | [] => raise IndexError
    | t :: _ => ret t
    end
  else ret None.

Lemma first_row_type_inv keep df1 l t :
  first_row_type keep df1 = (l, inr t) ->
  l = [] /\
  (keep = true ->
   exists c g1, geometry df1 = ret (c :: g1) /\ t = cell_geom_type c).
Proof.
  unfold first_row_type. destruct keep.
  - intros H. mstep H as l1 types Ht. unfold geom_type in Ht.
    mstep Ht as l2 g Hg. apply geometry_inv in Hg. destruct Hg as [-> Hg].
    inversion Ht; subst; clear Ht.
    destruct g as [| c g]; [discriminate |].
    inversion H; subst; clear H. split; [reflexivity |].
    intros _. exists c, g. split; [| reflexivity].
    apply geometry_ret_lookup, Hg.
  - intros H. inversion H; subst. split; [reflexivity | discriminate].
Qed.

Lemma overlay_main_steps df1 df2 how kgt mv l r :
  overlay_main PANDAS_GE_30 df1 df2 how kgt mv = (l, inr r) ->
  exists t df1' df2' lb res res' le res'',
    first_row_type (fst (keep_geom_type_flags kgt)) df1 = ([], inr t) /\
    _make_valid mv df1 = ([], inr df1') /\
    _make_valid mv df2 = ([], inr df2') /\
    builder how df1' df2' = (lb, inr res) /\
    (if mem how ["intersection"; "symmetric_difference"; "union"; "identity"]
     then gdrop ["__idx1"; "__idx2"] res else ret res) = ([], inr res') /\
    (if fst (keep_geom_type_flags kgt)
     then _collection_extract res' t (snd (keep_geom_type_flags kgt))
     else ret res') = (le, inr res'') /\
    r = with_frame res'' (reset_index (frame res'')) /\
    l = lb ++ le.
Proof.
  unfold overlay_main. cbv zeta.
  fold (first_row_type (fst (keep_geom_type_flags kgt)) df1).
  intros H.
  mstep H as l0 t Ht.
  destruct (first_row_type_inv _ _ _ _ Ht) as [-> _].
  mstep H as l1 df1' H1.
  pose proof (_make_valid_inr _ _ _ _ H1) as [-> _].
  mstep H as l2 df2' H2.
  pose proof (_make_valid_inr _ _ _ _ H2) as [-> _].
  fold (builder how df1' df2') in H.
  mstep H as lb res Hb.
  mstep H as l3 res' Hd.
  assert (Hl3 : l3 = []).
  { destruct (mem how _).
    - apply gdrop_inv in Hd. destruct Hd as [-> _]. reflexivity.
    - inversion Hd. reflexivity. }
  subst l3.
  mstep H as le res'' He.
  inversion H; subst; clear H.
  exists t, df1', df2', lb, res, res', le, res''.
  repeat split; auto.
  simpl. rewrite !app_nil_r. reflexivity.
Qed.

Lemma overlay_cases df1 df2 how kgt mv l r :
  overlay PANDAS_GE_30 df1 df2 how kgt mv = (l, inr r) ->
  exists g1 g2 l',
    mem how allowed_hows = true /\
    geometry df1 = ret g1 /\ geometry df2 = ret g2 /\
    l = crs_log df1 df2 ++ l' /\
    (if takes_fast_path how g1 g2 then empty_merge df1 df2 false
     else overlay_main PANDAS_GE_30 df1 df2 how kgt mv) = (l', inr r).
Proof.
  intros H.
  destruct (overlay_inr _ _ _ _ _ _ _ _ H)
    as (g1 & g2 & Hhow & Hg1 & Hg2 & U1 & U2).
  rewrite (overlay_eq PANDAS_GE_30 df1 df2 how kgt mv g1 g2
             Hhow Hg1 Hg2 U1 U2) in H.
  exists g1, g2.
  destruct (takes_fast_path how g1 g2).
  - destruct (empty_merge df1 df2 false) as [l' o].
    cbn [fst snd] in H. inversion H; subst.
    exists l'. repeat split; auto.
  - destruct (overlay_main PANDAS_GE_30 df1 df2 how kgt mv) as [l' o].
    cbn [fst snd] in H. inversion H; subst.
    exists l'. repeat split; auto.
Qed.

(** *** The CRS of the result *)

Lemma _overlay_intersection_crs df1 df2 l r :
  _overlay_intersection df1 df2 = (l, inr r) -> crs r = crs df1.
Proof.
  intros H. apply _overlay_intersection_inv in H.
  destruct H as [_ [(d & geoms & -> & _) | H]]; [reflexivity |].
  apply empty_merge_inv in H. tauto.
Qed.

Lemma _overlay_difference_crs df1 df2 l r :
  _overlay_difference df1 df2 = (l, inr r) -> crs r = crs df1.
Proof.
  intros H. apply _overlay_difference_inv in H.
  destruct H as (g1 & g2 & Hg1 & _ & _ & ->).
  apply (difference_result_labels df1 g1 g2 Hg1).
Qed.

Lemma _overlay_symmetric_diff_crs df1 df2 l r :
  _overlay_symmetric_diff PANDAS_GE_30 df1 df2 = (l, inr r) ->
  crs r = crs df1.
Proof.
  unfold _overlay_symmetric_diff. intros H.
  mstep H as l1 dfdiff1 H1. mstep H as l2 dfdiff2 H2. cbv zeta in H.
  mstep H as l3 e1 H3. mstep H as l4 e2 H4. mstep H as l5 dfsym H5.
  mstep H as l6 geometry_1 H6. mstep H as l7 geometry_2 H7.
  mstep H as l8 dfsym' H8.
  inversion H; subst. reflexivity.
Qed.

Lemma builder_crs how df1 df2 l r :
  builder how df1 df2 = (l, inr r) -> crs r = crs df1.
Proof.
  unfold builder.
  destruct (String.eqb how "difference");
    [apply _overlay_difference_crs |].
  destruct (String.eqb how "intersection");
    [apply _overlay_intersection_crs |].
  destruct (String.eqb how "symmetric_difference");
    [apply _overlay_symmetric_diff_crs |].
  destruct (String.eqb how "union").
  - unfold _overlay_union. intros H.
    mstep H as l1 dfinter H1. mstep H as l2 dfsym H2. cbv zeta in H.
    mstep H as l3 names H3. inversion H; subst.
    apply (_overlay_intersection_crs _ _ _ _ H1).
  - unfold _overlay_identity. intros H.
    mstep H as l1 dfinter H1. mstep H as l2 dfdiff H2.
    mstep H as l3 dfdiff' H3. cbv zeta in H.
    mstep H as l4 names H4. inversion H; subst.
    apply (_overlay_intersection_crs _ _ _ _ H1).
Qed.

Lemma kept_type_inv (keep : bool) res' t w le res'' :
  (if keep then _collection_extract res' t w else ret res') = (le, inr res'') ->
  gcolumns res'' = gcolumns res' /\
  _geometry_column_name res'' = _geometry_column_name res' /\
  crs res'' = crs res' /\
  gnrows res'' <= gnrows res'.
Proof.
  destruct keep.
  - intros H. apply _collection_extract_post in H.
    destruct H as (fam & v & _ & _ & _ & Hc & Hn & Hcrs & Hrows). auto.
  - intros H. inversion H; subst. auto.
Qed.

(** X6.  Whenever [overlay] returns, the result carries the CRS of the
    first input, for every [how] and on both paths; the CRS of the second
    input decides on the warning only. *)
Theorem overlay_result_crs df1 df2 how keep_geom_type make_valid l r :
  overlay PANDAS_GE_30 df1 df2 how keep_geom_type make_valid = (l, inr r) ->
  crs r = crs df1.
Proof.
  intros H. apply overlay_cases in H.
  destruct H as (g1 & g2 & l' & _ & _ & _ & _ & H).
  destruct (takes_fast_path how g1 g2).
  - apply empty_merge_inv in H. tauto.
  - apply overlay_main_steps in H.
    destruct H as (t & df1' & df2' & lb & res & res' & le & res''
                   & _ & H1 & _ & Hb & Hd & He & -> & _).
    cbn [with_frame crs].
    apply kept_type_inv in He. destruct He as (_ & _ & -> & _).
    apply _make_valid_inr in H1. destruct H1 as (_ & _ & _ & <- & _).
    apply builder_crs in Hb. rewrite <- Hb.
    destruct (mem how _).
    + apply gdrop_inv in Hd. tauto.
    + inversion Hd. reflexivity.
Qed.

(** *** The row index of the result *)

(** X7.  Whenever [overlay] returns, the rows of the result are numbered
    0, 1, 2, ... in order, whatever the row labels of the inputs were (the
    zero-row result of the fast path included). *)
Theorem overlay_result_index df1 df2 how keep_geom_type make_valid l r :
  overlay PANDAS_GE_30 df1 df2 how keep_geom_type make_valid = (l, inr r) ->
  index (frame r) = map Z.of_nat (range (gnrows r)).
Proof.
  intros H. apply overlay_cases in H.
  destruct H as (g1 & g2 & l' & _ & _ & _ & _ & H).
  destruct (takes_fast_path how g1 g2).
  - apply empty_merge_inv in H. destruct H as (_ & _ & _ & Hrows & _).
    rewrite Hrows. unfold gnrows, nrows in Hrows.
    apply length_zero_iff_nil in Hrows. rewrite Hrows. reflexivity.
  - apply overlay_main_steps in H.
    destruct H as (t & df1' & df2' & lb & res & res' & le & res''
                   & _ & _ & _ & _ & _ & _ & -> & _).
    unfold gnrows, nrows. cbn [with_frame frame reset_index index].
    rewrite length_map. unfold range at 3. rewrite length_seq. reflexivity.
Qed.

End Steps.

(** A frame with a CRS of its own. *)
Definition with_crs (c : nat) (g : @GeoDataFrame Toy.kernel)
  : @GeoDataFrame Toy.kernel :=
  @mkGeoDataFrame Toy.kernel (frame g) (_geometry_column_name g) (Some c).

Lemma overlay_result_crs_witness :
  exists l r,
    overlay true (with_crs 1 Toy.df1) (with_crs 2 Toy.df2) "union" None true
      = (l, inr r) /\
    In Warn_crs_mismatch l /\
    crs r = Some 1.
Proof.
  set (m := overlay true (with_crs 1 Toy.df1) (with_crs 2 Toy.df2)
              "union" None true).
  assert (E : m = (fst m, inr (value Toy.no_rows m)))
    by (apply run_eq; vm_compute; reflexivity).
  exists (fst m), (value Toy.no_rows m).
  split; [exact E |]. split; [vm_compute; auto |].
  exact (overlay_result_crs true (with_crs 1 Toy.df1) (with_crs 2 Toy.df2)
           "union" None true _ _ E).
Defined.

(** The frame of the docstring with row labels of its own. *)
Definition relabelled (ix : list Z) (g : @GeoDataFrame Toy.kernel)
  : @GeoDataFrame Toy.kernel :=
  with_frame g (mkDataFrame ix (cols (frame g))).

Lemma overlay_result_index_witness :
  exists l r,
    overlay true (relabelled [7; 3]%Z Toy.df1) Toy.df2 "difference" None true
      = (l, inr r) /\
    index (frame r) = [0; 1]%Z.
Proof.
  set (m := overlay true (relabelled [7; 3]%Z Toy.df1) Toy.df2
              "difference" None true).
  assert (E : m = (fst m, inr (value Toy.no_rows m)))
    by (apply run_eq; vm_compute; reflexivity).
  exists (fst m), (value Toy.no_rows m).
  split; [exact E |].
  rewrite (overlay_result_index true _ _ _ _ _ _ _ E).
  vm_compute. reflexivity.
Defined.

(** ** What [keep_geom_type] guarantees (lines 334-336 and 357-358) *)

Section Kept_family.
Context {K : Kernel}.
Variable PANDAS_GE_30 : bool.

Lemma lookup_col_In n (cs : list column) v :
  lookup_col n cs = Some v -> In (n, v) cs.
Proof.
  induction cs as [| [m w] cs IH]; cbn [lookup_col]; [discriminate |].
  destruct (String.eqb_spec n m) as [-> | _].
  - intros H. inversion H. left. reflexivity.
  - intros H. right. apply IH, H.
Qed.

Definition all_empty (cs : list column) : Prop :=
  Forall (fun c => snd c = []) cs.

Lemma all_empty_lookup cs n v :
  all_empty cs -> lookup_col n cs = Some v -> v = [].
Proof.
  intros Ha Hl. apply lookup_col_In in Hl.
  unfold all_empty in Ha. rewrite Forall_forall in Ha.
  apply (Ha (n, v) Hl).
Qed.

Lemma all_empty_set_col n cs : all_empty cs -> all_empty (set_col n [] cs).
Proof.
  unfold all_empty. induction cs as [| [m w] cs IH]; cbn [set_col]; intros H.
  - constructor; [reflexivity | constructor].
  - inversion H; subst. destruct (String.eqb n m); constructor; auto.
Qed.

Lemma all_empty_combine (ll : list string) (vs : list (list cell)) :
  Forall (fun v => v = []) vs -> all_empty (combine ll vs).
Proof.
  intros H. unfold all_empty. apply Forall_forall. intros [n v] Hin.
  apply in_combine_r in Hin. rewrite Forall_forall in H. apply H, Hin.
Qed.

Lemma getitem_columns_values names d l cs :
  getitem_columns names d = (l, inr cs) ->
  Forall (fun c => lookup_col (fst c) (cols d) = Some (snd c)) cs.
Proof.
  revert l cs. induction names as [| n names IH]; intros l cs H.
  - inversion H. constructor.
  - cbn [getitem_columns] in H. mstep H as l1 v Hv.
    apply getcol_inv in Hv. destruct Hv as [_ Hv].
    mstep H as l2 rest' Hr. inversion H; subst.
    constructor; [exact Hv | apply (IH _ _ Hr)].
Qed.

(** The zero-row frame of lines 70-80 and 301-309 has an empty geometry
    column. *)
Lemma empty_merge_geometry df1 df2 pair_index l r :
  empty_merge df1 df2 pair_index = (l, inr r) -> geometry r = ret [].
Proof.
  unfold empty_merge. intros H.
  mstep H as l1 g2 Hg2. mstep H as l2 right Hr.
  mstep H as l3 result Hm.
  mstep H as l4 g1 Hg1. mstep H as l5 names Hn. mstep H as l6 d Hd.
  inversion H; subst; clear H.
  unfold merge_on_index in Hm. mstep Hm as l7 labels Hl.
  cbn [iloc_none index enumerate length range seq combine flat_map map]
    in Hm.
  inversion Hm; subst; clear Hm.
  set (result := assemble [] (fst labels) (snd labels)
                   (iloc_none (frame df1)) right [] []) in *.
  assert (Hres : all_empty (cols result)).
  { unfold result, assemble. cbn [cols]. apply Forall_app. split;
      apply all_empty_combine; apply Forall_forall; intros v Hv;
      apply in_map_iff in Hv; destruct Hv as [c [<- _]]; reflexivity. }
  assert (Hres' :
    all_empty (cols (if pair_index
                     then setitem "__idx2" (repeat NA (nrows result))
                            (setitem "__idx1" (repeat NA (nrows result))
                               result)
                     else result))).
  { destruct pair_index; [| exact Hres].
    change (nrows result) with 0. cbn [repeat setitem cols].
    apply all_empty_set_col, all_empty_set_col, Hres. }
  unfold getitem in Hd. mstep Hd as l8 cs Hcs.
  inversion Hd; subst; clear Hd.
  pose proof (getitem_columns_values _ _ _ _ Hcs) as Hvals.
  apply getitem_columns_inv in Hcs. destruct Hcs as [_ Hnames].
  apply geometry_ret_lookup. cbn [with_frame frame cols _geometry_column_name].
  assert (Hmem : mem (_geometry_column_name df1) (map fst cs) = true).
  { rewrite Hnames, mem_app. cbn [mem existsb]. rewrite String.eqb_refl.
    rewrite orb_true_r. reflexivity. }
  rewrite lookup_col_mem in Hmem.
  destruct (lookup_col (_geometry_column_name df1) cs) as [v |] eqn:Hv;
    [| discriminate].
  f_equal. apply lookup_col_In in Hv. rewrite Forall_forall in Hvals.
  apply Hvals in Hv. cbn [fst snd] in Hv.
  apply (all_empty_lookup _ _ _ Hres' Hv).
Qed.

Lemma geometry_reset_index g :
  geometry (with_frame g (reset_index (frame g))) = geometry g.
Proof. reflexivity. Qed.

(** Two cells are of one family. *)
Definition same_family (c x : cell) : Prop :=
  exists fam,
    In fam families /\
    isin fam (cell_geom_type c) = true /\ isin fam (cell_geom_type x) = true.

(** X8.  Unless [keep_geom_type] is [False], every geometry of a result
    that [overlay] returns is of the family of the first geometry of the
    first input as it was before any repair: the result holds no geometry
    of another family, no collection and no missing geometry. *)
Theorem overlay_keeps_geom_type df1 df2 how keep_geom_type make_valid l r g1 :
  overlay PANDAS_GE_30 df1 df2 how keep_geom_type make_valid = (l, inr r) ->
  keep_geom_type <> Some false ->
  geometry df1 = ret g1 ->
  exists v,
    geometry r = ret v /\ Forall (same_family (hd NA g1)) v.
Proof.
  intros H Hk Hg1. apply overlay_cases in H.
  destruct H as (g1' & g2 & l' & _ & Hg1' & _ & _ & H).
  rewrite Hg1 in Hg1'. inversion Hg1'; subst g1'; clear Hg1'.
  destruct (takes_fast_path how g1 g2).
  - exists []. split; [| constructor].
    apply (empty_merge_geometry _ _ _ _ _ H).
  - apply overlay_main_steps in H.
    destruct H as (t & df1' & df2' & lb & res & res' & le & res''
                   & Ht & _ & _ & _ & _ & He & -> & _).
    assert (Hkeep : fst (keep_geom_type_flags keep_geom_type) = true).
    { destruct keep_geom_type as [[|] |]; try reflexivity. congruence. }
    rewrite Hkeep in Ht, He.
    apply first_row_type_inv in Ht. destruct Ht as [_ Ht].
    destruct (Ht eq_refl) as (c & g & Hg & ->).
    rewrite Hg1 in Hg. inversion Hg; subst g1; clear Hg.
    apply _collection_extract_post in He.
    destruct He as (fam & v & Hfam & Hv & Hall & _).
    apply family_of_members in Hfam. destruct Hfam as [Hin Hc].
    exists v. split; [rewrite geometry_reset_index; exact Hv |].
    cbn [hd]. eapply Forall_impl; [| exact Hall].
    intros x Hx. exists fam. auto.
Qed.

(** X9.  Unless [keep_geom_type] is [False], a call that does not leave
    through the fast path can only return if the first input has a first
    row whose geometry is a polygon, a line or a point (or a multi-part
    version of these): with a first geometry that is missing or a geometry
    collection the type filter of the last step refuses its argument. *)
Theorem overlay_first_geometry_type df1 df2 how keep_geom_type make_valid
    l r g1 g2 :
  overlay PANDAS_GE_30 df1 df2 how keep_geom_type make_valid = (l, inr r) ->
  keep_geom_type <> Some false ->
  geometry df1 = ret g1 ->
  geometry df2 = ret g2 ->
  takes_fast_path how g1 g2 = false ->
  exists c rest fam,
    g1 = c :: rest /\ In fam families /\
    isin fam (cell_geom_type c) = true /\
    cell_geom_type c <> None /\ cell_geom_type c <> Some GeometryCollection.
Proof.
  intros H Hk Hg1 Hg2 Hfast. apply overlay_cases in H.
  destruct H as (g1' & g2' & l' & _ & Hg1' & Hg2' & _ & H).
  rewrite Hg1 in Hg1'. inversion Hg1'; subst g1'; clear Hg1'.
  rewrite Hg2 in Hg2'. inversion Hg2'; subst g2'; clear Hg2'.
  rewrite Hfast in H. apply overlay_main_steps in H.
  destruct H as (t & df1' & df2' & lb & res & res' & le & res''
                 & Ht & _ & _ & _ & _ & He & _ & _).
  assert (Hkeep : fst (keep_geom_type_flags keep_geom_type) = true).
  { destruct keep_geom_type as [[|] |]; try reflexivity. congruence. }
  rewrite Hkeep in Ht, He.
  apply first_row_type_inv in Ht. destruct Ht as [_ Ht].
  destruct (Ht eq_refl) as (c & g & Hg & ->).
  rewrite Hg1 in Hg. inversion Hg; subst g1; clear Hg.
  apply _collection_extract_post in He.
  destruct He as (fam & v & Hfam & _).
  apply family_of_members in Hfam. destruct Hfam as [Hin Hc].
  exists c, g, fam. repeat split; auto.
  - intros E. rewrite E in Hc. discriminate.
  - intros E. rewrite E in Hc. simpl in Hin.
    destruct Hin as [<- | [<- | [<- | []]]]; discriminate.
Qed.

End Kept_family.

Lemma overlay_keeps_geom_type_witness :
  exists l r v,
    overlay true (Toy.one_row "geometry" Toy.BarA "a")
                 (Toy.one_row "geometry" Toy.HookB "b")
                 "intersection" None true = (l, inr r) /\
    geometry r = ret v /\
    Forall (same_family (Toy.poly Toy.BarA)) v.
Proof.
  set (m := overlay true (Toy.one_row "geometry" Toy.BarA "a")
              (Toy.one_row "geometry" Toy.HookB "b")
              "intersection" None true).
  assert (E : m = (fst m, inr (value Toy.no_rows m)))
    by (apply run_eq; vm_compute; reflexivity).
  destruct (overlay_keeps_geom_type true _ _ _ _ _ _ _
              [Toy.poly Toy.BarA] E)
    as (v & Hv & Hall).
  - discriminate.
  - reflexivity.
  - exists (fst m), (value Toy.no_rows m), v. auto.
Defined.

(** ** Rows and index queries of the composite operations
       (lines 109-169) *)

Section Rows.
Context {K : Kernel}.
Variable PANDAS_GE_30 : bool.

Lemma nrows_concat a b : nrows (concat a b) = nrows a + nrows b.
Proof.
  unfold concat, nrows at 1. cbn [index]. rewrite length_map.
  unfold range. apply length_seq.
Qed.

Lemma length_enumerate {A} (l : list A) : length (enumerate l) = length l.
Proof.
  unfold enumerate, range. rewrite length_combine, length_seq.
  apply Nat.min_id.
Qed.

Lemma length_insert_row r l : length (insert_row r l) = S (length l).
Proof.
  induction l as [| r' l IH]; cbn [insert_row length]; auto.
  destruct (keys_leb (fst r') (fst r)); cbn [length]; auto.
Qed.

Lemma length_sort_rows l : length (sort_rows l) = length l.
Proof.
  unfold sort_rows.
  assert (H : forall acc,
            length (fold_left (fun acc r => insert_row r acc) l acc)
            = length l + length acc).
  { induction l as [| r l IH]; intros acc; cbn [fold_left length]; auto.
    rewrite IH, length_insert_row. lia. }
  rewrite H. cbn [length]. lia.
Qed.

Lemma length_flat_map_singletons {A B} (f : A -> list B) l :
  (forall x, In x l -> length (f x) = 1) ->
  length (flat_map f l) = length l.
Proof.
  induction l as [| a l IH]; intros H; cbn [flat_map length]; auto.
  rewrite length_app, (H a (or_introl eq_refl)), IH
    by (intros; apply H; right; auto).
  reflexivity.
Qed.

Lemma existsb_none {A} (f : A -> bool) l :
  (forall x, In x l -> f x = false) -> existsb f l = false.
Proof.
  induction l as [| a l IH]; intros H; cbn [existsb]; auto.
  rewrite (H a (or_introl eq_refl)), IH by (intros; apply H; right; auto).
  reflexivity.
Qed.

(** An outer merge on two key columns yields one row per row of either
    side when no key of the left occurs on the right. *)
Lemma merge_outer_on_rows left right k1 k2 sfx l d l1 l2 r1 r2 :
  merge_outer_on left right k1 k2 sfx = (l, inr d) ->
  lookup_col k1 (cols left) = Some l1 ->
  lookup_col k2 (cols left) = Some l2 ->
  lookup_col k1 (cols right) = Some r1 ->
  lookup_col k2 (cols right) = Some r2 ->
  (forall a b, In a (combine l1 l2) -> In b (combine r1 r2) ->
               keys_eqb a b = false) ->
  l = [] /\
  nrows d = length (combine l1 l2) + length (combine r1 r2).
Proof.
  unfold merge_outer_on, getcol. intros H L1 L2 R1 R2 Hdis.
  rewrite L1, L2, R1, R2, !bind_ret in H.
  mstep H as la right' Hd. apply drop_inv in Hd. destruct Hd as [-> _].
  mstep H as lb labels Hl. apply items_overlap_inv in Hl.
  destruct Hl as [-> _].
  cbv zeta in H. inversion H; subst; clear H. split; [reflexivity |].
  unfold nrows. cbn [setitem index assemble].
  rewrite length_map. unfold range. rewrite length_seq.
  rewrite length_sort_rows, length_app. f_equal.
  - rewrite length_flat_map_singletons; [apply length_enumerate |].
    intros [i key] Hin. apply in_combine_r in Hin. cbn [fst snd].
    rewrite filter_none; [reflexivity |].
    intros [j key'] Hj. apply in_combine_r in Hj. cbn [snd].
    apply Hdis; assumption.
  - rewrite length_flat_map_singletons; [apply length_enumerate |].
    intros [j key'] Hj. apply in_combine_r in Hj. cbn [fst snd].
    rewrite existsb_none; [reflexivity |].
    intros key Hin. apply Hdis; assumption.
Qed.

Lemma merge_outer_on_log left right k1 k2 sfx l d :
  merge_outer_on left right k1 k2 sfx = (l, inr d) -> l = [].
Proof.
  unfold merge_outer_on. intros H.
  mstep H as l1 a1 H1. apply getcol_inv in H1. destruct H1 as [-> _].
  mstep H as l2 a2 H2. apply getcol_inv in H2. destruct H2 as [-> _].
  mstep H as l3 a3 H3. apply getcol_inv in H3. destruct H3 as [-> _].
  mstep H as l4 a4 H4. apply getcol_inv in H4. destruct H4 as [-> _].
  mstep H as l5 right' Hd. apply drop_inv in Hd. destruct Hd as [-> _].
  mstep H as l6 labels Hl. apply items_overlap_inv in Hl.
  destruct Hl as [-> _].
  cbv zeta in H. inversion H; subst. reflexivity.
Qed.

Lemma getattr_col_log n d l v : getattr_col n d = (l, inr v) -> l = [].
Proof.
  unfold getattr_col. destruct (lookup_col n (cols d));
    intros H; inversion H; reflexivity.
Qed.

Lemma _overlay_difference_ok df1 df2 l r :
  _overlay_difference df1 df2 = (l, inr r) ->
  l = [Sindex_query] /\ exists v, geometry r = ret v.
Proof.
  intros H. apply _overlay_difference_inv in H.
  destruct H as (g1 & g2 & _ & _ & -> & ->). split; [reflexivity |].
  apply difference_result_geometry.
Qed.

(** Lines 160-169. *)
Lemma _overlay_union_rows df1 df2 l r :
  _overlay_union PANDAS_GE_30 df1 df2 = (l, inr r) ->
  exists li dfinter ls dfsym,
    _overlay_intersection df1 df2 = (li, inr dfinter) /\
    _overlay_symmetric_diff PANDAS_GE_30 df1 df2 = (ls, inr dfsym) /\
    l = li ++ ls /\
    gnrows r = gnrows dfinter + gnrows dfsym.
Proof.
  unfold _overlay_union. intros H.
  mstep H as li dfinter H1. mstep H as ls dfsym H2. cbv zeta in H.
  mstep H as l3 names H3. apply geometry_last_inv in H3.
  destruct H3 as [-> _]. inversion H; subst; clear H.
  exists li, dfinter, ls, dfsym. repeat split; auto.
  - rewrite !app_nil_r. reflexivity.
  - unfold gnrows at 1. cbn [with_frame frame gconcat].
    unfold reindex_columns, nrows at 1. cbn [index].
    fold (nrows (concat (frame dfinter) (frame dfsym))).
    apply nrows_concat.
Qed.

(** Lines 109-130. *)
Lemma _overlay_identity_rows df1 df2 l r :
  _overlay_identity PANDAS_GE_30 df1 df2 = (l, inr r) ->
  exists li dfinter ld dfdiff,
    _overlay_intersection df1 df2 = (li, inr dfinter) /\
    _overlay_difference df1 df2 = (ld, inr dfdiff) /\
    l = li ++ ld /\
    gnrows r = gnrows dfinter + gnrows dfdiff.
Proof.
  unfold _overlay_identity. intros H.
  mstep H as li dfinter H1. mstep H as ld dfdiff H2.
  mstep H as l3 dfdiff' H3.
  destruct (_overlay_difference_ok _ _ _ _ H2) as [_ [v Hv]].
  rewrite (_ensure_geometry_column_eq PANDAS_GE_30 dfdiff v Hv) in H3.
  inversion H3; subst l3 dfdiff'; clear H3.
  cbv zeta in H.
  mstep H as l4 names H4. apply geometry_last_inv in H4.
  destruct H4 as [-> _]. inversion H; subst; clear H.
  exists li, dfinter, ld, dfdiff. repeat split; auto.
  - rewrite !app_nil_r. reflexivity.
  - unfold gnrows at 1. cbn [with_frame frame gconcat].
    unfold reindex_columns, nrows at 1. cbn [index].
    match goal with
    | |- length (index (concat ?a ?b)) = _ =>
        fold (nrows (concat a b)); rewrite nrows_concat
    end.
    unfold gnrows, nrows at 2, set_columns. cbn [index].
    rewrite ensured_index. reflexivity.
Qed.

(** The labels the builders reserve for the pair index. *)
Definition reserved (n : string) : Prop := n = "__idx1" \/ n = "__idx2".

(** Lines 133-157. *)
Lemma _overlay_symmetric_diff_rows df1 df2 l r :
  _overlay_symmetric_diff PANDAS_GE_30 df1 df2 = (l, inr r) ->
  ~ reserved (_geometry_column_name df1) ->
  ~ reserved (_geometry_column_name df2) ->
  exists d12 d21,
    _overlay_difference df1 df2 = ([Sindex_query], inr d12) /\
    _overlay_difference df2 df1 = ([Sindex_query], inr d21) /\
    gnrows r = gnrows d12 + gnrows d21.
Proof.
  unfold _overlay_symmetric_diff. intros H Hr1 Hr2.
  mstep H as l1 dfdiff1 H1. mstep H as l2 dfdiff2 H2. cbv zeta in H.
  exists dfdiff1, dfdiff2.
  destruct (_overlay_difference_ok _ _ _ _ H1) as [-> [v1 Hv1]].
  destruct (_overlay_difference_ok _ _ _ _ H2) as [-> [v2 Hv2]].
  split; [exact H1 |]. split; [exact H2 |].
  assert (Hn1 : _geometry_column_name dfdiff1 = _geometry_column_name df1).
  { apply _overlay_difference_inv in H1.
    destruct H1 as (g1 & g2 & Hg1 & _ & _ & ->).
    apply (difference_result_labels df1 g1 g2 Hg1). }
  assert (Hn2 : _geometry_column_name dfdiff2 = _geometry_column_name df2).
  { apply _overlay_difference_inv in H2.
    destruct H2 as (g1 & g2 & Hg1 & _ & _ & ->).
    apply (difference_result_labels df2 g1 g2 Hg1). }
  set (n1 := gnrows dfdiff1) in *. set (n2 := gnrows dfdiff2) in *.
  set (A1 := gsetitem "__idx2" _ (gsetitem "__idx1" _ dfdiff1)) in H.
  set (A2 := gsetitem "__idx1" _ (gsetitem "__idx2" _ dfdiff2)) in H.
  assert (HA1 : exists v, geometry A1 = ret v).
  { do 2 apply gsetitem_has_geometry. eauto. }
  assert (HA2 : exists v, geometry A2 = ret v).
  { do 2 apply gsetitem_has_geometry. eauto. }
  destruct HA1 as [w1 HA1]. destruct HA2 as [w2 HA2].
  rewrite (_ensure_geometry_column_eq PANDAS_GE_30 A1 w1 HA1), bind_ret in H.
  rewrite (_ensure_geometry_column_eq PANDAS_GE_30 A2 w2 HA2), bind_ret in H.
  mstep H as l5 dfsym H5.
  mstep H as l6 geometry_1 H6. mstep H as l7 geometry_2 H7.
  mstep H as l8 dfsym' H8. apply drop_inv in H8.
  destruct H8 as [_ [Hix _]].
  inversion H; subst r; clear H.
  assert (L11 : lookup_col "__idx1" (cols (frame (ensured A1)))
                = Some (map (fun i => Num (Z.of_nat i)) (range n1))).
  { rewrite ensured_lookup.
    - unfold A1, gsetitem, setitem. cbn [with_frame frame cols].
      rewrite lookup_set_col_other by discriminate.
      apply lookup_set_col_same.
    - discriminate.
    - unfold A1. cbn [gsetitem with_frame _geometry_column_name].
      rewrite Hn1. intros E. apply Hr1. left. symmetry. exact E. }
  assert (L12 : lookup_col "__idx2" (cols (frame (ensured A1)))
                = Some (repeat NA n1)).
  { rewrite ensured_lookup.
    - unfold A1, gsetitem, setitem. cbn [with_frame frame cols].
      apply lookup_set_col_same.
    - discriminate.
    - unfold A1. cbn [gsetitem with_frame _geometry_column_name].
      rewrite Hn1. intros E. apply Hr1. right. symmetry. exact E. }
  assert (L21 : lookup_col "__idx1" (cols (frame (ensured A2)))
                = Some (repeat NA n2)).
  { rewrite ensured_lookup.
    - unfold A2, gsetitem, setitem. cbn [with_frame frame cols].
      apply lookup_set_col_same.
    - discriminate.
    - unfold A2. cbn [gsetitem with_frame _geometry_column_name].
      rewrite Hn2. intros E. apply Hr2. left. symmetry. exact E. }
  assert (L22 : lookup_col "__idx2" (cols (frame (ensured A2)))
                = Some (map (fun i => Num (Z.of_nat i)) (range n2))).
  { rewrite ensured_lookup.
    - unfold A2, gsetitem, setitem. cbn [with_frame frame cols].
      rewrite lookup_set_col_other by discriminate.
      apply lookup_set_col_same.
    - discriminate.
    - unfold A2. cbn [gsetitem with_frame _geometry_column_name].
      rewrite Hn2. intros E. apply Hr2. right. symmetry. exact E. }
  destruct (merge_outer_on_rows _ _ _ _ _ _ _ _ _ _ _ H5 L11 L12 L21 L22)
    as [_ Hrows].
  { intros [a1 a2] [b1 b2] Ha Hb.
    pose proof (in_combine_l _ _ _ _ Ha) as Ha1.
    pose proof (in_combine_l _ _ _ _ Hb) as Hb1.
    apply in_map_iff in Ha1. destruct Ha1 as [i [<- _]].
    apply repeat_spec in Hb1. subst b1. reflexivity. }
  unfold gnrows at 1, GeoDataFrame_of, nrows. cbn [frame setitem index].
  unfold reset_index. cbn [index]. rewrite length_map. unfold range at 1.
  rewrite length_seq. unfold nrows. rewrite Hix.
  fold (nrows dfsym). rewrite Hrows.
  rewrite !length_combine, !length_map, !repeat_length.
  unfold range. rewrite !length_seq, !Nat.min_id. reflexivity.
Qed.

Lemma _overlay_symmetric_diff_log df1 df2 l r :
  _overlay_symmetric_diff PANDAS_GE_30 df1 df2 = (l, inr r) ->
  l = [Sindex_query; Sindex_query].
Proof.
  unfold _overlay_symmetric_diff. intros H.
  mstep H as l1 dfdiff1 H1. mstep H as l2 dfdiff2 H2. cbv zeta in H.
  destruct (_overlay_difference_ok _ _ _ _ H1) as [-> [v1 Hv1]].
  destruct (_overlay_difference_ok _ _ _ _ H2) as [-> [v2 Hv2]].
  mstep H as l3 e1 H3. apply _ensure_geometry_column_inv in H3;
    [| do 2 apply gsetitem_has_geometry; eauto].
  destruct H3 as [-> _].
  mstep H as l4 e2 H4. apply _ensure_geometry_column_inv in H4;
    [| do 2 apply gsetitem_has_geometry; eauto].
  destruct H4 as [-> _].
  mstep H as l5 dfsym H5. apply merge_outer_on_log in H5. subst l5.
  mstep H as l6 geometry_1 H6. apply getattr_col_log in H6. subst l6.
  mstep H as l7 geometry_2 H7. apply getcol_inv in H7.
  destruct H7 as [-> _].
  mstep H as l8 dfsym' H8. apply drop_inv in H8. destruct H8 as [-> _].
  inversion H; subst. reflexivity.
Qed.

(** The number of index queries behind each operation. *)
Definition queries (how : string) : nat :=
  if String.eqb how "difference" then 1
  else if String.eqb how "intersection" then 1
  else if String.eqb how "symmetric_difference" then 2
  else if String.eqb how "union" then 3
  else 2.

Lemma builder_log how df1 df2 l r :
  builder PANDAS_GE_30 how df1 df2 = (l, inr r) ->
  l = repeat Sindex_query (queries how).
Proof.
  unfold builder, queries.
  destruct (String.eqb how "difference").
  { intros H. apply _overlay_difference_ok in H. tauto. }
  destruct (String.eqb how "intersection").
  { intros H. apply _overlay_intersection_inv in H. tauto. }
  destruct (String.eqb how "symmetric_difference").
  { apply _overlay_symmetric_diff_log. }
  destruct (String.eqb how "union").
  - intros H. apply _overlay_union_rows in H.
    destruct H as (li & dfinter & ls & dfsym & Hi & Hs & -> & _).
    apply _overlay_intersection_inv in Hi. destruct Hi as [-> _].
    apply _overlay_symmetric_diff_log in Hs. subst ls. reflexivity.
  - intros H. apply _overlay_identity_rows in H.
    destruct H as (li & dfinter & ld & dfdiff & Hi & Hd & -> & _).
    apply _overlay_intersection_inv in Hi. destruct Hi as [-> _].
    apply _overlay_difference_ok in Hd. destruct Hd as [-> _].
    reflexivity.
Qed.

End Rows.

(** ** The cost and the row counts of a call *)

Section Counts.
Context {K : Kernel}.
Variable PANDAS_GE_30 : bool.

Lemma crs_log_no_query df1 df2 :
  filter is_index_query (crs_log df1 df2) = [].
Proof. unfold crs_log. destruct (_check_crs _ _); reflexivity. Qed.

Lemma extract_log_no_query df fam g w :
  filter is_index_query (extract_log df fam g w) = [].
Proof. unfold extract_log. destruct (_ && _); reflexivity. Qed.

Lemma filter_repeat_queries n :
  filter is_index_query (repeat Sindex_query n) = repeat Sindex_query n.
Proof. induction n as [| n IH]; cbn [repeat filter is_index_query]; congruence. Qed.

(** X10.  A call of [overlay] that returns has queried the spatial index
    once for "difference" and "intersection", twice for
    "symmetric_difference" and "identity" and three times for "union";
    the fast path of "intersection" queries nothing. *)
Theorem overlay_index_queries df1 df2 how keep_geom_type make_valid l r g1 g2 :
  overlay PANDAS_GE_30 df1 df2 how keep_geom_type make_valid = (l, inr r) ->
  geometry df1 = ret g1 ->
  geometry df2 = ret g2 ->
  length (filter is_index_query l) =
  if takes_fast_path how g1 g2 then 0 else queries how.
Proof.
  intros H Hg1 Hg2. apply overlay_cases in H.
  destruct H as (g1' & g2' & l' & _ & Hg1' & Hg2' & -> & H).
  rewrite Hg1 in Hg1'. inversion Hg1'; subst g1'.
  rewrite Hg2 in Hg2'. inversion Hg2'; subst g2'.
  rewrite filter_app, crs_log_no_query. cbn [app].
  destruct (takes_fast_path how g1 g2).
  - apply empty_merge_inv in H. destruct H as [-> _]. reflexivity.
  - apply overlay_main_steps in H.
    destruct H as (t & df1' & df2' & lb & res & res' & le & res''
                   & _ & _ & _ & Hb & _ & He & _ & ->).
    apply builder_log in Hb. subst lb.
    rewrite filter_app, filter_repeat_queries, length_app, repeat_length.
    assert (Hle : filter is_index_query le = []).
    { destruct (fst (keep_geom_type_flags keep_geom_type)).
      - apply _collection_extract_inr in He.
        destruct He as (fam & g & _ & _ & -> & _).
        apply extract_log_no_query.
      - inversion He. reflexivity. }
    rewrite Hle. cbn [length]. lia.
Qed.

(** With [keep_geom_type=False] the frame of the builder comes back with
    all its rows. *)
Lemma overlay_main_unfiltered df1 df2 how mv l r :
  overlay_main PANDAS_GE_30 df1 df2 how (Some false) mv = (l, inr r) ->
  exists df1' df2' res,
    _make_valid mv df1 = ([], inr df1') /\
    _make_valid mv df2 = ([], inr df2') /\
    builder PANDAS_GE_30 how df1' df2' = (l, inr res) /\
    gnrows r = gnrows res.
Proof.
  intros H. apply overlay_main_steps in H.
  destruct H as (t & df1' & df2' & lb & res & res' & le & res''
                 & _ & H1 & H2 & Hb & Hd & He & -> & ->).
  cbn [keep_geom_type_flags fst] in He. inversion He; subst le res''.
  exists df1', df2', res. rewrite app_nil_r.
  repeat split; auto.
  unfold gnrows, nrows. cbn [with_frame frame reset_index index].
  rewrite length_map. unfold range. rewrite length_seq.
  destruct (mem how _).
  - unfold gdrop in Hd. mstep Hd as l1 d Hdd. apply drop_inv in Hdd.
    destruct Hdd as [_ [Hix _]]. inversion Hd; subst.
    cbn [with_frame frame]. unfold nrows. rewrite Hix. reflexivity.
  - inversion Hd. reflexivity.
Qed.

Lemma overlay_unfiltered df1 df2 how mv l r g1 g2 :
  overlay PANDAS_GE_30 df1 df2 how (Some false) mv = (l, inr r) ->
  geometry df1 = ret g1 ->
  geometry df2 = ret g2 ->
  takes_fast_path how g1 g2 = false ->
  exists df1' df2' lb res,
    _make_valid mv df1 = ([], inr df1') /\
    _make_valid mv df2 = ([], inr df2') /\
    builder PANDAS_GE_30 how df1' df2' = (lb, inr res) /\
    gnrows r = gnrows res.
Proof.
  intros H Hg1 Hg2 Hfast. apply overlay_cases in H.
  destruct H as (g1' & g2' & l' & _ & Hg1' & Hg2' & -> & H).
  rewrite Hg1 in Hg1'. inversion Hg1'; subst g1'.
  rewrite Hg2 in Hg2'. inversion Hg2'; subst g2'.
  rewrite Hfast in H. apply overlay_main_unfiltered in H.
  destruct H as (df1' & df2' & res & H1 & H2 & Hb & Hrows).
  exists df1', df2', l', res. auto.
Qed.

(** X11.  With [keep_geom_type=False], whenever the three calls return and
    the "intersection" call does not leave through the fast path, the
    number of rows of the "union" is the number of rows of the
    "intersection" plus that of the "symmetric_difference". *)
Theorem overlay_union_rows df1 df2 make_valid g1 g2 lu ru li ri ls rs :
  geometry df1 = ret g1 ->
  geometry df2 = ret g2 ->
  takes_fast_path "intersection" g1 g2 = false ->
  overlay PANDAS_GE_30 df1 df2 "union" (Some false) make_valid
    = (lu, inr ru) ->
  overlay PANDAS_GE_30 df1 df2 "intersection" (Some false) make_valid
    = (li, inr ri) ->
  overlay PANDAS_GE_30 df1 df2 "symmetric_difference" (Some false) make_valid
    = (ls, inr rs) ->
  gnrows ru = gnrows ri + gnrows rs.
Proof.
  intros Hg1 Hg2 Hfast Hu Hi Hs.
  apply (overlay_unfiltered _ _ _ _ _ _ g1 g2) in Hu; auto.
  apply (overlay_unfiltered _ _ _ _ _ _ g1 g2) in Hi; auto.
  apply (overlay_unfiltered _ _ _ _ _ _ g1 g2) in Hs; auto.
  destruct Hu as (a1 & a2 & lbu & resu & Ha1 & Ha2 & Hbu & ->).
  destruct Hi as (b1 & b2 & lbi & resi & Hb1 & Hb2 & Hbi & ->).
  destruct Hs as (c1 & c2 & lbs & ress & Hc1 & Hc2 & Hbs & ->).
  rewrite Ha1 in Hb1, Hc1. inversion Hb1; subst b1. inversion Hc1; subst c1.
  rewrite Ha2 in Hb2, Hc2. inversion Hb2; subst b2. inversion Hc2; subst c2.
  change (_overlay_union PANDAS_GE_30 a1 a2 = (lbu, inr resu)) in Hbu.
  change (_overlay_intersection a1 a2 = (lbi, inr resi)) in Hbi.
  change (_overlay_symmetric_diff PANDAS_GE_30 a1 a2 = (lbs, inr ress))
    in Hbs.
  apply _overlay_union_rows in Hbu.
  destruct Hbu as (li' & dfinter & ls' & dfsym & Hi' & Hs' & _ & ->).
  rewrite Hbi in Hi'. inversion Hi'; subst.
  rewrite Hbs in Hs'. inversion Hs'; subst.
  reflexivity.
Qed.

(** X12.  With [keep_geom_type=False], whenever the three calls return and
    the "intersection" call does not leave through the fast path, the
    number of rows of the "identity" is the number of rows of the
    "intersection" plus that of the "difference". *)
Theorem overlay_identity_rows df1 df2 make_valid g1 g2 ly ry li ri ld rd :
  geometry df1 = ret g1 ->
  geometry df2 = ret g2 ->
  takes_fast_path "intersection" g1 g2 = false ->
  overlay PANDAS_GE_30 df1 df2 "identity" (Some false) make_valid
    = (ly, inr ry) ->
  overlay PANDAS_GE_30 df1 df2 "intersection" (Some false) make_valid
    = (li, inr ri) ->
  overlay PANDAS_GE_30 df1 df2 "difference" (Some false) make_valid
    = (ld, inr rd) ->
  gnrows ry = gnrows ri + gnrows rd.
Proof.
  intros Hg1 Hg2 Hfast Hy Hi Hd.
  apply (overlay_unfiltered _ _ _ _ _ _ g1 g2) in Hy; auto.
  apply (overlay_unfiltered _ _ _ _ _ _ g1 g2) in Hi; auto.
  apply (overlay_unfiltered _ _ _ _ _ _ g1 g2) in Hd; auto.
  destruct Hy as (a1 & a2 & lby & resy & Ha1 & Ha2 & Hby & ->).
  destruct Hi as (b1 & b2 & lbi & resi & Hb1 & Hb2 & Hbi & ->).
  destruct Hd as (c1 & c2 & lbd & resd & Hc1 & Hc2 & Hbd & ->).
  rewrite Ha1 in Hb1, Hc1. inversion Hb1; subst b1. inversion Hc1; subst c1.
  rewrite Ha2 in Hb2, Hc2. inversion Hb2; subst b2. inversion Hc2; subst c2.
  change (_overlay_identity PANDAS_GE_30 a1 a2 = (lby, inr resy)) in Hby.
  change (_overlay_intersection a1 a2 = (lbi, inr resi)) in Hbi.
  change (_overlay_difference a1 a2 = (lbd, inr resd)) in Hbd.
  apply _overlay_identity_rows in Hby.
  destruct Hby as (li' & dfinter & ld' & dfdiff & Hi' & Hd' & _ & ->).
  rewrite Hbi in Hi'. inversion Hi'; subst.
  rewrite Hbd in Hd'. inversion Hd'; subst.
  reflexivity.
Qed.

(** X13.  With [keep_geom_type=False] and geometry columns that do not use
    the reserved labels "__idx1" and "__idx2", whenever the three calls
    return, the "symmetric_difference" of two inputs has as many rows as
    the "difference" of the first from the second and the "difference" of
    the second from the first together. *)
Theorem overlay_symmetric_difference_rows df1 df2 make_valid
    ls rs l12 r12 l21 r21 :
  ~ reserved (_geometry_column_name df1) ->
  ~ reserved (_geometry_column_name df2) ->
  overlay PANDAS_GE_30 df1 df2 "symmetric_difference" (Some false) make_valid
    = (ls, inr rs) ->
  overlay PANDAS_GE_30 df1 df2 "difference" (Some false) make_valid
    = (l12, inr r12) ->
  overlay PANDAS_GE_30 df2 df1 "difference" (Some false) make_valid
    = (l21, inr r21) ->
  gnrows rs = gnrows r12 + gnrows r21.
Proof.
  intros Hr1 Hr2 Hs H12 H21.
  destruct (overlay_inr _ _ _ _ _ _ _ _ Hs)
    as (g1 & g2 & _ & Hg1 & Hg2 & _ & _).
  apply (overlay_unfiltered _ _ _ _ _ _ g1 g2) in Hs; auto.
  apply (overlay_unfiltered _ _ _ _ _ _ g1 g2) in H12; auto.
  apply (overlay_unfiltered _ _ _ _ _ _ g2 g1) in H21; auto.
  destruct Hs as (a1 & a2 & lbs & ress & Ha1 & Ha2 & Hbs & ->).
  destruct H12 as (b1 & b2 & lb12 & res12 & Hb1 & Hb2 & Hb12 & ->).
  destruct H21 as (c2 & c1 & lb21 & res21 & Hc2 & Hc1 & Hb21 & ->).
  rewrite Ha1 in Hb1, Hc1. inversion Hb1; subst b1. inversion Hc1; subst c1.
  rewrite Ha2 in Hb2, Hc2. inversion Hb2; subst b2. inversion Hc2; subst c2.
  change (_overlay_symmetric_diff PANDAS_GE_30 a1 a2 = (lbs, inr ress))
    in Hbs.
  change (_overlay_difference a1 a2 = (lb12, inr res12)) in Hb12.
  change (_overlay_difference a2 a1 = (lb21, inr res21)) in Hb21.
  apply _make_valid_inr in Ha1. destruct Ha1 as (_ & _ & Hn1 & _).
  apply _make_valid_inr in Ha2. destruct Ha2 as (_ & _ & Hn2 & _).
  apply _overlay_symmetric_diff_rows in Hbs;
    [| rewrite Hn1; exact Hr1 | rewrite Hn2; exact Hr2].
  destruct Hbs as (d12 & d21 & H12 & H21 & ->).
  rewrite Hb12 in H12. inversion H12; subst.
  rewrite Hb21 in H21. inversion H21; subst.
  reflexivity.
Qed.

End Counts.

Lemma overlay_index_queries_witness :
  exists l r,
    overlay true Toy.df1 Toy.df2 "union" None true = (l, inr r) /\
    length (filter is_index_query l) = 3.
Proof.
  set (m := overlay true Toy.df1 Toy.df2 "union" None true).
  assert (E : m = (fst m, inr (value Toy.no_rows m)))
    by (apply run_eq; vm_compute; reflexivity).
  exists (fst m), (value Toy.no_rows m). split; [exact E |].
  exact (overlay_index_queries true Toy.df1 Toy.df2 "union" None true _ _
           [Toy.poly Toy.P1; Toy.poly Toy.P2]
           [Toy.poly Toy.Q1; Toy.poly Toy.Q2] E eq_refl eq_refl).
Defined.

Lemma overlay_union_rows_witness :
  gnrows (value Toy.no_rows
            (overlay true Toy.df1 Toy.df2 "union" (Some false) true)) = 7 /\
  gnrows (value Toy.no_rows
            (overlay true Toy.df1 Toy.df2 "union" (Some false) true)) =
  gnrows (value Toy.no_rows
            (overlay true Toy.df1 Toy.df2 "intersection" (Some false) true))
  + gnrows (value Toy.no_rows
              (overlay true Toy.df1 Toy.df2 "symmetric_difference"
                 (Some false) true)).
Proof.
  split; [vm_compute; reflexivity |].
  apply (overlay_union_rows true Toy.df1 Toy.df2 true
           [Toy.poly Toy.P1; Toy.poly Toy.P2]
           [Toy.poly Toy.Q1; Toy.poly Toy.Q2]
           (fst (overlay true Toy.df1 Toy.df2 "union" (Some false) true)) _
           (fst (overlay true Toy.df1 Toy.df2 "intersection"
                   (Some false) true)) _
           (fst (overlay true Toy.df1 Toy.df2 "symmetric_difference"
                   (Some false) true)) _);
    first [ apply run_eq; vm_compute; reflexivity | reflexivity ].
Defined.

Lemma overlay_identity_rows_witness :
  gnrows (value Toy.no_rows
            (overlay true Toy.df1 Toy.df2 "identity" (Some false) true)) = 5 /\
  gnrows (value Toy.no_rows
            (overlay true Toy.df1 Toy.df2 "identity" (Some false) true)) =
  gnrows (value Toy.no_rows
            (overlay true Toy.df1 Toy.df2 "intersection" (Some false) true))
  + gnrows (value Toy.no_rows
              (overlay true Toy.df1 Toy.df2 "difference" (Some false) true)).
Proof.
  split; [vm_compute; reflexivity |].
  apply (overlay_identity_rows true Toy.df1 Toy.df2 true
           [Toy.poly Toy.P1; Toy.poly Toy.P2]
           [Toy.poly Toy.Q1; Toy.poly Toy.Q2]
           (fst (overlay true Toy.df1 Toy.df2 "identity" (Some false) true)) _
           (fst (overlay true Toy.df1 Toy.df2 "intersection"
                   (Some false) true)) _
           (fst (overlay true Toy.df1 Toy.df2 "difference"
                   (Some false) true)) _);
    first [ apply run_eq; vm_compute; reflexivity | reflexivity ].
Defined.

Lemma overlay_symmetric_difference_rows_witness :
  gnrows (value Toy.no_rows
            (overlay true Toy.df1 Toy.df2 "symmetric_difference"
               (Some false) true)) = 4 /\
  gnrows (value Toy.no_rows
            (overlay true Toy.df1 Toy.df2 "symmetric_difference"
               (Some false) true)) =
  gnrows (value Toy.no_rows
            (overlay true Toy.df1 Toy.df2 "difference" (Some false) true))
  + gnrows (value Toy.no_rows
              (overlay true Toy.df2 Toy.df1 "difference" (Some false) true)).
Proof.
  split; [vm_compute; reflexivity |].
  apply (overlay_symmetric_difference_rows true Toy.df1 Toy.df2 true
           (fst (overlay true Toy.df1 Toy.df2 "symmetric_difference"
                   (Some false) true)) _
           (fst (overlay true Toy.df1 Toy.df2 "difference"
                   (Some false) true)) _
           (fst (overlay true Toy.df2 Toy.df1 "difference"
                   (Some false) true)) _);
    first [ apply run_eq; vm_compute; reflexivity
          | intros [E | E]; discriminate E ].
Defined.

Lemma overlay_first_geometry_type_witness :
  exists c rest fam,
    [Toy.poly Toy.P1; Toy.poly Toy.P2] = c :: rest /\ In fam families /\
    isin fam (cell_geom_type c) = true /\
    cell_geom_type c <> None /\ cell_geom_type c <> Some GeometryCollection.
Proof.
  set (m := overlay true Toy.df1 Toy.df2 "union" None true).
  assert (E : m = (fst m, inr (value Toy.no_rows m)))
    by (apply run_eq; vm_compute; reflexivity).
  assert (Hk : @None bool <> Some false) by discriminate.
  exact (overlay_first_geometry_type true Toy.df1 Toy.df2 "union" None true
           (fst m) (value Toy.no_rows m)
           [Toy.poly Toy.P1; Toy.poly Toy.P2]
           [Toy.poly Toy.Q1; Toy.poly Toy.Q2] E Hk eq_refl eq_refl eq_refl).
Defined.

(** ** The rows the builders compute (lines 35-106) *)

Section Builder_rows.
Context {K : Kernel}.
Variable PANDAS_GE_30 : bool.

(** The geometry of the pair of rows [(i, j)]: the intersection of the two
    geometries, repaired when it is of the polygon family. *)
Definition pair_intersection (g1 g2 : list cell) (p : nat * nat) : cell :=
  repair (match nth (fst p) g1 NA, nth (snd p) g2 NA with
          | Geo a, Geo b => Geo (shp_intersection a b)
          | _, _ => NA
          end).

Lemma combine_map_pairs {A B C} (f : A -> B) (g : A -> C) (l : list A) :
  combine (map f l) (map g l) = map (fun x => (f x, g x)) l.
Proof. induction l as [| a l IH]; cbn [map combine]; congruence. Qed.

Lemma intersections_of_pairs g1 g2 (pairs : list (nat * nat)) :
  repair_polygons
    (series_intersection (take (map fst pairs) g1) (take (map snd pairs) g2))
  = map (pair_intersection g1 g2) pairs.
Proof.
  unfold repair_polygons, series_intersection, take.
  rewrite !map_map, combine_map_pairs, !map_map.
  apply map_ext. intros [i j]. reflexivity.
Qed.

(** The pairs the index reports: every pair of a row of the first column
    and a row of the second whose geometries intersect. *)
Lemma query_pairs_spec g1 g2 i j :
  In (i, j) (query_pairs g1 g2) <->
  i < length g1 /\ j < length g2 /\
  cell_intersects (nth i g1 NA) (nth j g2 NA) = true.
Proof.
  assert (Henum : forall (l : list cell) k c,
            In (k, c) (enumerate l) <-> k < length l /\ nth k l NA = c).
  { intros l k c. unfold enumerate, range.
    assert (G : forall a,
              In (k, c) (combine (seq a (length l)) l) <->
              a <= k < a + length l /\ nth (k - a) l NA = c).
    { induction l as [| x l IHl]; intros a; cbn [length seq combine In].
      - split; [tauto | lia].
      - rewrite IHl. split.
        + intros [E | [Hk Hn]].
          * inversion E; subst. rewrite Nat.sub_diag. split; [lia | auto].
          * split; [lia |]. replace (k - a) with (S (k - S a)) by lia.
            exact Hn.
        + intros [Hk Hn]. destruct (Nat.eq_dec a k) as [-> | Hne].
          * left. rewrite Nat.sub_diag in Hn. cbn [nth] in Hn.
            subst. reflexivity.
          * right. split; [lia |].
            replace (k - a) with (S (k - S a)) in Hn by lia. exact Hn. }
    rewrite G, Nat.sub_0_r. split; intros [H1 H2]; split; auto; lia. }
  unfold query_pairs. rewrite in_flat_map. split.
  - intros [[i' c] [Hq Hin]]. apply in_map_iff in Hin.
    destruct Hin as [[j' c'] [E Hf]]. cbn [fst snd] in E, Hf.
    inversion E; subst i' j'. apply filter_In in Hf.
    destruct Hf as [Ht Hint]. cbn [snd] in Hint.
    apply Henum in Hq. apply Henum in Ht.
    destruct Hq as [Hi <-]. destruct Ht as [Hj <-]. auto.
  - intros (Hi & Hj & Hint). exists (i, nth i g1 NA). split.
    + apply Henum. auto.
    + apply in_map_iff. exists (j, nth j g2 NA). split; [reflexivity |].
      apply filter_In. split; [apply Henum; auto | exact Hint].
Qed.

(** X14.  Whenever [_overlay_intersection] returns, its geometry column
    holds, for each pair of a row of the first input and a row of the
    second whose geometries intersect (in the order the index reports
    them), the intersection of the two geometries, repaired when it is a
    polygon; it is empty when no pair intersects.  The index has been
    queried once. *)
Theorem _overlay_intersection_geometry df1 df2 g1 g2 l r :
  geometry df1 = ret g1 ->
  geometry df2 = ret g2 ->
  _overlay_intersection df1 df2 = (l, inr r) ->
  l = [Sindex_query] /\
  geometry r = ret (map (pair_intersection g1 g2) (query_pairs g1 g2)) /\
  (forall i j,
     In (i, j) (query_pairs g1 g2) <->
     i < length g1 /\ j < length g2 /\
     cell_intersects (nth i g1 NA) (nth j g2 NA) = true).
Proof.
  intros Hg1 Hg2 H.
  split; [apply _overlay_intersection_inv in H; tauto |].
  split; [| apply query_pairs_spec].
  unfold _overlay_intersection in H.
  rewrite Hg2, bind_ret, Hg1, bind_ret in H.
  mstep H as l1 idx Hidx. apply sindex_query_inv in Hidx.
  destruct Hidx as [-> Hidx]. inversion Hidx; subst idx; clear Hidx.
  cbv zeta in H. cbn [fst snd] in H.
  destruct ((0 <? length (map fst (query_pairs g1 g2)))
            && (0 <? length (map snd (query_pairs g1 g2)))) eqn:Hne.
  - mstep H as l2 d1 Hd1. mstep H as l3 dfinter1 Hm1.
    mstep H as l4 d2 Hd2. mstep H as l5 dfinter2 Hm2.
    inversion H; subst r; clear H.
    rewrite intersections_of_pairs.
    apply geometry_ret_lookup. unfold GeoDataFrame_of, setitem.
    cbn [frame cols _geometry_column_name]. apply lookup_set_col_same.
  - rewrite (empty_merge_geometry _ _ _ _ _ H). f_equal.
    destruct (query_pairs g1 g2) as [| p ps]; [reflexivity |].
    cbn [map length] in Hne. discriminate.
Qed.

(** X15.  Whenever [_overlay_difference] returns, every column of the
    result other than the geometry column is the column of the first input
    restricted to the rows that are kept (those whose remaining geometry
    is not empty): the attributes of a row are never altered, and no
    column is added or lost. *)
Theorem _overlay_difference_attributes df1 df2 l r :
  _overlay_difference df1 df2 = (l, inr r) ->
  exists keep,
    index (frame r) = select keep (index (frame df1)) /\
    gcolumns r = gcolumns df1 /\
    forall n, n <> _geometry_column_name df1 ->
      lookup_col n (cols (frame r)) =
      option_map (select keep) (lookup_col n (cols (frame df1))).
Proof.
  intros H. apply _overlay_difference_inv in H.
  destruct H as (g1 & g2 & Hg1 & _ & _ & ->).
  unfold difference_result. cbv zeta.
  set (keep := map (fun c => negb (cell_is_empty c)) _).
  exists keep. split; [reflexivity |]. split.
  - apply (difference_result_labels df1 g1 g2 Hg1).
  - intros n Hn. cbn [with_frame frame setitem cols loc_mask].
    rewrite lookup_set_col_other by (intros E; apply Hn; symmetry; exact E).
    apply lookup_map_cols.
Qed.

End Builder_rows.

Lemma _overlay_intersection_geometry_witness :
  exists r,
    _overlay_intersection Toy.df1 Toy.df2 = ([Sindex_query], inr r) /\
    geometry r =
      ret [Toy.poly Toy.P1Q1; Toy.poly Toy.P2Q1; Toy.poly Toy.P2Q2].
Proof.
  set (m := _overlay_intersection Toy.df1 Toy.df2).
  assert (E : m = ([Sindex_query], inr (value Toy.no_rows m)))
    by (apply run_eq; vm_compute; reflexivity).
  exists (value Toy.no_rows m). split; [exact E |].
  exact (proj1 (proj2
           (_overlay_intersection_geometry Toy.df1 Toy.df2
              [Toy.poly Toy.P1; Toy.poly Toy.P2]
              [Toy.poly Toy.Q1; Toy.poly Toy.Q2]
              [Sindex_query] (value Toy.no_rows m) eq_refl eq_refl E))).
Defined.

Lemma _overlay_difference_attributes_witness :
  exists r keep,
    _overlay_difference Toy.df1 Toy.df2 = ([Sindex_query], inr r) /\
    index (frame r) = select keep (index (frame Toy.df1)) /\
    lookup_col "df1_data" (cols (frame r)) =
    option_map (select keep) (Some [Num 1; Num 2]).
Proof.
  set (m := _overlay_difference Toy.df1 Toy.df2).
  assert (E : m = ([Sindex_query], inr (value Toy.no_rows m)))
    by (apply run_eq; vm_compute; reflexivity).
  destruct (_overlay_difference_attributes Toy.df1 Toy.df2
              [Sindex_query] (value Toy.no_rows m) E)
    as (keep & Hix & _ & Hcols).
  exists (value Toy.no_rows m), keep. split; [exact E |].
  split; [exact Hix |].
  apply (Hcols "df1_data"). discriminate.
Defined.

(** ** A first input whose geometry column has another name
       (lines 70-80 and 126-129) *)

Section Identity_name.
Context {K : Kernel}.
Variable PANDAS_GE_30 : bool.

Lemma list_remove_absent x l : ~ In x l -> list_remove x l = None.
Proof.
  induction l as [| y l IH]; cbn [list_remove]; intros H; auto.
  destruct (String.eqb_spec x y) as [-> | _].
  - exfalso. apply H. left. reflexivity.
  - rewrite IH; [reflexivity |]. intros Hin. apply H. right. exact Hin.
Qed.

Lemma with_pair_index_In b names x :
  In x (with_pair_index b names) ->
  In x names \/ x = "__idx1" \/ x = "__idx2".
Proof.
  unfold with_pair_index. destruct b; [| auto].
  destruct (mem "__idx1" names); destruct (mem "__idx2" _);
    rewrite ?in_app_iff; cbn [In]; intuition auto.
Qed.

Lemma empty_merge_labels_no_geometry df1 df2 b :
  ~ In "geometry" (gcolumns df1) ->
  ~ In "geometry" (attribute_labels df2) ->
  _geometry_column_name df1 <> "geometry" ->
  ~ In "geometry" (empty_merge_labels df1 df2 b).
Proof.
  intros H1 H2 Hn Hin. unfold empty_merge_labels in Hin.
  apply in_app_or in Hin. destruct Hin as [Hin | [Hin | []]];
    [| apply Hn; exact Hin].
  apply filter_In in Hin. destruct Hin as [Hin _].
  apply with_pair_index_In in Hin.
  destruct Hin as [Hin | [Hin | Hin]]; try discriminate.
  unfold merged_labels in Hin. cbv zeta in Hin.
  apply suffixed_labels_geometry in Hin;
    [| exact harmless_1 | exact harmless_2].
  destruct Hin as [[Hin _] | [Hin _]]; [apply H1, Hin | apply H2, Hin].
Qed.

(** X16.  When no geometry of the first input intersects one of the second
    and the label "geometry" is used neither by the first input nor by an
    attribute of the second (so the geometry column of the first input has
    a name of its own), [_overlay_identity] cannot return: as soon as the
    zero-row intersection frame has been built, the two index queries
    made, it fails on line 128 with the value error of [list.remove],
    because that frame carries the geometry under the name the first input
    gave it. *)
Theorem _overlay_identity_without_pairs df1 df2 g1 g2 li dfinter :
  geometry df1 = ret g1 ->
  geometry df2 = ret g2 ->
  query_pairs g1 g2 = [] ->
  ~ In "geometry" (gcolumns df1) ->
  ~ In "geometry" (attribute_labels df2) ->
  _overlay_intersection df1 df2 = (li, inr dfinter) ->
  _overlay_identity PANDAS_GE_30 df1 df2 =
  ([Sindex_query; Sindex_query], inl (ValueError_list_remove "geometry")).
Proof.
  intros Hg1 Hg2 Hp H1 H2 Hi.
  assert (Hname : _geometry_column_name df1 <> "geometry").
  { intros E. apply H1. apply mem_In. rewrite <- E.
    apply (geometry_ret_mem _ _ Hg1). }
  assert (Hlabels : ~ In "geometry" (gcolumns dfinter)).
  { pose proof Hi as Hi'. unfold _overlay_intersection in Hi'.
    rewrite Hg2, bind_ret, Hg1, bind_ret in Hi'.
    mstep Hi' as l1 idx Hidx. apply sindex_query_inv in Hidx.
    destruct Hidx as [-> Hidx]. inversion Hidx; subst idx; clear Hidx.
    rewrite Hp in Hi'. cbn [map fst snd length Nat.ltb Nat.leb andb] in Hi'.
    apply empty_merge_inv in Hi'. destruct Hi' as (_ & _ & _ & _ & ->).
    apply empty_merge_labels_no_geometry; assumption. }
  pose proof Hi as Hli. apply _overlay_intersection_inv in Hli.
  destruct Hli as [-> _].
  unfold _overlay_identity.
  rewrite (bind_ok _ _ _ _ Hi).
  rewrite (_overlay_difference_eq df1 df2 g1 g2 Hg1 Hg2).
  rewrite (bind_ok _ _ _ _ eq_refl).
  destruct (difference_result_geometry df1 g1 g2) as [v Hv].
  rewrite (_ensure_geometry_column_eq PANDAS_GE_30 _ v Hv), bind_ret.
  cbv zeta. unfold geometry_last.
  rewrite (list_remove_absent _ _ Hlabels). reflexivity.
Qed.

End Identity_name.

Lemma _overlay_identity_without_pairs_witness :
  _overlay_identity true (Toy.one_row "geom" Toy.P1 "a")
                         (Toy.one_row "geometry" Toy.Far "b") =
  ([Sindex_query; Sindex_query], inl (ValueError_list_remove "geometry")).
Proof.
  set (A := Toy.one_row "geom" Toy.P1 "a").
  set (B := Toy.one_row "geometry" Toy.Far "b").
  assert (E : _overlay_intersection A B =
              ([Sindex_query],
               inr (value Toy.no_rows (_overlay_intersection A B))))
    by (apply run_eq; vm_compute; reflexivity).
  assert (H1 : ~ In "geometry" (gcolumns A))
    by (cbn; intros [F | [F | []]]; discriminate F).
  assert (H2 : ~ In "geometry" (attribute_labels B))
    by (cbn; intros [F | []]; discriminate F).
  exact (_overlay_identity_without_pairs true A B
           [Toy.poly Toy.P1] [Toy.poly Toy.Far] [Sindex_query]
           (value Toy.no_rows (_overlay_intersection A B))
           eq_refl eq_refl eq_refl H1 H2 E).
Defined.

(** ** How the composite operations stack their parts (lines 109-169) *)

Section Stacking.
Context {K : Kernel}.
Variable PANDAS_GE_30 : bool.

Lemma _overlay_intersection_has_geometry df1 df2 l r :
  _overlay_intersection df1 df2 = (l, inr r) -> exists v, geometry r = ret v.
Proof.
  intros H. apply _overlay_intersection_inv in H.
  destruct H as [_ [(d & geoms & -> & _) | H]].
  - exists geoms. apply geometry_ret_lookup. unfold GeoDataFrame_of, setitem.
    cbn [frame cols _geometry_column_name]. apply lookup_set_col_same.
  - exists []. apply (empty_merge_geometry _ _ _ _ _ H).
Qed.

Lemma _overlay_symmetric_diff_has_geometry df1 df2 l r :
  _overlay_symmetric_diff PANDAS_GE_30 df1 df2 = (l, inr r) ->
  exists v, geometry r = ret v.
Proof.
  unfold _overlay_symmetric_diff. intros H.
  mstep H as l1 dfdiff1 H1. mstep H as l2 dfdiff2 H2. cbv zeta in H.
  mstep H as l3 e1 H3. mstep H as l4 e2 H4. mstep H as l5 dfsym H5.
  mstep H as l6 geometry_1 H6. mstep H as l7 geometry_2 H7.
  mstep H as l8 dfsym' H8.
  inversion H; subst r. eexists.
  apply geometry_ret_lookup. unfold GeoDataFrame_of, setitem.
  cbn [frame cols _geometry_column_name]. apply lookup_set_col_same.
Qed.

Lemma lookup_reindex names d n :
  In n names ->
  lookup_col n (cols (reindex_columns names d)) =
  Some (column_or_missing n d).
Proof.
  unfold reindex_columns, column_or_missing. cbn [cols].
  induction names as [| m names IH]; [contradiction |].
  intros Hin. cbn [map].
  destruct (String.eqb_spec n m) as [-> | Hne].
  - destruct (lookup_col m (cols d)); cbn [lookup_col];
      rewrite String.eqb_refl; reflexivity.
  - destruct Hin as [-> | Hin]; [congruence |].
    apply String.eqb_neq in Hne.
    destruct (lookup_col m (cols d)); cbn [lookup_col];
      rewrite Hne; apply IH, Hin.
Qed.

Lemma lookup_concat a b n :
  In n (columns a) ->
  lookup_col n (cols (concat a b)) =
  Some (column_or_missing n a ++ column_or_missing n b).
Proof.
  unfold concat. cbn [cols]. intros Hin.
  assert (G : forall names,
            In n names ->
            lookup_col n
              (map (fun m => (m, column_or_missing m a ++ column_or_missing m b))
                   names)
            = Some (column_or_missing n a ++ column_or_missing n b)).
  { induction names as [| m names IH]; [contradiction |].
    intros H. cbn [map lookup_col].
    destruct (String.eqb_spec n m) as [-> | Hne]; [reflexivity |].
    destruct H as [-> | H]; [congruence | apply IH, H]. }
  apply G. apply in_or_app. left. exact Hin.
Qed.

Lemma column_or_missing_lookup n d v :
  lookup_col n (cols d) = Some v -> column_or_missing n d = v.
Proof. unfold column_or_missing. intros ->. reflexivity. Qed.

Lemma ends_with_geometry_In names :
  ends_with_geometry names -> In "geometry" names.
Proof.
  intros [pre ->]. apply in_or_app. right. left. reflexivity.
Qed.

(** The geometry column of a frame and of a second one, stacked and
    reordered as lines 124-130 and 164-169 do. *)
Lemma stacked_geometry a b names ga gb :
  _geometry_column_name a = "geometry" ->
  geometry a = ret ga ->
  lookup_col "geometry" (cols (frame b)) = Some gb ->
  ends_with_geometry names ->
  geometry (with_frame (gconcat a b)
              (reindex_columns names (frame (gconcat a b))))
  = ret (ga ++ gb).
Proof.
  intros Hn Ha Hb Hends.
  apply geometry_ret_lookup.
  cbn [with_frame gconcat frame _geometry_column_name]. rewrite Hn.
  rewrite lookup_reindex by (apply ends_with_geometry_In, Hends).
  f_equal. apply column_or_missing_lookup.
  apply geometry_ret_lookup in Ha. rewrite Hn in Ha.
  rewrite lookup_concat
    by (apply mem_In; apply (lookup_col_Some_mem _ _ _ Ha)).
  rewrite (column_or_missing_lookup _ _ _ Ha),
    (column_or_missing_lookup _ _ _ Hb).
  reflexivity.
Qed.

(** X17.  For a first input whose geometry column is called "geometry",
    the geometry column of the frame [_overlay_union] returns is that of
    the intersection frame followed by that of the symmetric difference
    frame: the rows of the two parts are stacked, in this order. *)
Theorem _overlay_union_stacks df1 df2 l r :
  _overlay_union PANDAS_GE_30 df1 df2 = (l, inr r) ->
  _geometry_column_name df1 = "geometry" ->
  exists li dfinter ls dfsym gi gs,
    _overlay_intersection df1 df2 = (li, inr dfinter) /\
    _overlay_symmetric_diff PANDAS_GE_30 df1 df2 = (ls, inr dfsym) /\
    geometry dfinter = ret gi /\
    geometry dfsym = ret gs /\
    geometry r = ret (gi ++ gs) /\
    gnrows r = gnrows dfinter + gnrows dfsym.
Proof.
  intros H Hname.
  destruct (_overlay_union_rows PANDAS_GE_30 _ _ _ _ H)
    as (li & dfinter & ls & dfsym & Hi & Hs & _ & Hrows).
  destruct (_overlay_intersection_has_geometry _ _ _ _ Hi) as [gi Hgi].
  destruct (_overlay_symmetric_diff_has_geometry _ _ _ _ Hs) as [gs Hgs].
  exists li, dfinter, ls, dfsym, gi, gs.
  repeat split; auto.
  unfold _overlay_union in H.
  mstep H as li' dfinter' Hi'. rewrite Hi in Hi'.
  inversion Hi'; subst li' dfinter'; clear Hi'.
  mstep H as ls' dfsym' Hs'. rewrite Hs in Hs'.
  inversion Hs'; subst ls' dfsym'; clear Hs'.
  cbv zeta in H.
  mstep H as l3 names Hlast.
  apply geometry_last_inv in Hlast. destruct Hlast as [-> Hends].
  inversion H; subst r; clear H.
  apply stacked_geometry; auto.
  - apply (_overlay_intersection_name _ _ _ _ Hi Hname).
  - apply geometry_ret_lookup in Hgs.
    destruct (_overlay_symmetric_diff_labels PANDAS_GE_30 _ _ _ _ Hs)
      as [Hn _].
    rewrite Hn in Hgs. exact Hgs.
Qed.

End Stacking.

Lemma _overlay_union_stacks_witness :
  exists r li dfinter ls dfsym gi gs,
    _overlay_union true Toy.df1 Toy.df2 =
      ([Sindex_query; Sindex_query; Sindex_query], inr r) /\
    _overlay_intersection Toy.df1 Toy.df2 = (li, inr dfinter) /\
    _overlay_symmetric_diff true Toy.df1 Toy.df2 = (ls, inr dfsym) /\
    geometry dfinter = ret gi /\
    geometry dfsym = ret gs /\
    geometry r = ret (gi ++ gs) /\
    gnrows r = 7.
Proof.
  set (m := _overlay_union true Toy.df1 Toy.df2).
  assert (E : m = ([Sindex_query; Sindex_query; Sindex_query],
                   inr (value Toy.no_rows m)))
    by (apply run_eq; vm_compute; reflexivity).
  destruct (_overlay_union_stacks true Toy.df1 Toy.df2
              [Sindex_query; Sindex_query; Sindex_query]
              (value Toy.no_rows m) E eq_refl)
    as (li & dfinter & ls & dfsym & gi & gs & Hi & Hs & Hgi & Hgs & Hg & _).
  exists (value Toy.no_rows m), li, dfinter, ls, dfsym, gi, gs.
  repeat (split; [assumption |]).
  vm_compute. reflexivity.
Defined.

Section Stacking_identity.
Context {K : Kernel}.
Variable PANDAS_GE_30 : bool.

Lemma combine_relabel (f : string -> string) (cs : list column) :
  combine (map f (map fst cs)) (map snd cs) =
  map (fun c => (f (fst c), snd c)) cs.
Proof. induction cs as [| c cs IH]; cbn [map combine]; congruence. Qed.

Lemma lookup_relabel_geometry (f : string -> string) (cs : list column) :
  f "geometry" = "geometry" ->
  (forall n, n <> "geometry" -> f n <> "geometry") ->
  lookup_col "geometry" (map (fun c => (f (fst c), snd c)) cs) =
  lookup_col "geometry" cs.
Proof.
  intros Hf Hother. induction cs as [| [m v] cs IH];
    cbn [map lookup_col fst snd]; auto.
  destruct (String.eqb_spec "geometry" m) as [<- | Hne].
  - rewrite Hf, String.eqb_refl. reflexivity.
  - assert (Hm : f m <> "geometry") by (apply Hother; congruence).
    destruct (String.eqb_spec "geometry" (f m)) as [E | _];
      [congruence | exact IH].
Qed.

(** X18.  For a first input whose geometry column is called "geometry",
    the geometry column of the frame [_overlay_identity] returns is that
    of the intersection frame followed by that of the difference frame:
    the rows of the two parts are stacked, in this order. *)
Theorem _overlay_identity_stacks df1 df2 l r :
  _overlay_identity PANDAS_GE_30 df1 df2 = (l, inr r) ->
  _geometry_column_name df1 = "geometry" ->
  exists li dfinter ld dfdiff gi gd,
    _overlay_intersection df1 df2 = (li, inr dfinter) /\
    _overlay_difference df1 df2 = (ld, inr dfdiff) /\
    geometry dfinter = ret gi /\
    geometry dfdiff = ret gd /\
    geometry r = ret (gi ++ gd) /\
    gnrows r = gnrows dfinter + gnrows dfdiff.
Proof.
  intros H Hname.
  destruct (_overlay_identity_rows PANDAS_GE_30 _ _ _ _ H)
    as (li & dfinter & ld & dfdiff & Hi & Hd & _ & Hrows).
  destruct (_overlay_intersection_has_geometry _ _ _ _ Hi) as [gi Hgi].
  destruct (_overlay_difference_ok _ _ _ _ Hd) as [_ [gd Hgd]].
  exists li, dfinter, ld, dfdiff, gi, gd.
  repeat split; auto.
  unfold _overlay_identity in H.
  mstep H as li' dfinter' Hi'. rewrite Hi in Hi'.
  inversion Hi'; subst li' dfinter'; clear Hi'.
  mstep H as ld' dfdiff' Hd'. rewrite Hd in Hd'.
  inversion Hd'; subst ld' dfdiff'; clear Hd'.
  rewrite (_ensure_geometry_column_eq PANDAS_GE_30 dfdiff gd Hgd), bind_ret
    in H.
  cbv zeta in H.
  mstep H as l3 names Hlast.
  apply geometry_last_inv in Hlast. destruct Hlast as [-> Hends].
  inversion H; subst r; clear H.
  pose proof (_overlay_intersection_name _ _ _ _ Hi Hname) as Hni.
  apply stacked_geometry; auto.
  cbn [with_frame frame]. unfold set_columns. cbn [cols].
  unfold gcolumns at 2, columns. rewrite combine_relabel.
  rewrite (lookup_relabel_geometry
             (fun n => if mem n (gcolumns dfinter) then n
                       else String.append n "_1")).
  - pose proof (ensured_geometry dfdiff gd Hgd) as Hg.
    apply geometry_ret_lookup in Hg.
    rewrite (ensured_name dfdiff gd Hgd) in Hg. exact Hg.
  - assert (Hm : mem "geometry" (gcolumns dfinter) = true).
    { rewrite <- Hni. apply (geometry_ret_mem _ _ Hgi). }
    rewrite Hm. reflexivity.
  - intros n Hn. destruct (mem n (gcolumns dfinter)); [exact Hn |].
    apply append_1_not_geometry.
Qed.

End Stacking_identity.

Lemma _overlay_identity_stacks_witness :
  exists r li dfinter ld dfdiff gi gd,
    _overlay_identity true Toy.df1 Toy.df2 =
      ([Sindex_query; Sindex_query], inr r) /\
    _overlay_intersection Toy.df1 Toy.df2 = (li, inr dfinter) /\
    _overlay_difference Toy.df1 Toy.df2 = (ld, inr dfdiff) /\
    geometry dfinter = ret gi /\
    geometry dfdiff = ret gd /\
    geometry r = ret (gi ++ gd) /\
    gnrows r = 5.
Proof.
  set (m := _overlay_identity true Toy.df1 Toy.df2).
  assert (E : m = ([Sindex_query; Sindex_query],
                   inr (value Toy.no_rows m)))
    by (apply run_eq; vm_compute; reflexivity).
  destruct (_overlay_identity_stacks true Toy.df1 Toy.df2
              [Sindex_query; Sindex_query]
              (value Toy.no_rows m) E eq_refl)
    as (li & dfinter & ld & dfdiff & gi & gd & Hi & Hd & Hgi & Hgd & Hg & _).
  exists (value Toy.no_rows m), li, dfinter, ld, dfdiff, gi, gd.
  repeat (split; [assumption |]).
  vm_compute. reflexivity.
Defined.

(** ** The rows of the symmetric difference (lines 133-157) *)

Section Outer_merge.
Context {K : Kernel}.

Definition rows_leb (a b : joined_row) : Prop :=
  keys_leb (fst a) (fst b) = true.

(** every row is below all the rows that follow it *)
Fixpoint ascending (l : list joined_row) : Prop :=
  match l with
  | [] => True
  | x :: l' => Forall (rows_leb x) l' /\ ascending l'
  end.

Lemma insert_row_last r acc :
  Forall (fun r' => rows_leb r' r) acc -> insert_row r acc = acc ++ [r].
Proof.
  induction acc as [| r' acc IH]; intros H; cbn [insert_row app]; auto.
  inversion H; subst. unfold rows_leb in H2. rewrite H2.
  rewrite IH by assumption. reflexivity.
Qed.

Lemma ascending_app_below acc x l :
  ascending (acc ++ x :: l) -> Forall (fun r' => rows_leb r' x) acc.
Proof.
  induction acc as [| a acc IH]; cbn [app ascending]; intros H;
    [constructor |].
  destruct H as [Ha Hrest]. constructor; [| apply IH, Hrest].
  rewrite Forall_forall in Ha. apply Ha. apply in_or_app. right. left.
  reflexivity.
Qed.

Lemma sort_rows_ascending l : ascending l -> sort_rows l = l.
Proof.
  unfold sort_rows.
  assert (G : forall l acc,
            ascending (acc ++ l) ->
            fold_left (fun acc r => insert_row r acc) l acc = acc ++ l).
  { clear l. induction l as [| x l IH]; intros acc H; cbn [fold_left].
    - rewrite app_nil_r. reflexivity.
    - rewrite (insert_row_last x acc (ascending_app_below _ _ _ H)).
      rewrite IH; rewrite <- app_assoc; [reflexivity | exact H]. }
  intros H. apply (G l []). exact H.
Qed.

Lemma flat_map_singletons {A B} (f : A -> list B) (g : A -> B) l :
  (forall x, In x l -> f x = [g x]) -> flat_map f l = map g l.
Proof.
  induction l as [| a l IH]; intros H; cbn [flat_map map]; auto.
  rewrite (H a (or_introl eq_refl)), IH by (intros; apply H; right; auto).
  reflexivity.
Qed.

Definition num (i : nat) : cell := Num (Z.of_nat i).

(** The rows of the outer merge of lines 145-147: the left frame carries
    the keys [(i, NaN)], the right one the keys [(NaN, j)]. *)
Definition left_rows (n : nat) : list joined_row :=
  map (fun i => ((num i, NA), (Some i, None))) (range n).

Definition right_rows (n : nat) : list joined_row :=
  map (fun j => ((NA, num j), (None, Some j))) (range n).

Lemma Forall_map_seq {B} (P : B -> Prop) (f : nat -> B) a n :
  (forall i, a <= i < a + n -> P (f i)) -> Forall P (map f (seq a n)).
Proof.
  intros H. apply Forall_forall. intros x Hx. apply in_map_iff in Hx.
  destruct Hx as [i [<- Hi]]. apply in_seq in Hi. apply H, Hi.
Qed.

Lemma ascending_rows n1 n2 : ascending (left_rows n1 ++ right_rows n2).
Proof.
  unfold left_rows, right_rows, range.
  assert (R : forall a n, ascending
                (map (fun j => ((NA, num j), (@None nat, Some j))) (seq a n))).
  { intros a n. revert a. induction n as [| n IH]; intros a;
      cbn [seq map ascending]; auto.
    split; [| apply IH].
    apply Forall_map_seq. intros i Hi. unfold rows_leb, keys_leb, num.
    cbn [fst snd key_eqb key_leb]. apply Z.leb_le. lia. }
  assert (L : forall a n, ascending
                (map (fun i => ((num i, NA), (Some i, @None nat))) (seq a n)
                 ++ map (fun j => ((NA, num j), (@None nat, Some j)))
                        (seq 0 n2))).
  { intros a n. revert a. induction n as [| n IH]; intros a;
      cbn [seq map app ascending]; [apply R |].
    split; [| apply IH].
    apply Forall_app. split.
    - apply Forall_map_seq. intros i Hi. unfold rows_leb, keys_leb, num.
      cbn [fst snd key_eqb key_leb].
      destruct (Z.eqb_spec (Z.of_nat a) (Z.of_nat i)); [reflexivity |].
      apply Z.leb_le. lia.
    - apply Forall_map_seq. intros j Hj. reflexivity. }
  apply L.
Qed.

Lemma enumerate_map_seq {B} (f : nat -> B) n :
  enumerate (map f (range n)) = map (fun i => (i, f i)) (range n).
Proof.
  unfold enumerate, range. rewrite length_map, length_seq.
  generalize 0 as a. induction n as [| n IH]; intros a;
    cbn [seq map combine]; auto.
  rewrite IH. reflexivity.
Qed.

Lemma combine_num_na n :
  combine (map num (range n)) (repeat NA n) =
  map (fun i => (num i, NA)) (range n).
Proof.
  unfold range. generalize 0 as a. induction n as [| n IH]; intros a;
    cbn [seq map repeat combine]; auto.
  rewrite IH. reflexivity.
Qed.

Lemma combine_na_num n :
  combine (repeat NA n) (map num (range n)) =
  map (fun i => (NA, num i)) (range n).
Proof.
  unfold range. generalize 0 as a. induction n as [| n IH]; intros a;
    cbn [seq map repeat combine]; auto.
  rewrite IH. reflexivity.
Qed.

Lemma map_const_seq {B} (c : B) n :
  map (fun _ : nat => c) (range n) = repeat c n.
Proof.
  unfold range. generalize 0 as a.
  induction n as [| n IH]; intros a; cbn [seq map repeat]; auto.
  rewrite IH. reflexivity.
Qed.

(** Lines 145-147 in closed form. *)
Lemma merge_outer_on_disjoint left right k1 k2 sfx l d n1 n2 :
  merge_outer_on left right k1 k2 sfx = (l, inr d) ->
  lookup_col k1 (cols left) = Some (map num (range n1)) ->
  lookup_col k2 (cols left) = Some (repeat NA n1) ->
  lookup_col k1 (cols right) = Some (repeat NA n2) ->
  lookup_col k2 (cols right) = Some (map num (range n2)) ->
  exists right' v1 v2,
    cols right' =
      filter (fun c => negb (mem (fst c) [k1; k2])) (cols right) /\
    d = setitem k2 v2
          (setitem k1 v1
             (assemble (map Z.of_nat (range (n1 + n2)))
                (fst (suffixed_labels (columns left) (columns right') sfx))
                (snd (suffixed_labels (columns left) (columns right') sfx))
                left right'
                (map Some (range n1) ++ repeat None n2)
                (repeat None n1 ++ map Some (range n2)))).
Proof.
  unfold merge_outer_on, getcol. intros H L1 L2 R1 R2.
  rewrite L1, L2, R1, R2, !bind_ret in H.
  mstep H as la right' Hd. apply drop_inv in Hd.
  destruct Hd as [-> [_ [Hcols _]]].
  mstep H as lb labels Hl. apply items_overlap_inv in Hl.
  destruct Hl as [-> [-> _]].
  cbv zeta in H. inversion H; subst; clear H.
  rewrite combine_num_na, combine_na_num.
  fold (num). rewrite !enumerate_map_seq.
  set (matched := flat_map _ (map _ (range n1))).
  set (right_only := flat_map _ (map _ (range n2))).
  assert (Hm : matched = left_rows n1).
  { unfold matched, left_rows. rewrite flat_map_concat_map, map_map.
    rewrite <- flat_map_concat_map.
    apply flat_map_singletons. intros i _. cbn [fst snd].
    rewrite filter_none; [reflexivity |].
    intros [j key] Hj. apply in_map_iff in Hj. destruct Hj as [j' [E _]].
    inversion E; subst. reflexivity. }
  assert (Hr : right_only = right_rows n2).
  { unfold right_only, right_rows. rewrite flat_map_concat_map, map_map.
    rewrite <- flat_map_concat_map.
    apply flat_map_singletons. intros j _. cbn [fst snd].
    rewrite existsb_none; [reflexivity |].
    intros key Hk. apply in_map_iff in Hk. destruct Hk as [i [<- _]].
    reflexivity. }
  assert (Hs : sort_rows (matched ++ right_only) =
               left_rows n1 ++ right_rows n2).
  { rewrite Hm, Hr. apply sort_rows_ascending, ascending_rows. }
  rewrite Hs. clear Hs Hm Hr matched right_only.
  assert (Hlen : length (left_rows n1 ++ right_rows n2) = n1 + n2).
  { unfold left_rows, right_rows, range.
    rewrite length_app, !length_map, !length_seq. reflexivity. }
  assert (Hli : map (fun r : joined_row => fst (snd r))
                    (left_rows n1 ++ right_rows n2)
                = map Some (range n1) ++ repeat None n2).
  { unfold left_rows, right_rows. rewrite map_app, !map_map. cbn [fst snd].
    apply (f_equal2 (@app (option nat))); [reflexivity |].
    apply map_const_seq. }
  assert (Hri : map (fun r : joined_row => snd (snd r))
                    (left_rows n1 ++ right_rows n2)
                = repeat None n1 ++ map Some (range n2)).
  { unfold left_rows, right_rows. rewrite map_app, !map_map. cbn [fst snd].
    apply (f_equal2 (@app (option nat))); [| reflexivity].
    apply map_const_seq. }
  rewrite Hlen.
  change (map (fun r : cell * cell * (option nat * option nat) =>
                 fst (snd r)) (left_rows n1 ++ right_rows n2))
    with (map (fun r : joined_row => fst (snd r))
              (left_rows n1 ++ right_rows n2)).
  change (map (fun r : cell * cell * (option nat * option nat) =>
                 snd (snd r)) (left_rows n1 ++ right_rows n2))
    with (map (fun r : joined_row => snd (snd r))
              (left_rows n1 ++ right_rows n2)).
  rewrite Hli, Hri.
  eexists right', _, _. split; [exact Hcols |]. reflexivity.
Qed.

End Outer_merge.

Section Symmetric_rows.
Context {K : Kernel}.
Variable PANDAS_GE_30 : bool.

Lemma lookup_app n (a b : list column) :
  lookup_col n (a ++ b) =
  match lookup_col n a with Some v => Some v | None => lookup_col n b end.
Proof.
  induction a as [| [m v] a IH]; cbn [app lookup_col]; auto.
  destruct (String.eqb n m); auto.
Qed.

Lemma lookup_add_suffix tr sfx (h : list cell -> list cell)
    (cs : list column) base target :
  target = String.append base sfx ->
  mem base tr = true ->
  ~ In target (map fst cs) ->
  (forall n, String.append n sfx = target -> n = base) ->
  lookup_col target
    (map (fun c : column => (add_suffix tr sfx (fst c), h (snd c))) cs)
  = option_map h (lookup_col base cs).
Proof.
  intros Ht Hb Hnot Hinj.
  induction cs as [| [m v] cs IH]; cbn [map lookup_col fst snd]; auto.
  assert (Hrest : ~ In target (map fst cs))
    by (intros Hin; apply Hnot; right; exact Hin).
  destruct (String.eqb_spec base m) as [<- | Hne].
  - unfold add_suffix. rewrite Hb, <- Ht, String.eqb_refl. reflexivity.
  - assert (Hl : add_suffix tr sfx m <> target).
    { unfold add_suffix. destruct (mem m tr).
      - intros E. apply Hne. symmetry. apply Hinj, E.
      - intros E. apply Hnot. left. exact E. }
    destruct (String.eqb_spec target (add_suffix tr sfx m)) as [E | _];
      [exfalso; apply Hl; symmetry; exact E | apply IH, Hrest].
Qed.

Lemma lookup_add_suffix_none tr sfx (h : list cell -> list cell)
    (cs : list column) target :
  ~ In target (map fst cs) ->
  (forall n, String.append n sfx <> target) ->
  lookup_col target
    (map (fun c : column => (add_suffix tr sfx (fst c), h (snd c))) cs)
  = None.
Proof.
  intros Hnot Hsfx.
  induction cs as [| [m v] cs IH]; cbn [map lookup_col fst snd]; auto.
  assert (Hl : add_suffix tr sfx m <> target).
  { unfold add_suffix. destruct (mem m tr); [apply Hsfx |].
    intros E. apply Hnot. left. exact E. }
  destruct (String.eqb_spec target (add_suffix tr sfx m)) as [E | _];
    [exfalso; apply Hl; symmetry; exact E |].
  apply IH. intros Hin. apply Hnot. right. exact Hin.
Qed.

Lemma geometry_1_only n : String.append n "_1" = "geometry_1" -> n = "geometry".
Proof.
  intros H.
  do 8 (destruct n as [| ? n]; cbn [String.append] in H;
        [discriminate | injection H as ? H; subst]).
  destruct n as [| ? n]; [reflexivity |].
  cbn [String.append] in H. injection H as ? H.
  destruct n as [| ? n]; cbn [String.append] in H; [discriminate |].
  injection H as ? H. destruct n; discriminate H.
Qed.

Lemma geometry_2_only n : String.append n "_2" = "geometry_2" -> n = "geometry".
Proof.
  intros H.
  do 8 (destruct n as [| ? n]; cbn [String.append] in H;
        [discriminate | injection H as ? H; subst]).
  destruct n as [| ? n]; [reflexivity |].
  cbn [String.append] in H. injection H as ? H.
  destruct n as [| ? n]; cbn [String.append] in H; [discriminate |].
  injection H as ? H. destruct n; discriminate H.
Qed.

Lemma geometry_2_not_1 n : String.append n "_1" <> "geometry_2".
Proof.
  intros H.
  do 8 (destruct n as [| ? n]; cbn [String.append] in H;
        [discriminate | injection H as ? H; subst]).
  destruct n as [| ? n]; cbn [String.append] in H; [discriminate |].
  injection H as ? H.
  destruct n as [| ? n]; cbn [String.append] in H; [discriminate |].
  injection H as ? H. destruct n; discriminate H.
Qed.

Lemma take_opt_all (v : list cell) :
  take_opt (map Some (range (length v))) v = v.
Proof.
  unfold take_opt, range. rewrite map_map.
  assert (G : forall pre,
            map (fun i => nth i (pre ++ v) NA) (seq (length pre) (length v))
            = v).
  { induction v as [| c v IH]; intros pre; cbn [length seq map]; auto.
    f_equal.
    - rewrite app_nth2, Nat.sub_diag by lia. reflexivity.
    - specialize (IH (pre ++ [c])). rewrite <- app_assoc in IH.
      rewrite length_app in IH. cbn [length app] in IH.
      rewrite Nat.add_1_r in IH. exact IH. }
  apply (G []).
Qed.

Lemma take_opt_none n (v : list cell) :
  take_opt (repeat None n) v = repeat NA n.
Proof.
  unfold take_opt. induction n as [| n IH]; cbn [repeat map]; congruence.
Qed.

Lemma combine_app_same {A B} (a1 a2 : list A) (b1 b2 : list B) :
  length a1 = length b1 ->
  combine (a1 ++ a2) (b1 ++ b2) = combine a1 b1 ++ combine a2 b2.
Proof.
  revert b1. induction a1 as [| x a1 IH]; intros [| y b1] H;
    cbn [length] in H; try discriminate; cbn [app combine]; auto.
  rewrite IH by lia. reflexivity.
Qed.

(** Line 148-153: the first geometry where there is one, the second
    otherwise. *)
Definition coalesce (p : cell * cell) : cell :=
  if isnull (fst p) then snd p else fst p.

Lemma coalesce_left (v : list cell) :
  map coalesce (combine v (repeat NA (length v))) = v.
Proof.
  induction v as [| c v IH]; cbn [length repeat combine map]; auto.
  rewrite IH. unfold coalesce. cbn [fst snd]. destruct c; reflexivity.
Qed.

Lemma coalesce_right (v : list cell) :
  map coalesce (combine (repeat NA (length v)) v) = v.
Proof.
  induction v as [| c v IH]; cbn [length repeat combine map]; auto.
  rewrite IH. reflexivity.
Qed.

Lemma geometry_gsetitem_other n v g :
  n <> _geometry_column_name g ->
  geometry (gsetitem n v g) = geometry g.
Proof.
  intros Hn. unfold geometry, gsetitem, setitem.
  cbn [with_frame frame cols _geometry_column_name].
  rewrite lookup_set_col_other by exact Hn. reflexivity.
Qed.

Lemma ensured_labels_In df x :
  In x (gcolumns (ensured df)) -> x = "geometry" \/ In x (gcolumns df).
Proof.
  rewrite ensured_labels_eq. unfold ensured_labels.
  destruct (String.eqb (_geometry_column_name df) "geometry"); [auto |].
  intros H. apply in_map_iff in H. destruct H as [n [E Hn]].
  apply filter_In in Hn. destruct Hn as [Hn _].
  destruct (String.eqb n (_geometry_column_name df)); subst; auto.
Qed.

Lemma difference_result_geometry_eq df1 g1 g2 :
  geometry (difference_result df1 g1 g2) =
  ret (select (map (fun c => negb (cell_is_empty c))
                 (map (fun a => repair (folded_difference a g2)) g1))
              (map (fun a => repair (folded_difference a g2)) g1)).
Proof.
  unfold difference_result. cbv zeta. apply geometry_ret_lookup.
  cbn [with_frame frame setitem cols _geometry_column_name].
  apply lookup_set_col_same.
Qed.

(** A frame whose geometry column is as long as its index yields a
    difference frame with the same property. *)
Lemma difference_result_rectangular df1 g1 g2 v :
  length g1 = gnrows df1 ->
  geometry (difference_result df1 g1 g2) = ret v ->
  length v = gnrows (difference_result df1 g1 g2).
Proof.
  intros Hrect Hv. rewrite difference_result_geometry_eq in Hv.
  inversion Hv; subst v; clear Hv.
  unfold difference_result, gnrows, nrows. cbv zeta.
  cbn [with_frame frame setitem index loc_mask].
  rewrite !select_length_count; auto.
  - rewrite !length_map. exact Hrect.
  - rewrite !length_map. reflexivity.
Qed.

(** X19.  For two inputs whose geometry columns are as long as their
    indexes, whose geometry columns do not use the reserved labels
    "__idx1" and "__idx2" and that have no column called "geometry_1" or
    "geometry_2", the geometry column of the frame
    [_overlay_symmetric_diff] returns is the geometry column of the
    difference of the first input from the second followed by that of the
    difference of the second from the first. *)
Theorem _overlay_symmetric_diff_stacks df1 df2 g1 g2 l r :
  geometry df1 = ret g1 ->
  geometry df2 = ret g2 ->
  length g1 = gnrows df1 ->
  length g2 = gnrows df2 ->
  ~ reserved (_geometry_column_name df1) ->
  ~ reserved (_geometry_column_name df2) ->
  ~ In "geometry_1" (gcolumns df1) ->
  ~ In "geometry_2" (gcolumns df1) ->
  ~ In "geometry_2" (gcolumns df2) ->
  _overlay_symmetric_diff PANDAS_GE_30 df1 df2 = (l, inr r) ->
  exists d12 d21 g12 g21,
    _overlay_difference df1 df2 = ([Sindex_query], inr d12) /\
    _overlay_difference df2 df1 = ([Sindex_query], inr d21) /\
    geometry d12 = ret g12 /\
    geometry d21 = ret g21 /\
    geometry r = ret (g12 ++ g21).
Proof.
  intros Hg1 Hg2 Hrect1 Hrect2 Hr1 Hr2 Hl11 Hl12 Hl22 H.
  unfold _overlay_symmetric_diff in H.
  mstep H as l1 d12 H1. mstep H as l2 d21 H2. cbv zeta in H.
  rewrite (_overlay_difference_eq df1 df2 g1 g2 Hg1 Hg2) in H1.
  rewrite (_overlay_difference_eq df2 df1 g2 g1 Hg2 Hg1) in H2.
  inversion H1; subst l1 d12; clear H1.
  inversion H2; subst l2 d21; clear H2.
  set (d12 := difference_result df1 g1 g2) in *.
  set (d21 := difference_result df2 g2 g1) in *.
  destruct (difference_result_geometry df1 g1 g2) as [g12 Hg12].
  destruct (difference_result_geometry df2 g2 g1) as [g21 Hg21].
  fold d12 in Hg12. fold d21 in Hg21.
  exists d12, d21, g12, g21.
  split; [apply (_overlay_difference_eq df1 df2 g1 g2 Hg1 Hg2) |].
  split; [apply (_overlay_difference_eq df2 df1 g2 g1 Hg2 Hg1) |].
  split; [exact Hg12 |]. split; [exact Hg21 |].
  pose proof (difference_result_rectangular df1 g1 g2 g12 Hrect1 Hg12)
    as Hlen1.
  pose proof (difference_result_rectangular df2 g2 g1 g21 Hrect2 Hg21)
    as Hlen2.
  fold d12 in Hlen1. fold d21 in Hlen2.
  destruct (difference_result_labels df1 g1 g2 Hg1) as (Hc1 & Hn1 & _).
  destruct (difference_result_labels df2 g2 g1 Hg2) as (Hc2 & Hn2 & _).
  fold d12 in Hc1, Hn1. fold d21 in Hc2, Hn2.
  set (n1 := gnrows d12) in *. set (n2 := gnrows d21) in *.
  set (A1 := gsetitem "__idx2" _ (gsetitem "__idx1" _ d12)) in H.
  set (A2 := gsetitem "__idx1" _ (gsetitem "__idx2" _ d21)) in H.
  assert (Hne11 : "__idx1" <> _geometry_column_name d12).
  { rewrite Hn1. intros E. apply Hr1. left. symmetry. exact E. }
  assert (Hne12 : "__idx2" <> _geometry_column_name d12).
  { rewrite Hn1. intros E. apply Hr1. right. symmetry. exact E. }
  assert (Hne21 : "__idx1" <> _geometry_column_name d21).
  { rewrite Hn2. intros E. apply Hr2. left. symmetry. exact E. }
  assert (Hne22 : "__idx2" <> _geometry_column_name d21).
  { rewrite Hn2. intros E. apply Hr2. right. symmetry. exact E. }
  assert (HA1 : geometry A1 = ret g12).
  { unfold A1. rewrite !geometry_gsetitem_other; auto. }
  assert (HA2 : geometry A2 = ret g21).
  { unfold A2. rewrite !geometry_gsetitem_other; auto. }
  rewrite (_ensure_geometry_column_eq PANDAS_GE_30 A1 g12 HA1), bind_ret
    in H.
  rewrite (_ensure_geometry_column_eq PANDAS_GE_30 A2 g21 HA2), bind_ret
    in H.
  rename H into Hrun.
  set (L := frame (ensured A1)) in *. set (R := frame (ensured A2)) in *.
  mstep Hrun as l5 dfsym H5.
  mstep Hrun as l6 geometry_1 H6. mstep Hrun as l7 geometry_2 H7.
  mstep Hrun as l8 dfsym' H8.
  inversion Hrun; subst r; clear Hrun.
  assert (L11 : lookup_col "__idx1" (cols L) = Some (map num (range n1))).
  { unfold L. rewrite ensured_lookup; [| discriminate | exact Hne11].
    unfold A1, gsetitem, setitem. cbn [with_frame frame cols].
    rewrite lookup_set_col_other by discriminate.
    apply lookup_set_col_same. }
  assert (L12 : lookup_col "__idx2" (cols L) = Some (repeat NA n1)).
  { unfold L. rewrite ensured_lookup; [| discriminate | exact Hne12].
    unfold A1, gsetitem, setitem. cbn [with_frame frame cols].
    apply lookup_set_col_same. }
  assert (L21 : lookup_col "__idx1" (cols R) = Some (repeat NA n2)).
  { unfold R. rewrite ensured_lookup; [| discriminate | exact Hne21].
    unfold A2, gsetitem, setitem. cbn [with_frame frame cols].
    apply lookup_set_col_same. }
  assert (L22 : lookup_col "__idx2" (cols R) = Some (map num (range n2))).
  { unfold R. rewrite ensured_lookup; [| discriminate | exact Hne22].
    unfold A2, gsetitem, setitem. cbn [with_frame frame cols].
    rewrite lookup_set_col_other by discriminate.
    apply lookup_set_col_same. }
  destruct (merge_outer_on_disjoint _ _ _ _ _ _ _ _ _ H5 L11 L12 L21 L22)
    as (right' & v1 & v2 & Hright & Hd).
  assert (HgL : lookup_col "geometry" (cols L) = Some g12).
  { pose proof (ensured_geometry A1 g12 HA1) as Hg.
    apply geometry_ret_lookup in Hg.
    rewrite (ensured_name A1 g12 HA1) in Hg. exact Hg. }
  assert (HgR : lookup_col "geometry" (cols R) = Some g21).
  { pose proof (ensured_geometry A2 g21 HA2) as Hg.
    apply geometry_ret_lookup in Hg.
    rewrite (ensured_name A2 g21 HA2) in Hg. exact Hg. }
  assert (HgR' : lookup_col "geometry" (cols right') = Some g21).
  { rewrite Hright.
    rewrite (lookup_filter_other
               (fun n => negb (mem n ["__idx1"; "__idx2"]))) by reflexivity.
    exact HgR. }
  set (tr := filter (fun n => mem n (columns right')) (columns L)).
  assert (Htr : mem "geometry" tr = true).
  { unfold tr. rewrite mem_filter.
    unfold columns. rewrite (lookup_col_Some_mem _ _ _ HgL),
      (lookup_col_Some_mem _ _ _ HgR'). reflexivity. }
  assert (HinL : forall x, In x (columns L) ->
                 x = "geometry" \/ x = "__idx1" \/ x = "__idx2" \/
                 In x (gcolumns df1)).
  { intros x Hx. apply (ensured_labels_In A1) in Hx.
    destruct Hx as [Hx | Hx]; [auto |].
    unfold A1 in Hx. apply setitem_columns_incl in Hx.
    destruct Hx as [Hx | Hx]; [auto |].
    apply setitem_columns_incl in Hx.
    destruct Hx as [Hx | Hx]; [auto |].
    fold (gcolumns d12) in Hx. rewrite Hc1 in Hx. auto. }
  assert (HinR : forall x, In x (columns right') ->
                 x = "geometry" \/ x = "__idx1" \/ x = "__idx2" \/
                 In x (gcolumns df2)).
  { intros x Hx. unfold columns in Hx. rewrite Hright in Hx.
    rewrite (names_filter (fun n => negb (mem n ["__idx1"; "__idx2"])))
      in Hx.
    apply filter_In in Hx. destruct Hx as [Hx _].
    apply (ensured_labels_In A2) in Hx.
    destruct Hx as [Hx | Hx]; [auto |].
    unfold A2 in Hx. apply setitem_columns_incl in Hx.
    destruct Hx as [Hx | Hx]; [auto |].
    apply setitem_columns_incl in Hx.
    destruct Hx as [Hx | Hx]; [auto |].
    fold (gcolumns d21) in Hx. rewrite Hc2 in Hx. auto. }
  assert (HnoL1 : ~ In "geometry_1" (map fst (cols L))).
  { intros Hx. apply HinL in Hx.
    destruct Hx as [Hx | [Hx | [Hx | Hx]]]; try discriminate.
    apply Hl11, Hx. }
  assert (HnoL2 : ~ In "geometry_2" (map fst (cols L))).
  { intros Hx. apply HinL in Hx.
    destruct Hx as [Hx | [Hx | [Hx | Hx]]]; try discriminate.
    apply Hl12, Hx. }
  assert (HnoR2 : ~ In "geometry_2" (map fst (cols right'))).
  { intros Hx. apply HinR in Hx.
    destruct Hx as [Hx | [Hx | [Hx | Hx]]]; try discriminate.
    apply Hl22, Hx. }
  set (li := map Some (range n1) ++ repeat None n2) in *.
  set (ri := repeat None n1 ++ map Some (range n2)) in *.
  assert (Hleft :
    combine (fst (suffixed_labels (columns L) (columns right') ("_1", "_2")))
            (map (fun c : column => take_opt li (snd c)) (cols L))
    = map (fun c : column => (add_suffix tr "_1" (fst c), take_opt li (snd c)))
          (cols L)).
  { unfold suffixed_labels. cbv zeta. cbn [fst snd]. fold tr.
    unfold columns. rewrite map_map.
    apply (combine_map_pairs (fun c : column => add_suffix tr "_1" (fst c))
             (fun c : column => take_opt li (snd c))). }
  assert (Hright' :
    combine (snd (suffixed_labels (columns L) (columns right') ("_1", "_2")))
            (map (fun c : column => take_opt ri (snd c)) (cols right'))
    = map (fun c : column => (add_suffix tr "_2" (fst c), take_opt ri (snd c)))
          (cols right')).
  { unfold suffixed_labels. cbv zeta. cbn [fst snd]. fold tr.
    unfold columns. rewrite map_map.
    apply (combine_map_pairs (fun c : column => add_suffix tr "_2" (fst c))
             (fun c : column => take_opt ri (snd c))). }
  assert (Hlook : forall n, "__idx1" <> n -> "__idx2" <> n ->
            lookup_col n (cols dfsym) =
            lookup_col n
              (map (fun c : column =>
                      (add_suffix tr "_1" (fst c), take_opt li (snd c)))
                   (cols L) ++
               map (fun c : column =>
                      (add_suffix tr "_2" (fst c), take_opt ri (snd c)))
                   (cols right'))).
  { intros n Hna Hnb. rewrite Hd. unfold setitem, assemble. cbn [cols].
    rewrite !lookup_set_col_other by assumption.
    f_equal. f_equal; [exact Hleft | exact Hright']. }
  assert (G1 : geometry_1 = g12 ++ repeat NA n2).
  { unfold getattr_col in H6.
    rewrite Hlook, lookup_app in H6 by discriminate.
    rewrite (lookup_add_suffix tr "_1" (take_opt li) (cols L)
               "geometry" "geometry_1" eq_refl Htr HnoL1 geometry_1_only)
      in H6.
    rewrite HgL in H6. cbn [option_map] in H6.
    inversion H6; subst geometry_1.
    unfold li, take_opt. rewrite map_app.
    fold (take_opt (map Some (range n1)) g12).
    fold (take_opt (repeat None n2) g12).
    rewrite <- Hlen1, take_opt_all, take_opt_none. reflexivity. }
  assert (G2 : geometry_2 = repeat NA n1 ++ g21).
  { unfold getcol in H7.
    rewrite Hlook, lookup_app in H7 by discriminate.
    rewrite (lookup_add_suffix_none tr "_1" (take_opt li) (cols L)
               "geometry_2" HnoL2 geometry_2_not_1) in H7.
    rewrite (lookup_add_suffix tr "_2" (take_opt ri) (cols right')
               "geometry" "geometry_2" eq_refl Htr HnoR2 geometry_2_only)
      in H7.
    rewrite HgR' in H7. cbn [option_map] in H7.
    inversion H7; subst geometry_2.
    unfold ri, take_opt. rewrite map_app.
    fold (take_opt (repeat None n1) g21).
    fold (take_opt (map Some (range n2)) g21).
    rewrite <- Hlen2, take_opt_all, take_opt_none. reflexivity. }
  apply geometry_ret_lookup. unfold GeoDataFrame_of, setitem.
  cbn [frame cols _geometry_column_name].
  rewrite lookup_set_col_same. f_equal.
  fold coalesce. subst geometry_1 geometry_2.
  change (fun p : cell * cell => if isnull (fst p) then snd p else fst p)
    with coalesce.
  rewrite combine_app_same by (rewrite repeat_length; exact Hlen1).
  rewrite map_app. rewrite <- Hlen1 at 1. rewrite <- Hlen2.
  rewrite coalesce_left, coalesce_right. reflexivity.
Qed.

End Symmetric_rows.

Lemma _overlay_symmetric_diff_stacks_witness :
  exists r d12 d21 g12 g21,
    _overlay_symmetric_diff true Toy.df1 Toy.df2 =
      ([Sindex_query; Sindex_query], inr r) /\
    _overlay_difference Toy.df1 Toy.df2 = ([Sindex_query], inr d12) /\
    _overlay_difference Toy.df2 Toy.df1 = ([Sindex_query], inr d21) /\
    geometry d12 = ret g12 /\
    geometry d21 = ret g21 /\
    geometry r = ret (g12 ++ g21).
Proof.
  set (m := _overlay_symmetric_diff true Toy.df1 Toy.df2).
  assert (E : m = ([Sindex_query; Sindex_query],
                   inr (value Toy.no_rows m)))
    by (apply run_eq; vm_compute; reflexivity).
  assert (R : ~ reserved "geometry")
    by (intros [F | F]; discriminate F).
  assert (N11 : ~ In "geometry_1" (gcolumns Toy.df1))
    by (cbn; intros [F | [F | []]]; discriminate F).
  assert (N12 : ~ In "geometry_2" (gcolumns Toy.df1))
    by (cbn; intros [F | [F | []]]; discriminate F).
  assert (N22 : ~ In "geometry_2" (gcolumns Toy.df2))
    by (cbn; intros [F | [F | []]]; discriminate F).
  destruct (_overlay_symmetric_diff_stacks true Toy.df1 Toy.df2
              [Toy.poly Toy.P1; Toy.poly Toy.P2]
              [Toy.poly Toy.Q1; Toy.poly Toy.Q2]
              [Sindex_query; Sindex_query] (value Toy.no_rows m)
              eq_refl eq_refl eq_refl eq_refl R R N11 N12 N22 E)
    as (d12 & d21 & g12 & g21 & H12 & H21 & Hg12 & Hg21 & Hg).
  exists (value Toy.no_rows m), d12, d21, g12, g21.
  repeat split; assumption.
Defined.

(** ** One row for each intersecting pair (lines 50-68) *)

Section Intersection_rows.
Context {K : Kernel}.

Lemma positions_in_range i a b n :
  map fst (filter (fun p : nat * Z => Z.eqb (snd p) (Z.of_nat i))
             (combine (seq b n) (map Z.of_nat (seq a n))))
  = if (a <=? i) && (i <? a + n) then [b + (i - a)] else [].
Proof.
  revert a b. induction n as [| n IH]; intros a b;
    cbn [seq map combine filter snd].
  - destruct (a <=? i) eqn:E1; destruct (i <? a + 0) eqn:E2; auto.
    apply Nat.leb_le in E1. apply Nat.ltb_lt in E2. lia.
  - destruct (Z.eqb_spec (Z.of_nat a) (Z.of_nat i)) as [E | E].
    + assert (a = i) by lia. subst a. cbn [map fst]. rewrite IH.
      rewrite Nat.leb_refl.
      assert (H1 : (i <? i + S n) = true) by (apply Nat.ltb_lt; lia).
      assert (H2 : (S i <=? i) = false) by (apply Nat.leb_gt; lia).
      rewrite H1, H2. cbn [andb]. rewrite Nat.sub_diag, Nat.add_0_r.
      reflexivity.
    + rewrite IH. assert (Hne : a <> i) by (intros ->; apply E; reflexivity).
      destruct ((S a <=? i) && (i <? S a + n)) eqn:E1;
        destruct ((a <=? i) && (i <? a + S n)) eqn:E2.
      * apply andb_true_iff in E1. destruct E1 as [E1 _].
        apply Nat.leb_le in E1. f_equal. lia.
      * apply andb_true_iff in E1. destruct E1 as [E1 E1'].
        apply Nat.leb_le in E1. apply Nat.ltb_lt in E1'.
        apply andb_false_iff in E2. destruct E2 as [E2 | E2];
          [apply Nat.leb_gt in E2 | apply Nat.ltb_ge in E2]; lia.
      * apply andb_true_iff in E2. destruct E2 as [E2 E2'].
        apply Nat.leb_le in E2. apply Nat.ltb_lt in E2'.
        apply andb_false_iff in E1. destruct E1 as [E1 | E1];
          [apply Nat.leb_gt in E1 | apply Nat.ltb_ge in E1]; lia.
      * reflexivity.
Qed.

Lemma positions_of_label_range i n :
  i < n -> positions_of_label (num i) (map Z.of_nat (range n)) = [i].
Proof.
  intros Hi. unfold positions_of_label, num, enumerate, range.
  rewrite length_map, length_seq, (positions_in_range i 0 0 n).
  assert (H1 : (0 <=? i) = true) by (apply Nat.leb_le; lia).
  assert (H2 : (i <? 0 + n) = true) by (apply Nat.ltb_lt; lia).
  rewrite H1, H2. cbn [andb]. f_equal. lia.
Qed.

Lemma joined_pairs n (idx : list nat) :
  Forall (fun i => i < n) idx ->
  flat_map (fun p : nat * cell =>
              map (fun j => (fst p, j))
                  (positions_of_label (snd p) (map Z.of_nat (range n))))
           (enumerate (map num idx))
  = combine (range (length idx)) idx.
Proof.
  intros H.
  assert (G : forall a,
            flat_map (fun p : nat * cell =>
                        map (fun j => (fst p, j))
                            (positions_of_label (snd p)
                               (map Z.of_nat (range n))))
                     (combine (seq a (length idx)) (map num idx))
            = combine (seq a (length idx)) idx).
  { induction H as [| i idx Hi _ IH]; intros a;
      cbn [length seq map combine flat_map fst snd]; auto.
    rewrite (positions_of_label_range i n Hi). cbn [map app].
    rewrite IH. reflexivity. }
  unfold enumerate. rewrite length_map. apply (G 0).
Qed.

Lemma map_fst_combine_range (idx : list nat) :
  map fst (combine (range (length idx)) idx) = range (length idx).
Proof.
  unfold range. generalize 0 as a. induction idx as [| i idx IH]; intros a;
    cbn [length seq combine map fst]; auto.
  rewrite IH. reflexivity.
Qed.

Lemma map_snd_combine_range (idx : list nat) :
  map snd (combine (range (length idx)) idx) = idx.
Proof.
  unfold range. generalize 0 as a. induction idx as [| i idx IH]; intros a;
    cbn [length seq combine map snd]; auto.
  rewrite IH. reflexivity.
Qed.

(** Lines 56-66 in closed form: a merge of keys that are positions of the
    right frame, whose index is 0, 1, 2, ..., pairs every left row with
    exactly one right row. *)
Lemma merge_left_on_right_index_range left right key sfx l d idx n :
  merge_left_on_right_index left right key sfx = (l, inr d) ->
  lookup_col key (cols left) = Some (map num idx) ->
  Forall (fun i => i < n) idx ->
  index right = map Z.of_nat (range n) ->
  d = assemble
        (map (fun k => nth k (index left) 0%Z) (range (length idx)))
        (fst (suffixed_labels (columns left) (columns right) sfx))
        (snd (suffixed_labels (columns left) (columns right) sfx))
        left right
        (map Some (range (length idx))) (map Some idx).
Proof.
  unfold merge_left_on_right_index, getcol. intros H Hk Hidx Hix.
  rewrite Hk, bind_ret in H.
  mstep H as l1 labels Hl. apply items_overlap_inv in Hl.
  destruct Hl as [-> [-> _]].
  cbv zeta in H. rewrite Hix, (joined_pairs n idx Hidx) in H.
  inversion H; subst; clear H.
  rewrite <- (map_map fst (fun k => nth k (index left) 0%Z)).
  rewrite <- (map_map fst Some), <- (map_map snd Some).
  rewrite map_fst_combine_range, map_snd_combine_range.
  reflexivity.
Qed.

Lemma query_pairs_bounds g1 g2 :
  Forall (fun i => i < length g1) (map fst (query_pairs g1 g2)) /\
  Forall (fun j => j < length g2) (map snd (query_pairs g1 g2)).
Proof.
  split; apply Forall_forall; intros x Hx; apply in_map_iff in Hx;
    destruct Hx as [[i j] [<- Hin]]; apply query_pairs_spec in Hin;
    cbn [fst snd]; tauto.
Qed.

(** X20.  For two inputs whose geometry columns are as long as their
    indexes and a first input that has no column called "__idx1" or
    "__idx2", the frame [_overlay_intersection] returns has exactly one row
    for each pair of rows whose geometries intersect, so as many rows as
    its geometry column has entries. *)
Theorem _overlay_intersection_rows df1 df2 g1 g2 l r :
  geometry df1 = ret g1 ->
  geometry df2 = ret g2 ->
  length g1 = gnrows df1 ->
  length g2 = gnrows df2 ->
  ~ In "__idx1" (gcolumns df1) ->
  ~ In "__idx2" (gcolumns df1) ->
  _overlay_intersection df1 df2 = (l, inr r) ->
  gnrows r = length (query_pairs g1 g2).
Proof.
  intros Hg1 Hg2 Hrect1 Hrect2 Hno1 Hno2 H.
  unfold _overlay_intersection in H.
  rewrite Hg2, bind_ret, Hg1, bind_ret in H.
  mstep H as l1 idx Hidx. apply sindex_query_inv in Hidx.
  destruct Hidx as [-> Hidx]. inversion Hidx; subst idx; clear Hidx.
  cbv zeta in H. cbn [fst snd] in H.
  set (pairs := query_pairs g1 g2) in *.
  destruct (query_pairs_bounds g1 g2) as [Hb1 Hb2]. fold pairs in Hb1, Hb2.
  destruct ((0 <? length (map fst pairs))
            && (0 <? length (map snd pairs))) eqn:Hne.
  2:{ apply empty_merge_inv in H. destruct H as (_ & _ & _ & -> & _).
      destruct pairs as [| p ps]; [reflexivity |].
      cbn [map length] in Hne. discriminate. }
  mstep H as l2 d1 Hd1. apply drop_inv in Hd1.
  destruct Hd1 as [-> [Hix1 [Hcols1 _]]].
  mstep H as l3 dfinter1 Hm1.
  mstep H as l4 d2 Hd2. apply drop_inv in Hd2.
  destruct Hd2 as [-> [Hix2 _]].
  mstep H as l5 dfinter2 Hm2.
  inversion H; subst r; clear H.
  cbn [with_frame frame reset_index index _geometry_column_name]
    in Hix1, Hix2, Hcols1.
  apply (merge_left_on_right_index_range _ _ _ _ _ _
           (map fst pairs) (gnrows df1)) in Hm1;
    [| cbn [cols lookup_col]; rewrite String.eqb_refl; reflexivity
     | rewrite <- Hrect1; exact Hb1
     | rewrite Hix1; reflexivity].
  assert (Hlabels :
    fst (suffixed_labels ["__idx1"; "__idx2"] (columns d1) ("_x", "_y"))
    = ["__idx1"; "__idx2"]).
  { assert (Hin : forall x, In x (columns d1) -> In x (gcolumns df1)).
    { intros x Hx. unfold columns in Hx. rewrite Hcols1 in Hx.
      rewrite (names_filter
                 (fun n => negb (mem n [_geometry_column_name df1]))) in Hx.
      apply filter_In in Hx. tauto. }
    assert (M1 : mem "__idx1" (columns d1) = false)
      by (apply mem_false; intros Hx; apply Hno1, Hin, Hx).
    assert (M2 : mem "__idx2" (columns d1) = false)
      by (apply mem_false; intros Hx; apply Hno2, Hin, Hx).
    unfold suffixed_labels. cbv zeta. cbn [fst filter].
    rewrite M1, M2. reflexivity. }
  assert (Hkeys : lookup_col "__idx2" (cols dfinter1)
                  = Some (map num (map snd pairs))).
  { rewrite Hm1. unfold assemble. cbn [cols columns map fst snd].
    change (columns
              {| index := map Z.of_nat (range (length (map fst pairs)));
                 cols := [("__idx1", map (fun i => Num (Z.of_nat i))
                                         (map fst pairs));
                          ("__idx2", map (fun i => Num (Z.of_nat i))
                                         (map snd pairs))] |})
      with ["__idx1"; "__idx2"].
    rewrite Hlabels. cbn [combine app lookup_col].
    change (String.eqb "__idx2" "__idx1") with false.
    change (String.eqb "__idx2" "__idx2") with true. cbv iota.
    f_equal.
    replace (length (map fst pairs))
      with (length (map (fun i => Num (Z.of_nat i)) (map snd pairs)))
      by (rewrite !length_map; reflexivity).
    apply take_opt_all. }
  apply (merge_left_on_right_index_range _ _ _ _ _ _
           (map snd pairs) (gnrows df2)) in Hm2;
    [| exact Hkeys
     | rewrite <- Hrect2; exact Hb2
     | rewrite Hix2; reflexivity].
  rewrite Hm2. unfold gnrows, GeoDataFrame_of, nrows, assemble.
  cbn [frame setitem index].
  rewrite !length_map. unfold range. rewrite length_seq. reflexivity.
Qed.

End Intersection_rows.

Lemma _overlay_intersection_rows_witness :
  gnrows (value Toy.no_rows (_overlay_intersection Toy.df1 Toy.df2)) = 3.
Proof.
  set (m := _overlay_intersection Toy.df1 Toy.df2).
  assert (E : m = ([Sindex_query], inr (value Toy.no_rows m)))
    by (apply run_eq; vm_compute; reflexivity).
  assert (N1 : ~ In "__idx1" (gcolumns Toy.df1))
    by (cbn; intros [F | [F | []]]; discriminate F).
  assert (N2 : ~ In "__idx2" (gcolumns Toy.df1))
    by (cbn; intros [F | [F | []]]; discriminate F).
  exact (_overlay_intersection_rows Toy.df1 Toy.df2
           [Toy.poly Toy.P1; Toy.poly Toy.P2]
           [Toy.poly Toy.Q1; Toy.poly Toy.Q2]
           [Sindex_query] (value Toy.no_rows m)
           eq_refl eq_refl eq_refl eq_refl N1 N2 E).
Defined.

(** ** A frame that needs no filtering (lines 381-421) *)

Section Extract_noop.
Context {K : Kernel}.

(** every column is as long as the index *)
Definition rectangular (d : DataFrame) : Prop :=
  Forall (fun c : column => length (snd c) = nrows d) (cols d).

Lemma select_all_true {A} (mask : list bool) (l : list A) :
  Forall (fun b => b = true) mask -> length l <= length mask ->
  select mask l = l.
Proof.
  intros H. revert l. induction H as [| b mask Hb _ IH]; intros l Hl.
  - destruct l; [reflexivity | cbn [length] in Hl; lia].
  - destruct l as [| x l]; [reflexivity |]. subst b. cbn [select].
    rewrite IH; [reflexivity | cbn [length] in Hl; lia].
Qed.

Lemma loc_mask_all_true mask d :
  rectangular d ->
  Forall (fun b => b = true) mask -> nrows d <= length mask ->
  loc_mask mask d = d.
Proof.
  intros Hrect Hm Hlen. destruct d as [ix cs]. unfold loc_mask, rectangular,
    nrows in *. cbn [index cols] in *.
  rewrite (select_all_true mask ix Hm Hlen). f_equal.
  unfold map_cols. rewrite <- (map_id cs) at 2. apply map_ext_in.
  intros [n v] Hin. cbn [fst snd]. f_equal.
  rewrite Forall_forall in Hrect. specialize (Hrect _ Hin).
  cbn [snd] in Hrect. apply select_all_true; [exact Hm | lia].
Qed.

Lemma family_not_collection fam t :
  In fam families -> isin fam t = true -> isin [GeometryCollection] t = false.
Proof.
  intros Hin Ht. destruct t as [t |]; [| reflexivity].
  cbn [families In] in Hin.
  destruct Hin as [<- | [<- | [<- | []]]]; destruct t; try discriminate;
    reflexivity.
Qed.

(** X21.  On a frame whose columns are as long as its index and whose
    geometries are all of the family of the requested type,
    [_collection_extract] returns the frame as it is and issues no
    warning, whatever the warning flag is: nothing is dropped, nothing is
    rebuilt. *)
Theorem _collection_extract_uniform_frame df geom_type_
    keep_geom_type_warning g fam :
  rectangular (frame df) ->
  geometry df = ret g ->
  In fam families ->
  isin fam geom_type_ = true ->
  Forall (fun c => isin fam (cell_geom_type c) = true) g ->
  _collection_extract df geom_type_ keep_geom_type_warning = ([], inr df).
Proof.
  intros Hrect Hg Hfam Ht Hall.
  assert (Hfo : family_of geom_type_ = Some fam).
  { unfold family_of. cbn [families In] in Hfam.
    destruct Hfam as [<- | [<- | [<- | []]]].
    - rewrite Ht. reflexivity.
    - destruct geom_type_ as [[] |]; try discriminate; reflexivity.
    - destruct geom_type_ as [[] |]; try discriminate; reflexivity. }
  rewrite (_collection_extract_eq df geom_type_ keep_geom_type_warning
             fam g Hg Hfo).
  assert (Hcoll : any (is_collection_mask g) = false).
  { unfold any, is_collection_mask, series_geom_type. rewrite map_map.
    apply existsb_none. intros b Hb. apply in_map_iff in Hb.
    destruct Hb as [c [<- Hc]]. rewrite Forall_forall in Hall.
    apply (family_not_collection fam _ Hfam (Hall c Hc)). }
  assert (Hext : extracted_geometry fam g = g).
  { unfold extracted_geometry. rewrite Hcoll. reflexivity. }
  assert (Hmask : Forall (fun b => b = true) (family_mask fam g)).
  { unfold family_mask, series_geom_type. rewrite Hext, map_map.
    apply Forall_forall. intros b Hb. apply in_map_iff in Hb.
    destruct Hb as [c [<- Hc]]. rewrite Forall_forall in Hall.
    apply Hall, Hc. }
  assert (Hlen : nrows (frame df) <= length (family_mask fam g)).
  { unfold family_mask, series_geom_type. rewrite Hext, !length_map.
    apply geometry_ret_lookup in Hg. apply lookup_col_In in Hg.
    unfold rectangular in Hrect. rewrite Forall_forall in Hrect.
    specialize (Hrect _ Hg). cbn [snd] in Hrect. lia. }
  assert (Hframe : extract_frame df fam g = df).
  { unfold extract_frame. rewrite Hcoll. cbv zeta.
    rewrite (loc_mask_all_true _ _ Hrect Hmask Hlen).
    destruct df; reflexivity. }
  f_equal; [| rewrite Hframe; reflexivity].
  unfold extract_log, num_dropped, num_dropped_collection.
  rewrite Hframe, Hcoll, Nat.sub_diag. reflexivity.
Qed.

End Extract_noop.

Lemma _collection_extract_uniform_frame_witness :
  _collection_extract Toy.df1 (Some MultiPolygon) true = ([], inr Toy.df1).
Proof.
  assert (R : rectangular (frame Toy.df1))
    by (repeat constructor).
  assert (F : In POLYGON_GEOM_TYPES families) by (left; reflexivity).
  assert (A : Forall (fun c => isin POLYGON_GEOM_TYPES (cell_geom_type c)
                               = true)
                     [Toy.poly Toy.P1; Toy.poly Toy.P2])
    by (repeat constructor).
  exact (_collection_extract_uniform_frame Toy.df1 (Some MultiPolygon) true
           [Toy.poly Toy.P1; Toy.poly Toy.P2] POLYGON_GEOM_TYPES
           R eq_refl F eq_refl A).
Defined.

(** ** The pair-index columns never leave the module (lines 354-355) *)

Section No_leak.
Context {K : Kernel}.
Variable PANDAS_GE_30 : bool.

(** X22.  For every [how] but "difference", a result that [overlay]
    returns on the general path has no column called "__idx1" or "__idx2":
    the columns the builders use to pair the rows are dropped before the
    result is handed back. *)
Theorem overlay_drops_pair_index df1 df2 how keep_geom_type make_valid
    l r g1 g2 :
  overlay PANDAS_GE_30 df1 df2 how keep_geom_type make_valid = (l, inr r) ->
  geometry df1 = ret g1 ->
  geometry df2 = ret g2 ->
  takes_fast_path how g1 g2 = false ->
  how <> "difference" ->
  ~ In "__idx1" (gcolumns r) /\ ~ In "__idx2" (gcolumns r).
Proof.
  intros H Hg1 Hg2 Hfast Hhow. apply overlay_cases in H.
  destruct H as (g1' & g2' & l' & Hallowed & Hg1' & Hg2' & _ & H).
  rewrite Hg1 in Hg1'. inversion Hg1'; subst g1'; clear Hg1'.
  rewrite Hg2 in Hg2'. inversion Hg2'; subst g2'; clear Hg2'.
  rewrite Hfast in H. apply overlay_main_steps in H.
  destruct H as (t & df1' & df2' & lb & res & res' & le & res''
                 & _ & _ & _ & _ & Hd & He & -> & _).
  assert (Hmem : mem how ["intersection"; "symmetric_difference"; "union";
                          "identity"] = true).
  { apply mem_In in Hallowed. apply mem_In. cbn [allowed_hows In] in *.
    destruct Hallowed as [E | [E | [E | [E | [E | []]]]]]; auto.
    exfalso. apply Hhow. symmetry. exact E. }
  rewrite Hmem in Hd. apply gdrop_inv in Hd. destruct Hd as (_ & Hc & _).
  apply kept_type_inv in He. destruct He as (Hc' & _).
  change (gcolumns (with_frame res'' (reset_index (frame res''))))
    with (gcolumns res'').
  rewrite Hc', Hc.
  split; intros Hin; apply filter_In in Hin; destruct Hin as [_ Hin];
    discriminate Hin.
Qed.

End No_leak.

Lemma overlay_drops_pair_index_witness :
  ~ In "__idx1"
      (gcolumns (value Toy.no_rows
                   (overlay true Toy.df1 Toy.df2 "union" None true))) /\
  ~ In "__idx2"
      (gcolumns (value Toy.no_rows
                   (overlay true Toy.df1 Toy.df2 "union" None true))).
Proof.
  set (m := overlay true Toy.df1 Toy.df2 "union" None true).
  assert (E : m = (fst m, inr (value Toy.no_rows m)))
    by (apply run_eq; vm_compute; reflexivity).
  assert (Hh : "union" <> "difference") by discriminate.
  exact (overlay_drops_pair_index true Toy.df1 Toy.df2 "union" None true
           (fst m) (value Toy.no_rows m)
           [Toy.poly Toy.P1; Toy.poly Toy.P2]
           [Toy.poly Toy.Q1; Toy.poly Toy.Q2]
           E eq_refl eq_refl eq_refl Hh).
Defined.
